(** * Omnik: session process orchestrator, output classifier and prompt parser

    A shallow embedding of
      - [src/bot/session_manager.py]  (ANSI sanitizer, read/debounce loop,
        process termination, session registry),
      - [src/bot/response_classifier.py] (ordered heuristic classifier),
      - [src/bot/prompt_parser.py]    (numbered-option prompt extractor),
      - [src/database/manager.py]     (the session table, as a map),
      - [src/bot/handlers.py]         (the reply of the message handler and
        the payload of its buttons) and [src/main.py] (shutdown),
    together with the properties the specification states about them and
    further properties read off the code.

    Python [str] values are sequences of Unicode code points; they are
    modelled as [list Z].  The regular expressions of the source are kept as
    syntax trees and run by a backtracking matcher that follows the priority
    order of Python's [re] module (greedy before shorter, lazy before longer,
    left alternative before right one). *)

From Stdlib Require Import ZArith List Bool Lia String Ascii QArith Lqa
  DecimalString.
From stdpp Require Import gmap strings list.

(** ** Text *)

(** A code point, and a Python [str]: abbreviations, so that the list
    lemmas apply as they are. *)
Abbreviation cp := Z (only parsing).
Abbreviation str := (list Z) (only parsing).

(** An ASCII literal of the source as a sequence of code points. *)
Definition lit (x : string) : str :=
  map (fun a => Z.of_N (N_of_ascii a)) (list_ascii_of_string x).

Definition NL : cp := 10%Z.
Definition ESC : cp := 27%Z.
Definition LBRACKET : cp := 91%Z.

(** The parts of the Unicode character database and of the codec machinery
    that Python's builtins consult.  They are not part of the repository, so
    every general statement below holds for any such tables. *)
Class UnicodeDB := {
  str_lower : str -> str;          (* str.lower() *)
  uni_isdecimal : cp -> bool;      (* \d of a str pattern *)
  uni_isalnum : cp -> bool;        (* \w of a str pattern is this or '_' *)
  utf8_decode_ignore : list Byte.byte -> str  (* bytes.decode("utf-8", errors="ignore") *)
}.

(** [Py_UNICODE_ISSPACE]: the characters [str.strip()] removes and [\s]
    matches in a [str] pattern. *)
Definition is_space (c : cp) : bool :=
  ((9 <=? c) && (c <=? 13) || (28 <=? c) && (c <=? 32)
   || (c =? 133) || (c =? 160) || (c =? 5760)
   || (8192 <=? c) && (c <=? 8202)
   || (c =? 8232) || (c =? 8233) || (c =? 8239) || (c =? 8287)
   || (c =? 12288))%Z.

Fixpoint lstrip (s : str) : str :=
  match s with
  | c :: s' => if is_space c then lstrip s' else s
  | [] => []
  end.

Definition rstrip (s : str) : str := rev (lstrip (rev s)).

(** [s.strip()] *)
Definition strip (s : str) : str := rstrip (lstrip s).

Fixpoint is_prefix (p s : str) : bool :=
  match p, s with
  | [], _ => true
  | a :: p', b :: s' => (a =? b)%Z && is_prefix p' s'
  | _ :: _, [] => false
  end.

(** [needle in hay] *)
Fixpoint contains (needle hay : str) : bool :=
  is_prefix needle hay ||
  match hay with
  | [] => false
  | _ :: hay' => contains needle hay'
  end.

(** [s.split('\n')] *)
Fixpoint split_lines_aux (cur : str) (s : str) : list str :=
  match s with
  | [] => [rev cur]
  | c :: s' => if (c =? NL)%Z then rev cur :: split_lines_aux [] s'
               else split_lines_aux (c :: cur) s'
  end.

Definition split_lines (s : str) : list str := split_lines_aux [] s.

(** ['\n'.join(ls)] *)
Fixpoint join_lines (ls : list str) : str :=
  match ls with
  | [] => []
  | [l] => l
  | l :: ls' => l ++ NL :: join_lines ls'
  end.

(** ** Regular expressions *)

Inductive citem :=
| IChar (c : cp)            (* a literal character *)
| IRange (lo hi : cp)       (* lo-hi *)
| ISpace                    (* \s *)
| IDigit                    (* \d *)
| IWord                     (* \w *)
| IDot.                     (* . (no DOTALL): anything but a newline *)

Arguments IChar c%_Z.
Arguments IRange (lo hi)%_Z.

(** Every quantifier of the source's patterns ranges over a one-character
    class, so quantifiers take a class; the one optional group is [ROpt]. *)
Inductive regex :=
| RCls (cs : list citem)        (* [...], a literal, \s, \d, \w, . *)
| RSeq (a b : regex)
| RAlt (a b : regex)            (* a|b *)
| RStar (cs : list citem)       (* c*  greedy *)
| RPlus (cs : list citem)       (* c+  greedy *)
| RPlusLazy (cs : list citem)   (* c+? *)
| ROpt (a : regex)              (* (?:a)? greedy *)
| RGroup (i : nat) (a : regex)  (* capture group number i *)
| RBol                          (* ^ with re.MULTILINE *)
| REol                          (* $ with re.MULTILINE *)
| RBos                          (* ^ without re.MULTILINE *)
| REos                          (* $ without re.MULTILINE *)
| RWordB.                       (* \b *)

Definition rchar (c : cp) : regex := RCls [IChar c].
Arguments rchar c%_Z.

(** A literal word: the characters of [w] in sequence. *)
Fixpoint rword (w : str) : regex :=
  match w with
  | [] => RCls []
  | [c] => rchar c
  | c :: w' => RSeq (rchar c) (rword w')
  end.

Definition groups := list (nat * str).

Fixpoint group (i : nat) (g : groups) : str :=
  match g with
  | [] => []
  | (j, t) :: g' => if Nat.eqb i j then t else group i g'
  end.

Section Matcher.
Context `{UnicodeDB}.

Definition is_word (c : cp) : bool := uni_isalnum c || (c =? 95)%Z.

Definition in_item (i : citem) (c : cp) : bool :=
  match i with
  | IChar a => (c =? a)%Z
  | IRange lo hi => ((lo <=? c) && (c <=? hi))%Z
  | ISpace => is_space c
  | IDigit => uni_isdecimal c
  | IWord => is_word c
  | IDot => negb (c =? NL)%Z
  end.

Definition in_class (cs : list citem) (c : cp) : bool :=
  existsb (fun i => in_item i c) cs.

Definition at_bol (prev : option cp) : bool :=
  match prev with None => true | Some c => (c =? NL)%Z end.

Definition at_eol (s : str) : bool :=
  match s with [] => true | c :: _ => (c =? NL)%Z end.

Definition at_eos (s : str) : bool :=
  match s with
  | [] => true
  | c :: [] => (c =? NL)%Z
  | _ => false
  end.

Definition opt_word (o : option cp) : bool :=
  match o with None => false | Some c => is_word c end.

Definition at_wordb (prev : option cp) (s : str) : bool :=
  xorb (opt_word prev) (opt_word (head s)).

(** The matcher is written in continuation-passing style: [k] is tried on
    every way of matching, in the engine's priority order, and the first
    success is the match.  [prev] is the character before the current
    position, [s] the text from the current position on, [n] the number of
    characters consumed since the start of the match. *)
Definition cont (R : Type) := option cp -> str -> nat -> groups -> option R.

Fixpoint star_greedy {R} (cs : list citem) (prev : option cp) (s : str)
    (n : nat) (g : groups) (k : cont R) : option R :=
  match s with
  | c :: s' =>
      if in_class cs c then
        match star_greedy cs (Some c) s' (S n) g k with
        | Some r => Some r
        | None => k prev s n g
        end
      else k prev s n g
  | [] => k prev s n g
  end.

Fixpoint star_lazy {R} (cs : list citem) (prev : option cp) (s : str)
    (n : nat) (g : groups) (k : cont R) : option R :=
  match k prev s n g with
  | Some r => Some r
  | None =>
      match s with
      | c :: s' =>
          if in_class cs c then star_lazy cs (Some c) s' (S n) g k else None
      | [] => None
      end
  end.

Fixpoint rmatch {R} (r : regex) (prev : option cp) (s : str) (n : nat)
    (g : groups) (k : cont R) : option R :=
  match r with
  | RCls cs =>
      match s with
      | c :: s' => if in_class cs c then k (Some c) s' (S n) g else None
      | [] => None
      end
  | RSeq a b =>
      rmatch a prev s n g (fun p' s' n' g' => rmatch b p' s' n' g' k)
  | RAlt a b =>
      match rmatch a prev s n g k with
      | Some x => Some x
      | None => rmatch b prev s n g k
      end
  | RStar cs => star_greedy cs prev s n g k
  | RPlus cs =>
      match s with
      | c :: s' =>
          if in_class cs c then star_greedy cs (Some c) s' (S n) g k else None
      | [] => None
      end
  | RPlusLazy cs =>
      match s with
      | c :: s' =>
          if in_class cs c then star_lazy cs (Some c) s' (S n) g k else None
      | [] => None
      end
  | ROpt a =>
      match rmatch a prev s n g k with
      | Some x => Some x
      | None => k prev s n g
      end
  | RGroup i a =>
      rmatch a prev s n g
        (fun p' s' n' g' => k p' s' n' ((i, firstn (n' - n) s) :: g'))
  | RBol => if at_bol prev then k prev s n g else None
  | REol => if at_eol s then k prev s n g else None
  | RBos => match prev with None => k prev s n g | Some _ => None end
  | REos => if at_eos s then k prev s n g else None
  | RWordB => if at_wordb prev s then k prev s n g else None
  end.

(** One match attempt at the current position: the length of the match and
    its groups.  With [must_advance] an empty match is refused (the rule the
    scanning functions apply right after an empty match). *)
Definition exec (r : regex) (must_advance : bool) (prev : option cp) (s : str)
    : option (nat * groups) :=
  rmatch r prev s 0 []
    (fun _ _ n g =>
       if must_advance && Nat.eqb n 0 then None else Some (n, g)).

(** [re.match(r, s)]: a match at the beginning of [s]. *)
Definition re_match (r : regex) (s : str) : option (nat * groups) :=
  exec r false None s.

(** [re.search(r, s)]: the leftmost position with a match. *)
Fixpoint search_from (r : regex) (prev : option cp) (s : str)
    : option (nat * groups) :=
  match exec r false prev s with
  | Some m => Some m
  | None =>
      match s with
      | [] => None
      | c :: s' => search_from r (Some c) s'
      end
  end.

Definition re_search (r : regex) (s : str) : bool :=
  match search_from r None s with Some _ => true | None => false end.

(** [r.finditer(s)]: the non-overlapping matches from left to right, each as
    the matched text and its groups.  [skip] counts the characters of the
    current match still to pass over. *)
Fixpoint finditer_from (r : regex) (prev : option cp) (s : str) (skip : nat)
    : list (str * groups) :=
  match s with
  | [] =>
      match skip with
      | S _ => []
      | O => match exec r false prev [] with
             | Some (_, g) => [([], g)]
             | None => []
             end
      end
  | c :: s' =>
      match skip with
      | S n => finditer_from r (Some c) s' n
      | O =>
          match exec r false prev s with
          | Some (S n, g) => (firstn (S n) s, g) :: finditer_from r (Some c) s' n
          | Some (O, g) =>
              ([], g) ::
              match exec r true prev s with
              | Some (S n, g') =>
                  (firstn (S n) s, g') :: finditer_from r (Some c) s' n
              | _ => finditer_from r (Some c) s' 0
              end
          | None => finditer_from r (Some c) s' 0
          end
      end
  end.

Definition finditer (r : regex) (s : str) : list (str * groups) :=
  finditer_from r None s 0.

(** [r.findall(s)] for a pattern without groups: the matched texts. *)
Definition findall (r : regex) (s : str) : list str :=
  map fst (finditer r s).

(** [r.sub('', s)]: the text with every match removed. *)
Fixpoint sub_from (r : regex) (prev : option cp) (s : str) (skip : nat) : str :=
  match s with
  | [] => []
  | c :: s' =>
      match skip with
      | S n => sub_from r (Some c) s' n
      | O =>
          match exec r false prev s with
          | Some (S n, _) => sub_from r (Some c) s' n
          | Some (O, _) =>
              match exec r true prev s with
              | Some (S n, _) => sub_from r (Some c) s' n
              | _ => c :: sub_from r (Some c) s' 0
              end
          | None => c :: sub_from r (Some c) s' 0
          end
      end
  end.

Definition re_sub_empty (r : regex) (s : str) : str := sub_from r None s 0.

End Matcher.

Infix "@@" := RSeq (at level 41, right associativity).

(** Characters of the source's patterns outside ASCII. *)
Definition HEAVY_ANGLE : cp := 10095%Z.   (* U+276F, the selection marker *)
Definition BOX_V : cp := 9474%Z.          (* U+2502 *)
Definition BOX_VR : cp := 9500%Z.         (* U+251C *)
Definition BOX_H : cp := 9472%Z.          (* U+2500 *)
Definition BOX_ARC_DR : cp := 9581%Z.     (* U+256D *)
Definition BOX_ARC_DL : cp := 9582%Z.     (* U+256E *)
Definition BOX_ARC_UR : cp := 9584%Z.     (* U+2570 *)
Definition BOX_ARC_UL : cp := 9583%Z.     (* U+256F *)
Definition BOX_UR : cp := 9492%Z.         (* U+2514 *)
Definition BOX_UL : cp := 9496%Z.         (* U+2518 *)
Definition BOX_DR : cp := 9484%Z.         (* U+250C *)
Definition BOX_DL : cp := 9488%Z.         (* U+2510 *)

(** ** The terminal sanitizer (session_manager.py) *)

(** [\x1B(?:[@-Z\\-_]|\[[0-?]*[ -/]*[@-~])]: the escape sequences proper. *)
Definition esc_sequence : regex :=
  rchar ESC @@
  RAlt (RCls [IRange 64 90; IRange 92 95])
       (rchar LBRACKET @@ RStar [IRange 48 63] @@ RStar [IRange 32 47] @@
        RCls [IRange 64 126]).

(** [ANSI_ESCAPE]: the escape sequences, or a bare CSI without its ESC:
    [\[(?:[0-9;]+[a-zA-Z]|[0-9;]+m)]. *)
Definition ANSI_ESCAPE : regex :=
  RAlt esc_sequence
       (rchar LBRACKET @@
        RAlt (RPlus [IRange 48 57; IChar 59] @@ RCls [IRange 97 122; IRange 65 90])
             (RPlus [IRange 48 57; IChar 59] @@ rchar 109)).

(** ** The output classifier (response_classifier.py) *)

Inductive ResponseType :=
| PROMPT | CONFIRMATION | INFO | ERROR | WORKING | COMPLETE.

Scheme Equality for ResponseType.

(** The pattern of [_has_numbered_options]: [^\s*[❯│\s]*\d+\.\s+\w+]. *)
Definition classifier_option_pattern : regex :=
  RBol @@ RStar [ISpace] @@ RStar [IChar HEAVY_ANGLE; IChar BOX_V; ISpace] @@
  RPlus [IDigit] @@ rchar 46 @@ RPlus [ISpace] @@ RPlus [IWord].

(** The patterns of [_is_confirmation]. *)
Definition confirmation_patterns : list regex :=
  [ RWordB @@ RGroup 1 (RAlt (rword (lit "yes")) (rword (lit "no"))) @@ RWordB;
    RWordB @@ RGroup 1 (rword (lit "y/n")) @@ RWordB;
    RWordB @@ RGroup 1 (RAlt (rword (lit "confirm"))
                        (RAlt (rword (lit "proceed")) (rword (lit "continue"))))
           @@ RWordB;
    rchar 63 @@ REos ].

Definition error_indicators : list str :=
  [ lit "error"; lit "failed"; lit "exception"; lit "cannot"; lit "unable";
    lit "invalid"; lit "not found"; lit "denied"; lit "permission";
    [10060%Z];               (* U+274C, cross mark *)
    [9888%Z; 65039%Z];       (* U+26A0 U+FE0F, warning sign *)
    lit "warning" ].

Definition working_indicators : list str :=
  [ lit "working on"; lit "processing"; lit "analyzing"; lit "searching";
    lit "reading"; lit "writing"; lit "creating"; lit "updating";
    lit "let me"; lit "i will"; lit "i am"; lit "i'm";
    [9203%Z];                (* U+23F3, hourglass *)
    [128260%Z];              (* U+1F504, arrows *)
    [9881%Z; 65039%Z] ].     (* U+2699 U+FE0F, gear *)

Definition completion_indicators : list str :=
  [ lit "done"; lit "completed"; lit "finished"; lit "success";
    lit "created successfully"; lit "updated successfully";
    [9989%Z];                (* U+2705, check mark button *)
    [10003%Z];               (* U+2713, check mark *)
    lit "ready" ].

(** ** The prompt parser (prompt_parser.py) *)

(** [^\s*[❯│\s]*(\d+)\.\s+(.+?)(?:\s*│)?\s*$] *)
Definition parser_option_pattern : regex :=
  RBol @@ RStar [ISpace] @@ RStar [IChar HEAVY_ANGLE; IChar BOX_V; ISpace] @@
  RGroup 1 (RPlus [IDigit]) @@ rchar 46 @@ RPlus [ISpace] @@
  RGroup 2 (RPlusLazy [IDot]) @@
  ROpt (RStar [ISpace] @@ rchar BOX_V) @@ RStar [ISpace] @@ REol.

Definition prompt_indicators : list str :=
  [ lit "Yes, proceed"; lit "No, exit"; lit "Enter to confirm"; lit "Esc to exit";
    lit "Do you trust"; lit "trust the files"; lit "security risks";
    lit "Select an option"; lit "Choose:"; lit "continue?" ].

(** [[│├─╭╮╰╯└┘┌┐╯]] *)
Definition box_drawing : regex :=
  RCls [ IChar BOX_V; IChar BOX_VR; IChar BOX_H; IChar BOX_ARC_DR;
         IChar BOX_ARC_DL; IChar BOX_ARC_UR; IChar BOX_ARC_UL; IChar BOX_UR;
         IChar BOX_UL; IChar BOX_DR; IChar BOX_DL; IChar BOX_ARC_UL ].

(** [^\s*[❯\s]*\d+\.], used with [re.match] on one line. *)
Definition option_line_pattern : regex :=
  RBos @@ RStar [ISpace] @@ RStar [IChar HEAVY_ANGLE; ISpace] @@
  RPlus [IDigit] @@ rchar 46.

Record prompt_option := {
  number : str;
  text : str;
  callback_data : str
}.

Record parsed_prompt := {
  question : str;
  options : list prompt_option;
  raw_text : str
}.

Section Program.
Context `{UnicodeDB}.

(** [ANSI_ESCAPE.sub('', text)] *)
Definition sanitize (t : str) : str := re_sub_empty ANSI_ESCAPE t.

Definition _has_numbered_options (t : str) : bool :=
  let matches := findall classifier_option_pattern t in
  (2 <=? length matches)%nat.

Definition _is_confirmation (t : str) : bool :=
  let text_lower := str_lower t in
  let has_question := existsb (fun p => re_search p text_lower) confirmation_patterns in
  let is_short := (length t <? 500)%nat in
  has_question && is_short.

Definition _is_error (t : str) : bool :=
  let text_lower := str_lower t in
  existsb (fun indicator => contains indicator text_lower) error_indicators.

Definition _is_working (t : str) : bool :=
  let text_lower := str_lower t in
  let first_100 := firstn 100 text_lower in
  existsb (fun indicator => contains indicator first_100) working_indicators.

Definition _is_complete (t : str) : bool :=
  let text_lower := str_lower t in
  existsb (fun indicator => contains indicator text_lower) completion_indicators.

Definition classify_response (t : str) : ResponseType :=
  let clean_text := strip (re_sub_empty esc_sequence t) in
  match clean_text with
  | [] => INFO
  | _ =>
      if _has_numbered_options clean_text then PROMPT
      else if _is_confirmation clean_text then CONFIRMATION
      else if _is_error clean_text then ERROR
      else if _is_working clean_text then WORKING
      else if _is_complete clean_text then COMPLETE
      else INFO
  end.

Definition requires_user_action (rt : ResponseType) : bool :=
  match rt with
  | PROMPT | CONFIRMATION => true
  | _ => false
  end.

Definition has_indicator (clean_text : str) : bool :=
  existsb (fun phrase => contains (str_lower phrase) (str_lower clean_text))
          prompt_indicators.

(** The loop over [option_pattern.finditer(clean_text)]. *)
Fixpoint collect_options (ms : list (str * groups)) : list prompt_option :=
  match ms with
  | [] => []
  | (_, g) :: ms' =>
      let option_num := group 1 g in
      let option_text := strip (group 2 g) in
      if (length option_text <? 2)%nat then collect_options ms'
      else {| number := option_num;
              text := option_text;
              callback_data := lit "opt_" ++ option_num |}
           :: collect_options ms'
  end.

(** The loop over the lines that builds [question_lines]. *)
Fixpoint collect_question_lines (lines : list str) : list str :=
  match lines with
  | [] => []
  | line :: lines' =>
      let clean_line := strip (re_sub_empty box_drawing line) in
      match clean_line with
      | [] => collect_question_lines lines'
      | _ =>
          if negb (bool_decide (is_Some (re_match option_line_pattern clean_line)))
             && negb (contains (lit "Enter to confirm") clean_line)
             && negb (contains (lit "Esc to exit") clean_line)
             && (3 <? length clean_line)%nat
          then clean_line :: collect_question_lines lines'
          else collect_question_lines lines'
      end
  end.

Definition parse_prompt (t : str) : option parsed_prompt :=
  let clean_text := re_sub_empty esc_sequence t in
  if negb (has_indicator clean_text) then None
  else
    let options := collect_options (finditer parser_option_pattern clean_text) in
    match options with
    | [] => None
    | _ =>
        let lines := split_lines clean_text in
        let question_lines := collect_question_lines lines in
        let question := strip (join_lines (firstn 6 question_lines)) in
        let question :=
          if (length question <? 10)%nat then lit "Please select an option:"
          else question in
        Some {| question := question; options := options; raw_text := t |}
    end.

End Program.

(** ** Character tables for the worked inputs

    The tables of Python restricted to what the inputs below contain: ASCII,
    where they are exact, and symbols (box drawing, dingbats, the middle
    dot), which have no case and are neither digits nor alphanumerics. *)

Definition ascii_lower (c : cp) : cp :=
  if ((65 <=? c) && (c <=? 90))%Z then (c + 32)%Z else c.

Definition ascii_isdecimal (c : cp) : bool := ((48 <=? c) && (c <=? 57))%Z.

Definition ascii_isalnum (c : cp) : bool :=
  ((48 <=? c) && (c <=? 57) || (65 <=? c) && (c <=? 90)
   || (97 <=? c) && (c <=? 122))%Z.

Definition byte_val (b : Byte.byte) : Z := Z.of_N (Byte.to_N b).

Definition is_continuation (x : Z) : bool := ((128 <=? x) && (x <=? 191))%Z.

(** UTF-8 decoding that drops every byte that starts no well-formed
    sequence. *)
Fixpoint utf8_decode (bs : list Byte.byte) : str :=
  match bs with
  | [] => []
  | b0 :: t0 =>
      let x0 := byte_val b0 in
      if (x0 <? 128)%Z then x0 :: utf8_decode t0
      else
        match t0 with
        | [] => []
        | b1 :: t1 =>
            let x1 := byte_val b1 in
            if ((194 <=? x0) && (x0 <=? 223))%Z && is_continuation x1
            then ((x0 - 192) * 64 + (x1 - 128))%Z :: utf8_decode t1
            else
              match t1 with
              | [] => utf8_decode t0
              | b2 :: t2 =>
                  let x2 := byte_val b2 in
                  let c3 := ((x0 - 224) * 4096 + (x1 - 128) * 64 + (x2 - 128))%Z in
                  if ((224 <=? x0) && (x0 <=? 239))%Z && is_continuation x1
                     && is_continuation x2 && (2048 <=? c3)%Z
                     && negb ((55296 <=? c3) && (c3 <=? 57343))%Z
                  then c3 :: utf8_decode t2
                  else
                    match t2 with
                    | [] => utf8_decode t0
                    | b3 :: t3 =>
                        let x3 := byte_val b3 in
                        let c4 := ((x0 - 240) * 262144 + (x1 - 128) * 4096
                                   + (x2 - 128) * 64 + (x3 - 128))%Z in
                        if ((240 <=? x0) && (x0 <=? 244))%Z && is_continuation x1
                           && is_continuation x2 && is_continuation x3
                           && ((65536 <=? c4) && (c4 <=? 1114111))%Z
                        then c4 :: utf8_decode t3
                        else utf8_decode t0
                    end
              end
        end
  end.

Definition basic_unicode : UnicodeDB :=
  {| str_lower := map ascii_lower;
     uni_isdecimal := ascii_isdecimal;
     uni_isalnum := ascii_isalnum;
     utf8_decode_ignore := utf8_decode |}.

Definition spaces (n : nat) : str := repeat 32%Z n.
Definition MIDDLE_DOT : cp := 183%Z.      (* U+00B7 *)

(** [test_trust_prompt] of response_classifier.py, line by line. *)
Definition test_trust_prompt_lines : list str :=
  [
    [];
    [BOX_ARC_DR] ++ repeat BOX_H 78 ++ [BOX_ARC_DL];
    [BOX_V] ++ lit " Do you trust the files in this folder?" ++ spaces 39 ++ [BOX_V];
    [BOX_V] ++ spaces 78 ++ [BOX_V];
    [BOX_V] ++ lit " /workspace/8afdab13-0fce-4365-ace8-226127b13f9a" ++ spaces 30 ++ [BOX_V];
    [BOX_V] ++ spaces 78 ++ [BOX_V];
    [BOX_V] ++ lit " Claude Code may read, write, or execute files contained in this directory.   " ++ [BOX_V];
    [BOX_V] ++ lit " This can pose security risks, so only use files from trusted sources." ++ spaces 8 ++ [BOX_V];
    [BOX_V] ++ spaces 78 ++ [BOX_V];
    [BOX_V] ++ lit " Learn more ( https://docs.claude.com/s/claude-code-security )" ++ spaces 16 ++ [BOX_V];
    [BOX_V] ++ spaces 78 ++ [BOX_V];
    [BOX_V] ++ lit " " ++ [HEAVY_ANGLE] ++ lit " 1. Yes, proceed" ++ spaces 60 ++ [BOX_V];
    [BOX_V] ++ lit "   2. No, exit" ++ spaces 64 ++ [BOX_V];
    [BOX_V] ++ spaces 78 ++ [BOX_V];
    [BOX_ARC_UR] ++ repeat BOX_H 77 ++ [BOX_ARC_UL];
    lit "   Enter to confirm " ++ [MIDDLE_DOT] ++ lit " Esc to exit";
    spaces 4
  ].

Definition test_trust_prompt : str := join_lines test_trust_prompt_lines.

(** ** Results of operations that can raise *)

Inductive exn :=
| KeyError
| SessionNotRunning (session_id : string)
    (* RuntimeError("Session {session_id} not found or not running") *)
| ProcessCrashed (exit_code : option Z)
    (* RuntimeError("Claude Code process has crashed (exit code: ...)"), the
       code being the return code, or 'unknown' without a process handle *)
| SendFailed
    (* RuntimeError("Failed to send message: ...") *)
| PtyUnavailable
    (* RuntimeError("Process not started or PTY not available") *)
| ProcessLookupError
| TimeoutError
| OSError
| LaunchError.
    (* whatever create_subprocess_exec raises *)

Inductive result (A : Type) :=
| Ok (a : A)
| Raise (e : exn).

Arguments Ok {A} a.
Arguments Raise {A} e.

#[global] Instance result_ret : MRet result := fun A a => Ok a.

#[global] Instance result_bind : MBind result := fun A B f r =>
  match r with
  | Ok a => f a
  | Raise e => Raise e
  end.

(** ** The read/debounce loop ([ClaudeCodeProcess._read_output]) *)

(** The loop's local variables and the units put on [_output_queue] so far.
    Times are the event loop's clock in seconds; the rounding of the
    floating-point subtraction is not modelled. *)
Record loop_state := {
  buffer : str;
  last_output_time : Q;
  output_queue : list str
}.

(** What the environment supplies to one iteration: the outcome of the read
    of up to 1 KiB ([None] when the read raises), the clock at the two places
    the loop reads it, and, when the process has exited, the outcome of the
    last read of up to 4 KiB. *)
Record tick := {
  tick_data : option (list Byte.byte);
  tick_read_time : Q;
  tick_current_time : Q;
  tick_exited : option (option (list Byte.byte))
}.

Definition Qltb (a b : Q) : bool := negb (Qle_bool b a).

Section ReadLoop.
Context `{UnicodeDB}.

(** Lines 133-140: decode, sanitize, and buffer the text unless it is blank. *)
Definition read_step (st : loop_state) (data : option (list Byte.byte))
    (now : Q) : loop_state :=
  match data with
  | None | Some [] => st
  | Some bytes =>
      let text := utf8_decode_ignore bytes in
      let clean_text := sanitize text in
      match strip clean_text with
      | [] => st
      | _ => {| buffer := buffer st ++ clean_text;
                last_output_time := now;
                output_queue := output_queue st |}
      end
  end.

(** The test of line 152. *)
Definition flush_due (buf : str) (time_since_output : Q) : bool :=
  match buf with
  | [] => false
  | _ => Qltb (1 # 2) time_since_output || (4096 <? length buf)%nat
  end.

(** Lines 149-159. *)
Definition flush_step (st : loop_state) (current_time : Q) : loop_state :=
  let time_since_output := (current_time - last_output_time st)%Q in
  if flush_due (buffer st) time_since_output then
    {| buffer := [];
       last_output_time := last_output_time st;
       output_queue := output_queue st ++ [buffer st] |}
  else st.

(** Lines 168-177: the last read after the process has exited; its text is
    appended to the buffer unless it is blank. *)
Definition exit_buffer (st : loop_state) (remaining : option (list Byte.byte))
    : str :=
  match remaining with
  | None | Some [] => buffer st
  | Some bytes =>
      let clean_text := sanitize (utf8_decode_ignore bytes) in
      match strip clean_text with
      | [] => buffer st
      | _ => buffer st ++ clean_text
      end
  end.

(** Lines 179-182: the flush of whatever the buffer holds. *)
Definition exit_step (st : loop_state) (remaining : option (list Byte.byte))
    : loop_state :=
  match exit_buffer st remaining with
  | [] => {| buffer := []; last_output_time := last_output_time st;
             output_queue := output_queue st |}
  | buf => {| buffer := []; last_output_time := last_output_time st;
              output_queue := output_queue st ++ [buf] |}
  end.

(** One iteration of the [while True] loop up to the exit check; the second
    component tells whether the loop goes on. *)
Definition iteration (st : loop_state) (tk : tick) : loop_state * bool :=
  let st1 := read_step st (tick_data tk) (tick_read_time tk) in
  let st2 := flush_step st1 (tick_current_time tk) in
  match tick_exited tk with
  | Some remaining => (exit_step st2 remaining, false)
  | None => (st2, true)
  end.

(** The loop driven by the environment's ticks. *)
Fixpoint run_loop (st : loop_state) (ticks : list tick) : loop_state :=
  match ticks with
  | [] => st
  | tk :: ticks' =>
      let '(st', continue) := iteration st tk in
      if continue then run_loop st' ticks' else st'
  end.

(** Lines 120-121: the state in which the loop starts. *)
Definition loop_start (now : Q) : loop_state :=
  {| buffer := []; last_output_time := now; output_queue := [] |}.

End ReadLoop.

(** ** One session process ([ClaudeCodeProcess]) *)

Definition fd := Z.

Inductive signal_kind := SIGTERM | SIGKILL.

(** The system calls made on behalf of one process object, oldest first. *)
Inductive os_event :=
| EvClose (d : fd)                    (* os.close(d) was called *)
| EvSignal (s : signal_kind)          (* a signal was delivered *)
| EvWrite (d : fd) (data : str).      (* os.write(d, data) *)

(** [_reading_task]: created by [create_task] but not yet run, suspended
    inside [_read_output], or finished. *)
Inductive task_status := TaskCreated | TaskRunning | TaskDone.

(** [asyncio.subprocess.Process] *)
Record subprocess := {
  pid : Z;
  returncode : option Z
}.

Record ClaudeCodeProcess := {
  session_id : string;
  process : option subprocess;
  _reading_task : option task_status;
  _master_fd : option fd;
  _slave_fd : option fd;
  os_trace : list os_event
}.

Definition set_process (x : option subprocess) (p : ClaudeCodeProcess) :=
  {| session_id := session_id p; process := x;
     _reading_task := _reading_task p; _master_fd := _master_fd p;
     _slave_fd := _slave_fd p; os_trace := os_trace p |}.

Definition set_reading_task (x : option task_status) (p : ClaudeCodeProcess) :=
  {| session_id := session_id p; process := process p;
     _reading_task := x; _master_fd := _master_fd p;
     _slave_fd := _slave_fd p; os_trace := os_trace p |}.

Definition set_master_fd (x : option fd) (p : ClaudeCodeProcess) :=
  {| session_id := session_id p; process := process p;
     _reading_task := _reading_task p; _master_fd := x;
     _slave_fd := _slave_fd p; os_trace := os_trace p |}.

Definition set_slave_fd (x : option fd) (p : ClaudeCodeProcess) :=
  {| session_id := session_id p; process := process p;
     _reading_task := _reading_task p; _master_fd := _master_fd p;
     _slave_fd := x; os_trace := os_trace p |}.

Definition log_event (e : os_event) (p : ClaudeCodeProcess) :=
  {| session_id := session_id p; process := process p;
     _reading_task := _reading_task p; _master_fd := _master_fd p;
     _slave_fd := _slave_fd p; os_trace := os_trace p ++ [e] |}.

(** [__init__] *)
Definition new_process (sid : string) : ClaudeCodeProcess :=
  {| session_id := sid; process := None; _reading_task := None;
     _master_fd := None; _slave_fd := None; os_trace := [] |}.

(** The descriptors the trace shows closed, oldest first. *)
Fixpoint closed_fds (t : list os_event) : list fd :=
  match t with
  | [] => []
  | EvClose d :: t' => d :: closed_fds t'
  | _ :: t' => closed_fds t'
  end.

(** The descriptors the object holds. *)
Definition held_fds (p : ClaudeCodeProcess) : list fd :=
  option_list (_master_fd p) ++ option_list (_slave_fd p).

(** A computation over the state of one process object that may raise. *)
Definition M (A : Type) := ClaudeCodeProcess -> result A * ClaudeCodeProcess.

Definition ret {A} (a : A) : M A := fun p => (Ok a, p).
Definition raise {A} (e : exn) : M A := fun p => (Raise e, p).

Definition mbind {A B} (m : M A) (f : A -> M B) : M B :=
  fun p =>
    match m p with
    | (Ok a, p') => f a p'
    | (Raise e, p') => (Raise e, p')
    end.

Notation "m ;;; k" := (mbind m (fun _ => k))
  (at level 100, k at level 200, right associativity).

(** [try: m  except <the exceptions sel accepts>: h] *)
Definition try_except {A} (m : M A) (sel : exn -> bool) (h : M A) : M A :=
  fun p =>
    match m p with
    | (Ok a, p') => (Ok a, p')
    | (Raise e, p') => if sel e then h p' else (Raise e, p')
    end.

(** [try: m  finally: f] *)
Definition try_finally {A} (m : M A) (f : M unit) : M A :=
  fun p =>
    match m p with
    | (r, p') =>
        match f p' with
        | (Ok _, p'') => (r, p'')
        | (Raise e, p'') => (Raise e, p'')
        end
    end.

Definition modify (f : ClaudeCodeProcess -> ClaudeCodeProcess) : M unit :=
  fun p => (Ok tt, f p).

Definition any_exception (e : exn) : bool := true.

Definition is_timeout (e : exn) : bool :=
  match e with TimeoutError => true | _ => false end.

(** What the operating system and the event loop decide while [terminate]
    runs. *)
Record term_env := {
  signal_raises : bool;         (* send_signal raises *)
  exit_in_time : option Z;      (* the exit code if the process exits within
                                   the grace period, else the wait times out *)
  kill_raises : bool;           (* kill raises *)
  exit_after_kill : Z;          (* the exit code after the kill *)
  reader_finishes : bool;       (* the read loop notices the exit and runs to
                                   its end while terminate is suspended *)
  close_raises : bool           (* os.close raises *)
}.

(** [os.close(d)] inside [try: ... except: pass]. *)
Definition guarded_close (env : term_env) (d : fd) : M unit :=
  try_except
    (modify (log_event (EvClose d)) ;;;
     if close_raises env then raise OSError else ret tt)
    any_exception (ret tt).

(** The [finally] block of [_read_output], lines 191-198. *)
Definition reader_finally (env : term_env) : M unit :=
  fun p =>
    match _master_fd p with
    | Some d => (guarded_close env d ;;; modify (set_master_fd None)) p
    | None => (Ok tt, p)
    end.

(** The read loop running to its end: it returns at once without a process
    or a master descriptor, else it leaves through its [finally] block. *)
Definition reader_run_to_end (env : term_env) : M unit :=
  fun p =>
    match _reading_task p with
    | Some TaskCreated | Some TaskRunning =>
        (reader_finally env ;;; modify (set_reading_task (Some TaskDone))) p
    | _ => (Ok tt, p)
    end.

Definition send_signal (env : term_env) (s : signal_kind) : M unit :=
  if signal_raises env then raise ProcessLookupError
  else modify (log_event (EvSignal s)).

Definition kill (env : term_env) : M unit :=
  if kill_raises env then raise ProcessLookupError
  else modify (log_event (EvSignal SIGKILL)).

Definition set_returncode (c : Z) (p : ClaudeCodeProcess) : ClaudeCodeProcess :=
  match process p with
  | Some sp => set_process (Some {| pid := pid sp; returncode := Some c |}) p
  | None => p
  end.

Definition exited (p : ClaudeCodeProcess) : bool :=
  match process p with
  | Some sp => bool_decide (is_Some (returncode sp))
  | None => false
  end.

(** What may happen while [terminate] is suspended in an [await]: the read
    loop gets to run and, the process having exited, runs to its end. *)
Definition while_suspended (env : term_env) : M unit :=
  if reader_finishes env then reader_run_to_end env else ret tt.

(** [await asyncio.wait_for(self.process.wait(), timeout)]: the return code
    is known already, or the process exits in time, or the wait times
    out. *)
Definition wait_for_exit (env : term_env) : M unit :=
  fun p =>
    if exited p then while_suspended env p
    else
      match exit_in_time env with
      | Some c => while_suspended env (set_returncode c p)
      | None => (Raise TimeoutError, p)
      end.

(** [await self.process.wait()] after the kill. *)
Definition wait_exit (env : term_env) : M unit :=
  fun p =>
    if exited p then while_suspended env p
    else while_suspended env (set_returncode (exit_after_kill env) p).

(** Lines 286-291: cancel the read task and await it.  A task cancelled
    before its first step never enters its body; a suspended one leaves
    through its [finally] block. *)
Definition cancel_reading_task (env : term_env) : M unit :=
  fun p =>
    match _reading_task p with
    | Some TaskCreated => (Ok tt, set_reading_task (Some TaskDone) p)
    | Some TaskRunning =>
        (reader_finally env ;;; modify (set_reading_task (Some TaskDone))) p
    | Some TaskDone | None => (Ok tt, p)
    end.

(** Lines 259-282 of [terminate]: the [try] block with its handlers. *)
Definition terminate_body (env : term_env) : M unit :=
  try_except
    (send_signal env SIGTERM ;;;
     try_except (wait_for_exit env) is_timeout (kill env ;;; wait_exit env))
    any_exception (ret tt).

(** Lines 284-306 of [terminate]: the [finally] block. *)
Definition terminate_finally (env : term_env) : M unit :=
  cancel_reading_task env ;;;
  (fun q =>
     match _master_fd q with
     | Some d => (guarded_close env d ;;; modify (set_master_fd None)) q
     | None => (Ok tt, q)
     end) ;;;
  (fun q =>
     match _slave_fd q with
     | Some d => (guarded_close env d ;;; modify (set_slave_fd None)) q
     | None => (Ok tt, q)
     end).

(** [ClaudeCodeProcess.terminate] *)
Definition terminate (env : term_env) : M unit :=
  fun p =>
    match process p with
    | None => (Ok tt, p)
    | Some _ => try_finally (terminate_body env) (terminate_finally env) p
    end.

(** [ClaudeCodeProcess.is_alive] *)
Definition is_alive (p : ClaudeCodeProcess) : bool :=
  match process p with
  | Some sp => bool_decide (returncode sp = None)
  | None => false
  end.

(** What the operating system decides while [start] runs: the descriptors
    [pty.openpty()] returns and the pid of the launched program, if the
    launch succeeds. *)
Record start_env := {
  pty_master : fd;
  pty_slave : fd;
  launched : option Z
}.

(** [ClaudeCodeProcess.start], from [pty.openpty()] on; the creation of the
    workspace directory, which comes first, involves no descriptor. *)
Definition start (env : start_env) : M Z :=
  modify (set_master_fd (Some (pty_master env))) ;;;
  modify (set_slave_fd (Some (pty_slave env))) ;;;
  match launched env with
  | None => raise LaunchError
  | Some child =>
      modify (set_process (Some {| pid := child; returncode := None |})) ;;;
      modify (log_event (EvClose (pty_slave env))) ;;;
      modify (set_slave_fd None) ;;;
      modify (set_reading_task (Some TaskCreated)) ;;;
      ret child
  end.

(** [ClaudeCodeProcess.send_input]; [write_raises] is the outcome of
    [os.write], and the trace records the text written before its encoding. *)
Definition send_input (write_raises : bool) (message : str) : M unit :=
  fun p =>
    match process p, _master_fd p with
    | Some _, Some d =>
        if write_raises then (Raise OSError, p)
        else (Ok tt, log_event (EvWrite d (message ++ [NL])) p)
    | _, _ => (Raise PtyUnavailable, p)
    end.

(** ** The session registry ([SessionManager]) *)

Module Session.

Inductive SessionStatus := ACTIVE | PAUSED | CRASHED | TERMINATED.

(** The columns of a session record that the registry reads or writes;
    times are timestamps. *)
Record t := {
  id : string;
  user_id : Z;
  workspace_path : string;
  status : SessionStatus;
  pid : option Z;
  last_activity : Z
}.

End Session.

(** [self.db] as the table of session records, [self.sessions] and
    [self.active_sessions]. *)
Record SessionManager := {
  db : gmap string Session.t;
  sessions : gmap string ClaudeCodeProcess;
  active_sessions : gmap Z string
}.

(** [DatabaseManager.update_session] for the fields the registry passes. *)
Definition update_session (d : gmap string Session.t) (sid : string)
    (status : option Session.SessionStatus) (pid : option Z)
    (last_activity : option Z) : gmap string Session.t * bool :=
  match status, pid, last_activity with
  | None, None, None => (d, false)
  | _, _, _ =>
      match d !! sid with
      | Some s =>
          (<[sid := {| Session.id := Session.id s;
                       Session.user_id := Session.user_id s;
                       Session.workspace_path := Session.workspace_path s;
                       Session.status := default (Session.status s) status;
                       Session.pid := match pid with
                                      | Some x => Some x
                                      | None => Session.pid s
                                      end;
                       Session.last_activity :=
                         default (Session.last_activity s) last_activity |}]> d,
           true)
      | None => (d, false)
      end
  end.

(** [del m[k]] *)
Definition py_del `{Countable K} {V} (k : K) (m : gmap K V) : result (gmap K V) :=
  match m !! k with
  | Some _ => Ok (delete k m)
  | None => Raise KeyError
  end.

(** Lines 417-419: the loop over [list(self.active_sessions.items())]. *)
Fixpoint clear_active (items : list (Z * string)) (sid : string)
    (active : gmap Z string) : result (gmap Z string) :=
  match items with
  | [] => Ok active
  | (user_id, active_id) :: items' =>
      if decide (active_id = sid) then
        active' ← py_del user_id active; clear_active items' sid active'
      else clear_active items' sid active
  end.

(** [SessionManager.terminate_session]: the value returned and the registry
    afterwards; [now] is [datetime.utcnow()]. *)
Definition terminate_session (env : term_env) (now : Z) (session_id : string)
    (m : SessionManager) : result (bool * SessionManager) :=
  live ←
    match sessions m !! session_id with
    | Some process =>
        match terminate env process with
        | (Ok _, process') =>
            py_del session_id (<[session_id := process']> (sessions m))
        | (Raise e, _) => Raise e
        end
    | None => Ok (sessions m)
    end;
  let '(db', _) :=
    update_session (db m) session_id (Some Session.TERMINATED) None (Some now) in
  active ← clear_active (map_to_list (active_sessions m)) session_id
             (active_sessions m);
  Ok (true, {| db := db'; sessions := live; active_sessions := active |}).

(** What the operating system and the session decide while [send_message]
    runs: whether the write to the terminal raises, and the units that
    [read_output(timeout=60.0)] yields before it ends. *)
Record stream_env := {
  write_raises : bool;
  delivered : list str
}.

(** The synthetic unit of line 515: a check mark button followed by
    " Command sent (no output received)". *)
Definition no_output_notice : str :=
  9989%Z :: lit " Command sent (no output received)".

(** [SessionManager.send_message]: the chunks the generator yields, how it
    ends, and the registry afterwards. *)
Definition send_message (env : stream_env) (now : Z) (session_id : string)
    (message : str) (m : SessionManager)
    : list str * result unit * SessionManager :=
  match sessions m !! session_id with
  | None => ([], Raise (SessionNotRunning session_id), m)
  | Some process_ =>
      if negb (is_alive process_) then
        ([], Raise (ProcessCrashed (sp ← process process_; returncode sp)), m)
      else
        match send_input (write_raises env) message process_ with
        | (Raise _, _) => ([], Raise SendFailed, m)
        | (Ok _, process') =>
            let m' :=
              {| db := fst (update_session (db m) session_id None None (Some now));
                 sessions := <[session_id := process']> (sessions m);
                 active_sessions := active_sessions m |} in
            match delivered env with
            | [] => ([no_output_notice], Ok tt, m')
            | outputs => (outputs, Ok tt, m')
            end
        end
  end.

(** ** Notions used by the statements *)

(** The descriptors closed so far followed by those still held. *)
Definition accounted (p : ClaudeCodeProcess) : list fd :=
  closed_fds (os_trace p) ++ held_fds p.

(** A step that neither forgets nor invents a descriptor, and keeps the
    process handle. *)
Definition keeps (m : M unit) : Prop :=
  forall p, accounted (snd (m p)) = accounted p /\
            (is_Some (process p) -> is_Some (process (snd (m p)))).

Definition never_raises (m : M unit) : Prop :=
  forall p, fst (m p) = Ok tt.

(** The exit code the registry knows for a session: that of the process
    object in the live map, if there is one and it has exited. *)
Definition last_known_exit_code (m : SessionManager) (sid : string) : option Z :=
  p ← sessions m !! sid; sp ← process p; returncode sp.

(** The failures that tell the caller the session is not running. *)
Definition not_running (e : exn) : bool :=
  match e with
  | SessionNotRunning _ | ProcessCrashed _ => true
  | _ => false
  end.

(** The exit code a failure carries. *)
Definition surfaced_exit_code (e : exn) : option Z :=
  match e with
  | ProcessCrashed c => c
  | _ => None
  end.

(** The flush test as the specification words it: the buffer is non-empty
    and at least 500 ms have passed since the last successful read, or the
    buffer is longer than 4096. *)
Definition spec_flush_due (buf : str) (time_since_output : Q) : Prop :=
  buf <> [] /\ ((1 # 2 <= time_since_output)%Q \/ (4096 < length buf)%nat).

(** The flush test of the code. *)
Definition code_flush_due (buf : str) (time_since_output : Q) : Prop :=
  buf <> [] /\ ((1 # 2 < time_since_output)%Q \/ (4096 < length buf)%nat).

(** The state after a flush of [st]. *)
Definition flushed (st : loop_state) : loop_state :=
  {| buffer := [];
     last_output_time := last_output_time st;
     output_queue := output_queue st ++ [buffer st] |}.

(** A text with a character that is not whitespace. *)
Definition nonblank (s : str) : Prop := Exists (fun c => is_space c = false) s.

(** What the loop maintains: the buffer is empty or not blank, and no unit
    put on the queue is blank. *)
Definition loop_inv (st : loop_state) : Prop :=
  (buffer st = [] \/ nonblank (buffer st)) /\ Forall nonblank (output_queue st).

(** A pattern that never matches the empty text. *)
Definition never_empty `{UnicodeDB} (r : regex) : Prop :=
  forall adv prev s n g, exec r adv prev s = Some (n, g) -> n <> 0%nat.

(** The error indicators as the specification lists them: the nine keywords
    and the two symbol markers. *)
Definition spec_error_indicators : list str :=
  [ lit "error"; lit "failed"; lit "exception"; lit "cannot"; lit "unable";
    lit "invalid"; lit "not found"; lit "denied"; lit "permission";
    [10060%Z]; [9888%Z; 65039%Z] ].

(** What the parser makes of one match of [parser_option_pattern]. *)
Definition option_of_match (m : str * groups) : prompt_option :=
  {| number := group 1 (snd m);
     text := strip (group 2 (snd m));
     callback_data := lit "opt_" ++ group 1 (snd m) |}.

(** The matches whose option text, stripped, has at least two characters. *)
Definition long_enough (m : str * groups) : bool :=
  negb (length (strip (group 2 (snd m))) <? 2)%nat.

(** The character before the position reached after the text [u], which
    itself came after [prev]. *)
Definition last_seen (prev : option cp) (u : str) : option cp :=
  match last u with
  | Some c => Some c
  | None => prev
  end.

(** What a pattern matches, regardless of the order in which the matcher
    tries: [matches r prev u rest] says that [r] matches the text [u] found
    after the character [prev] and before the text [rest]. *)
Fixpoint matches `{UnicodeDB} (r : regex) (prev : option cp) (u rest : str)
    : Prop :=
  match r with
  | RCls cs => exists c, u = [c] /\ in_class cs c = true
  | RSeq a b =>
      exists u1 u2, u = u1 ++ u2 /\ matches a prev u1 (u2 ++ rest) /\
                    matches b (last_seen prev u1) u2 rest
  | RAlt a b => matches a prev u rest \/ matches b prev u rest
  | RStar cs => Forall (fun c => in_class cs c = true) u
  | RPlus cs | RPlusLazy cs =>
      u <> [] /\ Forall (fun c => in_class cs c = true) u
  | ROpt a => u = [] \/ matches a prev u rest
  | RGroup _ a => matches a prev u rest
  | RBol => u = [] /\ at_bol prev = true
  | REol => u = [] /\ at_eol rest = true
  | RBos => u = [] /\ prev = None
  | REos => u = [] /\ at_eos rest = true
  | RWordB => u = [] /\ at_wordb prev rest = true
  end.

(** The character before position [p] of [T]. *)
Definition prev_at (T : str) (p : nat) : option cp :=
  match p with
  | O => None
  | S p' => T !! p'
  end.

(** One match attempt of [r] at position [p] of [T]. *)
Definition exec_at `{UnicodeDB} (r : regex) (T : str) (p : nat)
    : option (nat * groups) :=
  exec r false (prev_at T p) (drop p T).

(** The matches [finditer] finds from position [p] of [T] on. *)
Definition scan_from `{UnicodeDB} (r : regex) (T : str) (p : nat)
    : list (str * groups) :=
  finditer_from r (prev_at T p) (drop p T) 0.

(** The characters of [T] at the positions from [i] up to [j], [j]
    excluded, all satisfy [P]. *)
Definition seg (T : str) (i j : nat) (P : cp -> bool) : Prop :=
  forall k, (i <= k < j)%nat -> exists c, T !! k = Some c /\ P c = true.

(** Position [q] of [T] is the beginning of a line. *)
Definition line_start (T : str) (q : nat) : Prop :=
  match prev_at T q with
  | None => True
  | Some c => c = NL
  end.

Definition is_dot (c : cp) : bool := negb (c =? NL)%Z.

Definition is_tail (c : cp) : bool := is_space c || (c =? BOX_V)%Z.

Section Heads.
Context `{UnicodeDB}.

(** The characters the option patterns allow before the number. *)
Definition is_lead (c : cp) : bool :=
  in_class [IChar HEAVY_ANGLE; IChar BOX_V; ISpace] c.

(** A numbered option begins at position [d] of [T]: digits up to [e], a
    period at [e], whitespace up to [w], and a word character at [w]. *)
Definition head_at (T : str) (d e w : nat) : Prop :=
  (d < e)%nat /\ seg T d e uni_isdecimal /\ T !! e = Some 46%Z /\
  (e + 1 < w)%nat /\ seg T (e + 1) w is_space /\
  exists c, T !! w = Some c /\ is_word c = true.

(** What the argument needs of the character tables: a decimal digit is
    neither whitespace nor a marker nor the period, and a word character
    is not whitespace. *)
Definition plain_tables : Prop :=
  (forall c, uni_isdecimal c = true ->
     is_space c = false /\ c <> HEAVY_ANGLE /\ c <> BOX_V /\ c <> 46%Z) /\
  (forall c, is_word c = true -> is_space c = false).

End Heads.

Section SemanticsDefs.
Context `{UnicodeDB}.

(** The continuation [k] answers [x] after a match of [r]. *)
Definition answered {R} (r : regex) (k : cont R) (prev : option cp) (s : str)
    (n : nat) (x : R) : Prop :=
  exists u rest g', s = u ++ rest /\ matches r prev u rest /\
                    k (last_seen prev u) rest (n + length u)%nat g' = Some x.

(** A continuation that answers whatever the groups. *)
Definition accepts {R} (k : cont R) (prev : option cp) (s : str) (n : nat) : Prop :=
  forall g, is_Some (k prev s n g).

End SemanticsDefs.

(** ** The summary of a response ([get_response_summary]) *)

(** [^\s*[❯│\s]*\d+\.] with [re.MULTILINE]: the pattern
    [get_response_summary] counts the options with. *)
Definition summary_option_pattern : regex :=
  RBol @@ RStar [ISpace] @@ RStar [IChar HEAVY_ANGLE; IChar BOX_V; ISpace] @@
  RPlus [IDigit] @@ rchar 46.

(** [str(n)] of a count. *)
Definition str_of_nat (n : nat) : str :=
  lit (NilZero.string_of_uint (Nat.to_uint n)).

Section Summary.
Context `{UnicodeDB}.

(** [[line.strip() for line in clean_text.split('\n') if line.strip()]] *)
Definition meaningful_lines (clean_text : str) : list str :=
  map strip
    (List.filter (fun line => match strip line with [] => false | _ => true end)
       (split_lines clean_text)).

(** [get_response_summary] *)
Definition get_response_summary (t : str) (response_type : ResponseType) : str :=
  let clean_text := strip (re_sub_empty esc_sequence t) in
  match meaningful_lines clean_text with
  | [] => lit "(empty response)"
  | line :: _ =>
      let first_line := firstn 100 line in
      match response_type with
      | PROMPT =>
          let option_count := length (findall summary_option_pattern clean_text) in
          lit "Interactive prompt with " ++ str_of_nat option_count ++ lit " options"
      | ERROR => lit "Error: " ++ first_line
      | COMPLETE => lit "Completed: " ++ first_line
      | _ => first_line
      end
  end.

End Summary.

(** ** The session registry, continued *)

(** [SessionManager.get_session]: the record of the table, if any. *)
Definition get_session (session_id : string) (m : SessionManager)
    : option Session.t :=
  db m !! session_id.

(** [SessionManager.get_active_session]; an empty identifier is false for
    [if session_id:]. *)
Definition get_active_session (user_id : Z) (m : SessionManager)
    : option Session.t :=
  match active_sessions m !! user_id with
  | Some session_id =>
      if decide (session_id = EmptyString) then None
      else get_session session_id m
  | None => None
  end.

(** [self.active_sessions[user_id] = session_id] *)
Definition select_session (user_id : Z) (session_id : string) (m : SessionManager)
    : SessionManager :=
  {| db := db m; sessions := sessions m;
     active_sessions := <[user_id := session_id]> (active_sessions m) |}.

(** [SessionManager.set_active_session] *)
Definition set_active_session (user_id : Z) (session_id : string)
    (m : SessionManager) : bool * SessionManager :=
  match get_session session_id m with
  | Some session =>
      if decide (Session.user_id session = user_id)
      then (true, select_session user_id session_id m)
      else (false, m)
  | None => (false, m)
  end.

(** [DatabaseManager.create_session]: the insert of a row; [None] stands for
    the IntegrityError of an identifier that is taken. *)
Definition db_create_session (session : Session.t) (d : gmap string Session.t)
    : option (gmap string Session.t) :=
  match d !! Session.id session with
  | Some _ => None
  | None => Some (<[Session.id session := session]> d)
  end.

(** What [create_session] takes from outside: the identifier [uuid4] draws,
    the path pathlib makes of the workspace base and the identifier, and what
    the operating system decides while the process starts. *)
Record create_env := {
  new_uuid : string;
  new_workspace : string;
  launch : start_env
}.

(** How [create_session] can fail. *)
Inductive create_error :=
| IntegrityError            (* the insert found the identifier taken *)
| StartError (e : exn).     (* what [start] raised *)

(** [SessionManager.create_session]: the session returned, or the failure,
    and the registry afterwards; [now] is [datetime.utcnow()] when the model
    object is built.  The name, the creation time and the usage counters of
    the record are stored and never read by the registry; they are left out
    as in [Session.t]. *)
Definition create_session (env : create_env) (now : Z) (user_id : Z)
    (m : SessionManager) : (create_error + Session.t) * SessionManager :=
  let session_id := new_uuid env in
  let session :=
    {| Session.id := session_id; Session.user_id := user_id;
       Session.workspace_path := new_workspace env;
       Session.status := Session.ACTIVE; Session.pid := None;
       Session.last_activity := now |} in
  match db_create_session session (db m) with
  | None => (inl IntegrityError, m)
  | Some db1 =>
      match start (launch env) (new_process session_id) with
      | (Raise e, _) =>
          (inl (StartError e),
           {| db := db1; sessions := sessions m;
              active_sessions := active_sessions m |})
      | (Ok pid, process) =>
          (inr {| Session.id := session_id; Session.user_id := user_id;
                  Session.workspace_path := new_workspace env;
                  Session.status := Session.ACTIVE; Session.pid := Some pid;
                  Session.last_activity := now |},
           {| db := fst (update_session db1 session_id None (Some pid) None);
              sessions := <[session_id := process]> (sessions m);
              active_sessions := <[user_id := session_id]> (active_sessions m) |})
      end
  end.

(** [SessionManager.restart_session]: the value returned or the exception,
    and the registry afterwards.  [terminate] works on the process object the
    live map holds. *)
Definition restart_session (tenv : term_env) (senv : start_env) (now : Z)
    (session_id : string) (m : SessionManager) : result bool * SessionManager :=
  match get_session session_id m with
  | None => (Ok false, m)
  | Some session =>
      let '(stopped, live) :=
        match sessions m !! session_id with
        | Some process =>
            let '(r, process') := terminate tenv process in
            (r, <[session_id := process']> (sessions m))
        | None => (Ok tt, sessions m)
        end in
      let m1 := {| db := db m; sessions := live;
                   active_sessions := active_sessions m |} in
      match stopped with
      | Raise e => (Raise e, m1)
      | Ok _ =>
          match start senv (new_process session_id) with
          | (Raise e, _) => (Raise e, m1)
          | (Ok pid, new_process') =>
              (Ok true,
               {| db := fst (update_session (db m) session_id
                               (Some Session.ACTIVE) (Some pid) (Some now));
                  sessions := <[session_id := new_process']> live;
                  active_sessions := active_sessions m |})
          end
      end
  end.

(** main.py, [OmnikBot.shutdown], lines 176-186: every identifier of the
    live map is terminated, an exception being logged and passed over.  The
    operating system's part and the clock may differ from one session to the
    next. *)
Fixpoint shutdown_sessions (env : string -> term_env) (now : string -> Z)
    (ids : list string) (m : SessionManager) : SessionManager :=
  match ids with
  | [] => m
  | session_id :: ids' =>
      match terminate_session (env session_id) (now session_id) session_id m with
      | Ok (_, m') => shutdown_sessions env now ids' m'
      | Raise _ => shutdown_sessions env now ids' m
      end
  end.

Definition shutdown (env : string -> term_env) (now : string -> Z)
    (m : SessionManager) : SessionManager :=
  shutdown_sessions env now (map_to_list (sessions m)).*1 m.

(** ** What the handlers show and what the buttons carry (handlers.py) *)

Definition COLON : cp := 58%Z.

(** The text shown for an empty response: a check mark button followed by
    " Done (no output)". *)
Definition done_notice : str := 9989%Z :: lit " Done (no output)".

(** ["\n\n... (truncated)"] *)
Definition truncation_mark : str := [NL; NL] ++ lit "... (truncated)".

(** Lines 432-434: [display_text] as it is computed after the loop, the
    plain text of the response. *)
Definition final_display_text (buffer : str) : str :=
  let display_text :=
    match buffer with
    | [] => done_notice
    | _ => firstn 4000 buffer
    end in
  if (4000 <? length buffer)%nat then firstn 4000 buffer ++ truncation_mark
  else display_text.

(** [InlineKeyboardButton(text=..., callback_data=...)] *)
Record button := {
  button_text : str;
  button_data : str
}.

(** Lines 453-459: one button per option of the parsed prompt. *)
Definition prompt_keyboard (session_id : str) (p : parsed_prompt) : list button :=
  map (fun opt =>
         {| button_text := number opt ++ lit ". " ++ text opt;
            button_data := lit "prompt:" ++ session_id ++ [COLON] ++ number opt |})
      (options p).

(** [s.split(sep)] for a separator of one character. *)
Fixpoint split_on_aux (sep : cp) (cur : str) (s : str) : list str :=
  match s with
  | [] => [rev cur]
  | c :: s' => if (c =? sep)%Z then rev cur :: split_on_aux sep [] s'
               else split_on_aux sep (c :: cur) s'
  end.

Definition split_on (sep : cp) (s : str) : list str := split_on_aux sep [] s.

(** Line 513 of [button_callback_handler]:
    [_, session_id, option_num = query.data.split(":")], with [None] for the
    ValueError of any other number of parts. *)
Definition parse_button_data (data : str) : option (str * str) :=
  match split_on COLON data with
  | [_; session_id; option_num] => Some (session_id, option_num)
  | _ => None
  end.

(** ** The reply of [message_handler] (handlers.py, lines 403-502) *)

(** [format_prompt_message] of prompt_parser.py. *)
Definition format_prompt_message (p : parsed_prompt) : str :=
  let msg := lit "**" ++ question p ++ lit "**" ++ [NL; NL] in
  msg ++ lit "_Select an option below:_".

(** What leaves the [try] block of lines 407-495 as an exception: one raised
    by the generator [send_message], one raised by the unguarded
    [edit_text] of line 478, or one raised by [db.add_message]
    (lines 489-495). *)
Inductive reply_error :=
| GeneratorError (e : exn)
| EditError
| SaveError.

(** A call of [sent_message.edit_text]: with the plain text of the response
    (lines 424, 478 and 484), with the formatted prompt and its keyboard
    (lines 467-471), or with the cross mark followed by [" Error: "] and
    [str(e)] (line 500). *)
Inductive edit_call :=
| EditText (display_text : str)
| EditPrompt (clean_msg : str) (reply_markup : list button)
| EditErrorText (e : reply_error).

(** The variables of the handler, the calls of [edit_text] made so far, what
    the message shows (the last call that did not raise; [None] while it
    still reads "Processing..."), the entry made in [pending_prompts] and
    the assistant message saved. *)
Record reply_state := {
  reply_buffer : str;
  last_edit : Q;
  last_content : str;
  edit_calls : list edit_call;
  shown : option edit_call;
  pending_prompt : option str;
  saved_reply : option str
}.

(** Lines 403-405. *)
Definition reply_start : reply_state :=
  {| reply_buffer := []; last_edit := 0; last_content := [];
     edit_calls := []; shown := None; pending_prompt := None;
     saved_reply := None |}.

(** One chunk of the generator, the clock when it arrives, and whether an
    [edit_text] made for it raises. *)
Record chunk_tick := {
  tick_chunk : str;
  tick_now : Q;
  tick_edit_raises : bool
}.

(** A call of [edit_text] that raises leaves the message as it is. *)
Definition call_edit (call : edit_call) (raises : bool) (st : reply_state)
    : reply_state :=
  {| reply_buffer := reply_buffer st; last_edit := last_edit st;
     last_content := last_content st;
     edit_calls := edit_calls st ++ [call];
     shown := if raises then shown st else Some call;
     pending_prompt := pending_prompt st; saved_reply := saved_reply st |}.

(** Lines 418-420. *)
Definition streamed_display_text (buffer : str) : str :=
  let display_text := firstn 4000 buffer in
  if (4000 <? length buffer)%nat then display_text ++ truncation_mark
  else display_text.

(** The body of the loop, lines 411-429. *)
Definition on_chunk (st : reply_state) (tk : chunk_tick) : reply_state :=
  let buffer := reply_buffer st ++ tick_chunk tk in
  let current_time := tick_now tk in
  let st1 :=
    {| reply_buffer := buffer; last_edit := last_edit st;
       last_content := last_content st; edit_calls := edit_calls st;
       shown := shown st; pending_prompt := pending_prompt st;
       saved_reply := saved_reply st |} in
  if Qltb (1 # 2) (current_time - last_edit st) && (0 <? length buffer)%nat then
    let display_text := streamed_display_text buffer in
    if bool_decide (display_text <> last_content st) then
      let st2 := call_edit (EditText display_text) (tick_edit_raises tk) st1 in
      if tick_edit_raises tk then st2
      else
        {| reply_buffer := buffer; last_edit := current_time;
           last_content := display_text; edit_calls := edit_calls st2;
           shown := shown st2; pending_prompt := pending_prompt st2;
           saved_reply := saved_reply st2 |}
    else st1
  else st1.

(** What the calls after the loop do. *)
Record finish_env := {
  prompt_edit_raises : bool;
  fallback_edit_raises : bool;
  final_edit_raises : bool;
  save_raises : bool;
  error_edit_raises : bool
}.

(** Lines 497-502. *)
Definition on_exception (env : finish_env) (e : reply_error) (st : reply_state)
    : reply_state :=
  call_edit (EditErrorText e) (error_edit_raises env) st.

(** Lines 432-495, with lines 497-502 for what they raise.  The class
    computed at line 439 is only logged. *)
Definition finish `{UnicodeDB} (env : finish_env) (session_id : str)
    (st : reply_state) : reply_state :=
  let buffer := reply_buffer st in
  let display_text := final_display_text buffer in
  let parsed_prompt :=
    match buffer with
    | [] => None
    | _ => parse_prompt buffer
    end in
  let tried : option reply_error * reply_state :=
    match parsed_prompt with
    | Some p =>
        let reply_markup := prompt_keyboard session_id p in
        let clean_msg := format_prompt_message p in
        let st1 :=
          call_edit (EditPrompt clean_msg reply_markup) (prompt_edit_raises env) st in
        if prompt_edit_raises env then
          let st2 := call_edit (EditText display_text) (fallback_edit_raises env) st1 in
          (if fallback_edit_raises env then Some EditError else None, st2)
        else
          (None,
           {| reply_buffer := reply_buffer st1; last_edit := last_edit st1;
              last_content := last_content st1; edit_calls := edit_calls st1;
              shown := shown st1; pending_prompt := Some session_id;
              saved_reply := saved_reply st1 |})
    | None =>
        if bool_decide (display_text <> last_content st) then
          (None, call_edit (EditText display_text) (final_edit_raises env) st)
        else (None, st)
    end in
  match tried with
  | (Some e, st') => on_exception env e st'
  | (None, st') =>
      if save_raises env then on_exception env SaveError st'
      else
        {| reply_buffer := reply_buffer st'; last_edit := last_edit st';
           last_content := last_content st'; edit_calls := edit_calls st';
           shown := shown st'; pending_prompt := pending_prompt st';
           saved_reply := Some buffer |}
  end.

(** Lines 403-502: the chunks are consumed in order; the generator then ends,
    or raises [e]. *)
Definition reply `{UnicodeDB} (env : finish_env) (session_id : str)
    (ticks : list chunk_tick) (raised : option exn) : reply_state :=
  let st := fold_left on_chunk ticks reply_start in
  match raised with
  | Some e => on_exception env (GeneratorError e) st
  | None => finish env session_id st
  end.

(** No call made after the loop raises. *)
Definition quiet_finish : finish_env :=
  {| prompt_edit_raises := false; fallback_edit_raises := false;
     final_edit_raises := false; save_raises := false;
     error_edit_raises := false |}.

(** ** Notions used by the further statements *)

Section ReadLoopText.
Context `{UnicodeDB}.

(** What one read adds to the buffer (lines 133-140 and 170-175): the
    sanitized text, or nothing when the read fails, is empty, or its text is
    blank. *)
Definition accepted (data : option (list Byte.byte)) : str :=
  match data with
  | None | Some [] => []
  | Some bytes =>
      let clean_text := sanitize (utf8_decode_ignore bytes) in
      match strip clean_text with
      | [] => []
      | _ => clean_text
      end
  end.

(** The text the loop takes in over a run of ticks, up to and including the
    tick in which it sees the process exited. *)
Fixpoint consumed (ticks : list tick) : str :=
  match ticks with
  | [] => []
  | tk :: ticks' =>
      accepted (tick_data tk) ++
      match tick_exited tk with
      | Some remaining => accepted remaining
      | None => consumed ticks'
      end
  end.

End ReadLoopText.

(** The loop has seen the process exited during these ticks. *)
Definition saw_exit (ticks : list tick) : Prop :=
  Exists (fun tk => is_Some (tick_exited tk)) ticks.

(** [os.read(fd, n)] returns at most [n] bytes: the reads of the loop ask
    for 1024, the last read after the exit for 4096. *)
Definition read_sizes_respected (ticks : list tick) : Prop :=
  Forall (fun tk =>
    (forall bytes, tick_data tk = Some bytes -> (length bytes <= 1024)%nat) /\
    (forall bytes, tick_exited tk = Some (Some bytes) -> (length bytes <= 4096)%nat))
    ticks.

(** A decoder that yields at most one character per byte. *)
Definition decoder_bounded `{UnicodeDB} : Prop :=
  forall bytes, (length (utf8_decode_ignore bytes) <= length bytes)%nat.

(** What an iteration keeps: at most 4096 characters in the buffer, and
    units of at most [b] characters on the queue. *)
Definition within (b : nat) (st : loop_state) : Prop :=
  (length (buffer st) <= 4096)%nat /\
  Forall (fun unit => (length unit <= b)%nat) (output_queue st).

(** The signals the trace shows delivered, oldest first. *)
Fixpoint signals (t : list os_event) : list signal_kind :=
  match t with
  | [] => []
  | EvSignal s :: t' => s :: signals t'
  | _ :: t' => signals t'
  end.

(** A step that sends no signal, does not raise, and does not forget a
    return code. *)
Definition steady (m : M unit) : Prop :=
  forall p,
    fst (m p) = Ok tt /\
    signals (os_trace (snd (m p))) = signals (os_trace p) /\
    (exited p = true -> exited (snd (m p)) = true) /\
    (is_Some (process p) -> is_Some (process (snd (m p)))).

(** The signals [terminate] sends to a process with the handle [sp]. *)
Definition signals_sent (env : term_env) (sp : subprocess) : list signal_kind :=
  if signal_raises env then []
  else if bool_decide (is_Some (returncode sp)) then [SIGTERM]
  else match exit_in_time env with
       | Some _ => [SIGTERM]
       | None => if kill_raises env then [SIGTERM] else [SIGTERM; SIGKILL]
       end.

(** A record as [terminate_session] leaves it. *)
Definition mark_terminated (now : Z) (s : Session.t) : Session.t :=
  {| Session.id := Session.id s; Session.user_id := Session.user_id s;
     Session.workspace_path := Session.workspace_path s;
     Session.status := Session.TERMINATED; Session.pid := Session.pid s;
     Session.last_activity := now |}.

(** A record as a successful [restart_session] leaves it. *)
Definition mark_restarted (now pid : Z) (s : Session.t) : Session.t :=
  {| Session.id := Session.id s; Session.user_id := Session.user_id s;
     Session.workspace_path := Session.workspace_path s;
     Session.status := Session.ACTIVE; Session.pid := Some pid;
     Session.last_activity := now |}.

(** What a match records in its groups: [captures r prev u rest g g'] says
    that [r] matches [u] as [matches] says and that the groups, [g] before
    the match, are [g'] after it. *)
Fixpoint captures `{UnicodeDB} (r : regex) (prev : option cp) (u rest : str)
    (g g' : groups) : Prop :=
  match r with
  | RSeq a b =>
      exists u1 u2 g1, u = u1 ++ u2 /\ captures a prev u1 (u2 ++ rest) g g1 /\
                       captures b (last_seen prev u1) u2 rest g1 g'
  | RAlt a b => captures a prev u rest g g' \/ captures b prev u rest g g'
  | ROpt a => (u = [] /\ g' = g) \/ captures a prev u rest g g'
  | RGroup i a => exists g1, captures a prev u rest g g1 /\ g' = (i, u) :: g1
  | _ => matches r prev u rest /\ g' = g
  end.

Section OptionDefs.
Context `{UnicodeDB}.

(** What the parser promises of an option. *)
Definition well_formed_option (o : prompt_option) : Prop :=
  number o <> [] /\ Forall (fun c => uni_isdecimal c = true) (number o) /\
  callback_data o = lit "opt_" ++ number o /\
  (2 <= length (text o))%nat /\ strip (text o) = text o /\
  Forall (fun c => c <> NL) (text o).

End OptionDefs.

(** The question put in place of one that is too short. *)
Definition generic_question : str := lit "Please select an option:".

Section QuestionDefs.
Context `{UnicodeDB}.

(** What the parser asks of a line before it goes into the question. *)
Definition question_line (l : str) : Prop :=
  (3 < length l)%nat /\ re_match option_line_pattern l = None /\
  contains (lit "Enter to confirm") l = false /\
  contains (lit "Esc to exit") l = false.

(** A character of the class the parser removes from a line. *)
Definition is_box_drawing (c : cp) : bool :=
  match box_drawing with
  | RCls cs => in_class cs c
  | _ => false
  end.

(** A line as [collect_question_lines] keeps it: stripped, not empty, free
    of the characters of [box_drawing], and passing the tests of lines
    86-90. *)
Definition kept_line (l : str) : Prop :=
  l <> [] /\ strip l = l /\ Forall (fun c => c <> NL) l /\
  Forall (fun c => is_box_drawing c = false) l /\ question_line l.

End QuestionDefs.

(** An [edit_text] call with a plain text carries between 1 and 4017
    characters. *)
Definition plain_call_bounded (c : edit_call) : Prop :=
  match c with
  | EditText display_text =>
      (1 <= length display_text)%nat /\ (length display_text <= 4017)%nat
  | _ => True
  end.

(** What the loop keeps: [last_content] is the text the message shows, or is
    empty while no call went through. *)
Definition shows_last_content (st : reply_state) : Prop :=
  (shown st = None /\ last_content st = []) \/
  (last_content st <> [] /\ shown st = Some (EditText (last_content st))).

(** * Properties *)

(** ** The matcher against what the patterns mean *)

Lemma last_seen_nil prev : last_seen prev [] = prev.
Proof. reflexivity. Qed.

Lemma last_seen_cons prev c u : last_seen prev (c :: u) = last_seen (Some c) u.
Proof.
  unfold last_seen. destruct u as [|d u]; [done|].
  change (last (c :: d :: u)) with (last (d :: u)).
  destruct (last (d :: u)) eqn:E; [done|]. by apply last_None in E.
Qed.

Lemma last_seen_app prev u v :
  last_seen prev (u ++ v) = last_seen (last_seen prev u) v.
Proof.
  revert prev. induction u as [|c u IH]; intros prev; [done|].
  simpl. by rewrite !last_seen_cons, IH.
Qed.

Section Semantics.
Context `{UnicodeDB}.

Lemma star_greedy_sound {R} cs (k : cont R) s : forall prev n g x,
  star_greedy cs prev s n g k = Some x -> answered (RStar cs) k prev s n x.
Proof.
  induction s as [|c s IH]; intros prev n g x; simpl.
  - intros E. exists [], [], g. simpl. rewrite Nat.add_0_r. by repeat split.
  - assert (k prev (c :: s) n g = Some x -> answered (RStar cs) k prev (c :: s) n x) as Hk.
    { intros E. exists [], (c :: s), g. simpl. rewrite Nat.add_0_r. by repeat split. }
    destruct (in_class cs c) eqn:Hc; [|done].
    destruct (star_greedy cs (Some c) s (S n) g k) eqn:E; [|done].
    intros [= ->]. apply IH in E. destruct E as (u & rest & g' & -> & Hu & E).
    exists (c :: u), rest, g'. split; [done|]. split; [by constructor|].
    rewrite last_seen_cons. simpl. by rewrite <- Nat.add_succ_comm.
Qed.

Lemma star_lazy_sound {R} cs (k : cont R) s : forall prev n g x,
  star_lazy cs prev s n g k = Some x -> answered (RStar cs) k prev s n x.
Proof.
  induction s as [|c s IH]; intros prev n g x; simpl.
  - destruct (k prev [] n g) eqn:E; [|done]. intros [= ->].
    exists [], [], g. simpl. rewrite Nat.add_0_r. by repeat split.
  - destruct (k prev (c :: s) n g) eqn:E.
    + intros [= ->]. exists [], (c :: s), g. simpl. rewrite Nat.add_0_r. by repeat split.
    + destruct (in_class cs c) eqn:Hc; [|done]. intros E'.
      apply IH in E'. destruct E' as (u & rest & g' & -> & Hu & E').
      exists (c :: u), rest, g'. split; [done|]. split; [by constructor|].
      rewrite last_seen_cons. simpl. by rewrite <- Nat.add_succ_comm.
Qed.

Lemma plus_of_star {R} cs (k : cont R) c s n x prev :
  in_class cs c = true ->
  answered (RStar cs) k (Some c) s (S n) x ->
  answered (RPlus cs) k prev (c :: s) n x.
Proof.
  intros Hc (u & rest & g' & -> & Hu & E).
  exists (c :: u), rest, g'. split; [done|]. split; [split; [done|by constructor]|].
  rewrite last_seen_cons. simpl. by rewrite <- Nat.add_succ_comm.
Qed.

Theorem rmatch_sound {R} r : forall (k : cont R) prev s n g x,
  rmatch r prev s n g k = Some x -> answered r k prev s n x.
Proof.
  induction r as [cs|a IHa b IHb|a IHa b IHb|cs|cs|cs|a IHa|i a IHa| | | | |];
    intros k prev s n g x; simpl.
  - destruct s as [|c s]; [done|]. destruct (in_class cs c) eqn:Hc; [|done].
    intros E. exists [c], s, g. split; [done|]. split; [by exists c|].
    by rewrite Nat.add_1_r.
  - intros E. apply IHa in E. destruct E as (u1 & rest1 & g1 & -> & H1 & E).
    apply IHb in E. destruct E as (u2 & rest & g2 & -> & H2 & E).
    exists (u1 ++ u2), rest, g2. split; [by rewrite app_assoc|].
    split; [by exists u1, u2|].
    by rewrite last_seen_app, length_app, Nat.add_assoc.
  - destruct (rmatch a prev s n g k) eqn:E.
    + intros [= ->]. apply IHa in E. destruct E as (u & rest & g' & -> & Hu & E).
      exists u, rest, g'. repeat split; [by left|done].
    + intros E'. apply IHb in E'. destruct E' as (u & rest & g' & -> & Hu & E').
      exists u, rest, g'. repeat split; [by right|done].
  - apply star_greedy_sound.
  - destruct s as [|c s]; [done|]. destruct (in_class cs c) eqn:Hc; [|done].
    intros E. apply star_greedy_sound in E. by apply plus_of_star.
  - destruct s as [|c s]; [done|]. destruct (in_class cs c) eqn:Hc; [|done].
    intros E. apply star_lazy_sound in E. by apply (plus_of_star cs k c s n x prev Hc).
  - destruct (rmatch a prev s n g k) eqn:E.
    + intros [= ->]. apply IHa in E. destruct E as (u & rest & g' & -> & Hu & E).
      exists u, rest, g'. repeat split; [by right|done].
    + intros E'. exists [], s, g. simpl. rewrite Nat.add_0_r. repeat split; [by left|done].
  - intros E. apply IHa in E. destruct E as (u & rest & g' & -> & Hu & E).
    by exists u, rest, ((i, firstn (n + length u - n) (u ++ rest)) :: g').
  - destruct (at_bol prev) eqn:A; [|done]. intros E.
    exists [], s, g. simpl. rewrite Nat.add_0_r. by repeat split.
  - destruct (at_eol s) eqn:A; [|done]. intros E.
    exists [], s, g. simpl. rewrite Nat.add_0_r. by repeat split.
  - destruct prev; [done|]. intros E.
    exists [], s, g. simpl. rewrite Nat.add_0_r. by repeat split.
  - destruct (at_eos s) eqn:A; [|done]. intros E.
    exists [], s, g. simpl. rewrite Nat.add_0_r. by repeat split.
  - destruct (at_wordb prev s) eqn:A; [|done]. intros E.
    exists [], s, g. simpl. rewrite Nat.add_0_r. by repeat split.
Qed.

Lemma star_greedy_complete {R} cs (k : cont R) u : forall rest prev n g,
  Forall (fun c => in_class cs c = true) u ->
  accepts k (last_seen prev u) rest (n + length u)%nat ->
  is_Some (star_greedy cs prev (u ++ rest) n g k).
Proof.
  induction u as [|c u IH]; intros rest prev n g Hu Hk.
  - simpl in *. rewrite Nat.add_0_r in Hk. specialize (Hk g).
    destruct rest as [|c rest]; simpl; [done|].
    destruct (in_class cs c); [|done].
    by destruct (star_greedy cs (Some c) rest (S n) g k).
  - apply Forall_cons in Hu as [Hc Hu]. simpl. rewrite Hc.
    rewrite last_seen_cons in Hk. simpl in Hk.
    replace (n + S (length u))%nat with (S n + length u)%nat in Hk by lia.
    destruct (IH rest (Some c) (S n) g Hu Hk) as [x ->]. eauto.
Qed.

Lemma star_lazy_complete {R} cs (k : cont R) u : forall rest prev n g,
  Forall (fun c => in_class cs c = true) u ->
  accepts k (last_seen prev u) rest (n + length u)%nat ->
  is_Some (star_lazy cs prev (u ++ rest) n g k).
Proof.
  induction u as [|c u IH]; intros rest prev n g Hu Hk.
  - simpl in *. rewrite Nat.add_0_r, last_seen_nil in Hk. destruct (Hk g) as [x E].
    destruct rest as [|c rest]; simpl; by rewrite E.
  - apply Forall_cons in Hu as [Hc Hu]. simpl.
    destruct (k prev (c :: u ++ rest) n g); [done|]. rewrite Hc.
    rewrite last_seen_cons in Hk. simpl in Hk.
    replace (n + S (length u))%nat with (S n + length u)%nat in Hk by lia.
    by apply IH.
Qed.

Theorem rmatch_complete {R} r : forall (k : cont R) prev u rest n g,
  matches r prev u rest ->
  accepts k (last_seen prev u) rest (n + length u)%nat ->
  is_Some (rmatch r prev (u ++ rest) n g k).
Proof.
  induction r as [cs|a IHa b IHb|a IHa b IHb|cs|cs|cs|a IHa|i a IHa| | | | |];
    intros k prev u rest n g; simpl.
  - intros (c & -> & Hc) Hk. simpl. rewrite Hc. rewrite Nat.add_1_r in Hk. apply Hk.
  - intros (u1 & u2 & -> & Ha & Hb) Hk. rewrite <- app_assoc.
    apply IHa; [done|]. intros g1. apply IHb; [done|].
    by rewrite last_seen_app, length_app, Nat.add_assoc in Hk.
  - intros [Ha|Hb] Hk.
    + destruct (IHa k prev u rest n g Ha Hk) as [x ->]. eauto.
    + destruct (rmatch a prev (u ++ rest) n g k); [done|]. by apply IHb.
  - apply star_greedy_complete.
  - intros [Hne Hu] Hk. destruct u as [|c u]; [done|].
    apply Forall_cons in Hu as [Hc Hu]. simpl. rewrite Hc.
    rewrite last_seen_cons in Hk. simpl in Hk.
    replace (n + S (length u))%nat with (S n + length u)%nat in Hk by lia.
    by apply star_greedy_complete.
  - intros [Hne Hu] Hk. destruct u as [|c u]; [done|].
    apply Forall_cons in Hu as [Hc Hu]. simpl. rewrite Hc.
    rewrite last_seen_cons in Hk. simpl in Hk.
    replace (n + S (length u))%nat with (S n + length u)%nat in Hk by lia.
    by apply star_lazy_complete.
  - intros [->|Ha] Hk.
    + simpl in *. rewrite Nat.add_0_r in Hk.
      destruct (rmatch a prev rest n g k); [done|]. apply Hk.
    + destruct (IHa k prev u rest n g Ha Hk) as [x ->]. eauto.
  - intros Ha Hk. apply IHa; [done|]. intros g'. apply Hk.
  - intros [-> A] Hk. simpl in *. rewrite A. rewrite Nat.add_0_r in Hk. apply Hk.
  - intros [-> A] Hk. simpl in *. rewrite A. rewrite Nat.add_0_r in Hk. apply Hk.
  - intros [-> ->] Hk. simpl in *. rewrite Nat.add_0_r in Hk. apply Hk.
  - intros [-> A] Hk. simpl in *. rewrite A. rewrite Nat.add_0_r in Hk. apply Hk.
  - intros [-> A] Hk. simpl in *. rewrite A. rewrite Nat.add_0_r in Hk. apply Hk.
Qed.

(** A match attempt answers with a match of the pattern, and answers
    whenever the pattern matches some prefix. *)
Corollary exec_sound r prev s n g :
  exec r false prev s = Some (n, g) ->
  (n <= length s)%nat /\ matches r prev (take n s) (drop n s).
Proof.
  intros E. apply rmatch_sound in E. destruct E as (u & rest & g' & -> & Hu & E).
  simpl in E. injection E as <- _.
  rewrite length_app, take_app_length, drop_app_length. split; [lia|done].
Qed.

Corollary exec_complete r prev u rest :
  matches r prev u rest -> is_Some (exec r false prev (u ++ rest)).
Proof.
  intros Hu. apply rmatch_complete; [done|]. intros g. simpl. eauto.
Qed.

(** The same for a match attempt that refuses the empty match. *)
Lemma exec_sound_any r adv prev s n g :
  exec r adv prev s = Some (n, g) ->
  (n <= length s)%nat /\ matches r prev (take n s) (drop n s).
Proof.
  intros E. apply rmatch_sound in E. destruct E as (u & rest & g' & -> & Hu & E).
  simpl in E. destruct (adv && _); [done|]. injection E as <- _.
  rewrite length_app, take_app_length, drop_app_length. split; [lia|done].
Qed.

(** A match is no longer than the text. *)
Lemma exec_length r adv prev s n g :
  exec r adv prev s = Some (n, g) -> (n <= length s)%nat.
Proof. intros E. by apply exec_sound_any in E as [L _]. Qed.

Lemma never_empty_of_matches r :
  (forall prev u rest, matches r prev u rest -> u <> []) -> never_empty r.
Proof.
  intros Hm adv prev s n g E. apply exec_sound_any in E as [L M].
  apply Hm in M. intros ->. by rewrite take_0 in M.
Qed.

End Semantics.

(** ** The sanitizer *)

Section SanitizerProps.
Context `{UnicodeDB}.

Lemma ANSI_ESCAPE_never_empty : never_empty ANSI_ESCAPE.
Proof.
  apply never_empty_of_matches. intros prev u rest M.
  unfold ANSI_ESCAPE, esc_sequence, rchar in M. cbn [matches] in M.
  by destruct M as [(u1 & v1 & -> & (c & -> & _) & _)|(u1 & v1 & -> & (c & -> & _) & _)].
Qed.

Lemma sub_from_length r s : forall prev skip,
  (length (sub_from r prev s skip) <= length s)%nat.
Proof.
  induction s as [|c s IH]; intros prev skip; simpl; [done|].
  destruct skip as [|k]; [|specialize (IH (Some c) k); lia].
  destruct (exec r false prev (c :: s)) as [[[|k] g]|].
  - destruct (exec r true prev (c :: s)) as [[[|k] g']|]; simpl;
      specialize (IH (Some c)); try (specialize (IH 0%nat); lia).
    specialize (IH k); lia.
  - specialize (IH (Some c) k); lia.
  - simpl. specialize (IH (Some c) 0%nat); lia.
Qed.

(** Without a match the substitution changes nothing. *)
Lemma sub_from_no_match r s : forall prev,
  search_from r prev s = None -> sub_from r prev s 0 = s.
Proof.
  induction s as [|c s IH]; intros prev; simpl; [done|].
  destruct (exec r false prev (c :: s)); [done|].
  intros E. by rewrite IH.
Qed.

(** With a match, of a pattern that matches no empty text, the substitution
    shortens the text. *)
Lemma sub_from_match r s : never_empty r -> forall prev m,
  search_from r prev s = Some m ->
  (length (sub_from r prev s 0) < length s)%nat.
Proof.
  intros Hne. induction s as [|c s IH]; intros prev m; simpl.
  - destruct (exec r false prev []) as [[n g]|] eqn:E; [|done].
    intros _. pose proof (exec_length _ _ _ _ _ _ E). pose proof (Hne _ _ _ _ _ E).
    simpl in *. lia.
  - destruct (exec r false prev (c :: s)) as [[[|k] g]|] eqn:E.
    + by pose proof (Hne _ _ _ _ _ E).
    + intros _. pose proof (sub_from_length r s (Some c) k). lia.
    + intros E'. simpl. apply IH in E'. lia.
Qed.

(** C3 (amended): sanitizing twice equals sanitizing once exactly when the
    once-sanitized text holds no further match of [ANSI_ESCAPE]; removing a
    sequence can join its neighbours into a new one, so this is not so for
    every input. *)
Theorem sanitize_idempotent_iff x :
  sanitize (sanitize x) = sanitize x <-> re_search ANSI_ESCAPE (sanitize x) = false.
Proof.
  unfold sanitize at 1, re_search, re_sub_empty.
  destruct (search_from ANSI_ESCAPE None (sanitize x)) as [m|] eqn:E.
  - split; [|done]. intros E'.
    pose proof (sub_from_match _ _ ANSI_ESCAPE_never_empty _ _ E) as L.
    rewrite E' in L. lia.
  - split; [done|]. intros _. by apply sub_from_no_match.
Qed.

Lemma exec_ANSI_other adv prev c s :
  c <> ESC -> c <> LBRACKET -> exec ANSI_ESCAPE adv prev (c :: s) = None.
Proof.
  unfold ESC, LBRACKET. intros H1 H2. unfold exec. simpl.
  apply Z.eqb_neq in H1, H2. unfold ESC, LBRACKET. by rewrite H1, H2.
Qed.

Lemma search_ANSI_plain s : forall prev,
  Forall (fun c => c <> ESC /\ c <> LBRACKET) s ->
  search_from ANSI_ESCAPE prev s = None.
Proof.
  induction s as [|c s IH]; intros prev Hs; simpl.
  - reflexivity.
  - apply Forall_cons in Hs as [[H1 H2] Hs].
    rewrite exec_ANSI_other by done. by apply IH.
Qed.

(** Text without ESC and without '[' holds no match. *)
Lemma sanitize_plain s :
  Forall (fun c => c <> ESC /\ c <> LBRACKET) s -> sanitize s = s.
Proof.
  intros Hs. apply sub_from_no_match. by apply search_ANSI_plain.
Qed.

End SanitizerProps.

(** ESC, then ESC [ m, then A: the first pass removes the inner sequence and
    leaves ESC A, which the second pass removes. *)
Lemma sanitize_not_idempotent :
  let x := [ESC; ESC; LBRACKET; 109; 65]%Z in
  @sanitize basic_unicode x = [ESC; 65%Z] /\
  @sanitize basic_unicode (@sanitize basic_unicode x) = [] /\
  @sanitize basic_unicode (@sanitize basic_unicode x) <> @sanitize basic_unicode x.
Proof. vm_compute. repeat split. discriminate. Qed.

(** A coloured word: one pass removes both sequences, a second changes
    nothing. *)
Example sanitize_coloured :
  let x := [ESC] ++ lit "[31mred" ++ [ESC] ++ lit "[0m" in
  @sanitize basic_unicode x = lit "red" /\
  @sanitize basic_unicode (@sanitize basic_unicode x) = @sanitize basic_unicode x.
Proof. vm_compute. by split. Qed.

(** ** The read/debounce loop *)

Lemma Qltb_lt a b : Qltb a b = true <-> (a < b)%Q.
Proof.
  unfold Qltb. rewrite negb_true_iff. split.
  - intros E. apply Qnot_le_lt. intros L. apply Qle_bool_iff in L. congruence.
  - intros L. destruct (Qle_bool b a) eqn:E; [|done].
    apply Qle_bool_iff in E. exfalso. by apply (Qlt_not_le a b).
Qed.

Lemma flush_due_iff buf e : flush_due buf e = true <-> code_flush_due buf e.
Proof.
  unfold flush_due, code_flush_due. destruct buf as [|c buf].
  - split; [done|]. by intros [? _].
  - rewrite orb_true_iff, Qltb_lt, Nat.ltb_lt. split; [|tauto].
    intros ?. split; [done|tauto].
Qed.

Section ReadLoopProps.
Context `{UnicodeDB}.

(** C2 (amended): in an iteration in which the process has not exited, the
    buffer as it stands after the read attempt is flushed as one unit
    exactly when it is non-empty and either strictly more than 0.5 s have
    passed since the last successful read or it is longer than 4096
    characters; otherwise the iteration leaves it as the read left it. *)
Theorem debounce_flush_rule st tk :
  tick_exited tk = None ->
  let st1 := read_step st (tick_data tk) (tick_read_time tk) in
  let elapsed := (tick_current_time tk - last_output_time st1)%Q in
  (code_flush_due (buffer st1) elapsed -> fst (iteration st tk) = flushed st1) /\
  (~ code_flush_due (buffer st1) elapsed -> fst (iteration st tk) = st1).
Proof.
  intros Hx st1 elapsed. unfold iteration. rewrite Hx. simpl.
  fold st1. unfold flush_step. fold elapsed.
  destruct (flush_due (buffer st1) elapsed) eqn:E.
  - apply flush_due_iff in E. split; [done|]. by intros [].
  - split; [|done]. intros D. apply flush_due_iff in D. congruence.
Qed.

End ReadLoopProps.

Lemma nonblank_cons_space c s : is_space c = true -> nonblank (c :: s) <-> nonblank s.
Proof.
  intros E. unfold nonblank. rewrite Exists_cons. split; [|tauto].
  intros [?|?]; [congruence|done].
Qed.

Lemma lstrip_nonblank s : lstrip s <> [] <-> nonblank s.
Proof.
  induction s as [|c s IH]; simpl.
  - unfold nonblank. rewrite Exists_nil. tauto.
  - destruct (is_space c) eqn:E.
    + by rewrite nonblank_cons_space.
    + split; [|done]. intros _. by left.
Qed.

Lemma nonblank_lstrip s : nonblank (lstrip s) <-> nonblank s.
Proof.
  induction s as [|c s IH]; simpl; [done|].
  destruct (is_space c) eqn:E; [|done].
  by rewrite nonblank_cons_space.
Qed.

Lemma nonblank_rev s : nonblank (rev s) <-> nonblank s.
Proof.
  unfold nonblank. rewrite !Exists_exists.
  split; intros (c & I & E); exists c; (split; [|done]);
    rewrite list_elem_of_In in *; [by apply in_rev|by apply in_rev in I].
Qed.

Lemma strip_nonblank s : strip s <> [] <-> nonblank s.
Proof.
  unfold strip, rstrip.
  rewrite <- (nonblank_lstrip s), <- (nonblank_rev (lstrip s)), <- lstrip_nonblank.
  split; intros N E; apply N.
  - by rewrite E.
  - apply (f_equal (@rev cp)) in E. by rewrite rev_involutive in E.
Qed.

Lemma nonblank_app_r s t : nonblank t -> nonblank (s ++ t).
Proof. unfold nonblank. rewrite Exists_app. tauto. Qed.

Section ReadLoopInv.
Context `{UnicodeDB}.

Lemma read_step_inv st data now : loop_inv st -> loop_inv (read_step st data now).
Proof.
  intros [Hb Hq]. unfold read_step.
  destruct data as [[|b bs]|]; [done| |done].
  destruct (strip (sanitize (utf8_decode_ignore (b :: bs)))) eqn:E; [done|].
  split; [|done]. right. simpl. apply nonblank_app_r, strip_nonblank. by rewrite E.
Qed.

Lemma read_step_blank st bytes now :
  ~ nonblank (sanitize (utf8_decode_ignore bytes)) ->
  read_step st (Some bytes) now = st.
Proof.
  intros N. unfold read_step. destruct bytes as [|b bs]; [done|].
  destruct (strip (sanitize (utf8_decode_ignore (b :: bs)))) eqn:E; [done|].
  destruct N. apply strip_nonblank. by rewrite E.
Qed.

Lemma flush_step_inv st t : loop_inv st -> loop_inv (flush_step st t).
Proof.
  intros [Hb Hq]. unfold flush_step.
  destruct (flush_due (buffer st) _) eqn:E; [|done].
  split; [by left|]. simpl. apply Forall_app. split; [done|].
  apply Forall_singleton. destruct Hb as [Hb|Hb]; [|done].
  rewrite Hb in E. done.
Qed.

Lemma exit_step_inv st remaining : loop_inv st -> loop_inv (exit_step st remaining).
Proof.
  intros [Hb Hq]. unfold exit_step.
  assert (exit_buffer st remaining = [] \/ nonblank (exit_buffer st remaining)) as Hbuf.
  { unfold exit_buffer. destruct remaining as [[|b bs]|]; [done| |done].
    destruct (strip (sanitize (utf8_decode_ignore (b :: bs)))) eqn:E; [done|].
    right. apply nonblank_app_r, strip_nonblank. by rewrite E. }
  destruct (exit_buffer st remaining) as [|c buf'] eqn:Eb;
    (split; [by left|]); simpl; [done|].
  apply Forall_app. split; [done|]. apply Forall_singleton.
  by destruct Hbuf.
Qed.

Lemma run_loop_inv ticks st : loop_inv st -> loop_inv (run_loop st ticks).
Proof.
  revert st. induction ticks as [|tk ticks IH]; intros st Hst; simpl; [done|].
  unfold iteration.
  pose proof (flush_step_inv _ (tick_current_time tk)
                (read_step_inv st (tick_data tk) (tick_read_time tk) Hst)) as H2.
  destruct (tick_exited tk) as [remaining|].
  - by apply exit_step_inv.
  - by apply IH.
Qed.

(** C10: every unit the loop puts on the queue has a character that is not
    whitespace, and a read whose sanitized text is blank changes neither the
    buffer nor the time of the last successful read. *)
Theorem output_units_nonblank :
  (forall now ticks,
     Forall nonblank (output_queue (run_loop (loop_start now) ticks))) /\
  (forall st bytes now,
     ~ nonblank (sanitize (utf8_decode_ignore bytes)) ->
     read_step st (Some bytes) now = st).
Proof.
  split.
  - intros now ticks. apply run_loop_inv. split; [by left|constructor].
  - apply read_step_blank.
Qed.

End ReadLoopInv.

(** A 200-character buffer whose last read was exactly 0.5 s ago: the
    specification's condition holds, the loop does not flush. *)
Lemma flush_at_500ms_counterexample :
  let st := {| buffer := repeat 97%Z 200; last_output_time := 10 # 1;
               output_queue := [] |} in
  let tk := {| tick_data := Some []; tick_read_time := 21 # 2;
               tick_current_time := 21 # 2; tick_exited := None |} in
  let st1 := @read_step basic_unicode st (tick_data tk) (tick_read_time tk) in
  spec_flush_due (buffer st1) (tick_current_time tk - last_output_time st1) /\
  fst (@iteration basic_unicode st tk) = st /\
  fst (@iteration basic_unicode st tk) <> flushed st1.
Proof.
  simpl. split; [|split].
  - split; [discriminate|]. left. by vm_compute.
  - reflexivity.
  - discriminate.
Qed.

(** The same buffer 0.6 s after the last read is flushed. *)
Lemma debounce_flush_rule_witness :
  let st := {| buffer := repeat 97%Z 200; last_output_time := 10 # 1;
               output_queue := [] |} in
  let tk := {| tick_data := Some []; tick_read_time := 106 # 10;
               tick_current_time := 106 # 10; tick_exited := None |} in
  fst (@iteration basic_unicode st tk) = flushed st.
Proof.
  intros st tk.
  apply (proj1 (@debounce_flush_rule basic_unicode st tk eq_refl)).
  split; [discriminate|]. left. by vm_compute.
Defined.

(** The same buffer 0.1 s after the last read stays; a buffer of 4097
    characters is flushed at once; and the check that follows the one at
    exactly 0.5 s, 10 ms later, flushes. *)
Example debounce_scenarios :
  let st := {| buffer := repeat 97%Z 200; last_output_time := 10 # 1;
               output_queue := [] |} in
  let big := {| buffer := repeat 97%Z 4097; last_output_time := 10 # 1;
                output_queue := [] |} in
  let tk := {| tick_data := Some []; tick_read_time := 101 # 10;
               tick_current_time := 101 # 10; tick_exited := None |} in
  let next := {| tick_data := Some []; tick_read_time := 1051 # 100;
                 tick_current_time := 1051 # 100; tick_exited := None |} in
  fst (@iteration basic_unicode st tk) = st /\
  fst (@iteration basic_unicode big tk) = flushed big /\
  fst (@iteration basic_unicode st next) = flushed st.
Proof. by vm_compute. Qed.

(** A read of nothing but a colour reset is dropped. *)
Lemma output_units_nonblank_witness :
  let st := {| buffer := lit "abc"; last_output_time := 10 # 1;
               output_queue := [] |} in
  let bytes := [Byte.x1b; Byte.x5b; Byte.x30; Byte.x6d] in
  @read_step basic_unicode st (Some bytes) (11 # 1) = st.
Proof.
  intros st bytes.
  apply (proj2 (@output_units_nonblank basic_unicode) st bytes (11 # 1)).
  intros N. apply strip_nonblank in N. vm_compute in N. by apply N.
Defined.

(** ** Termination of a session process *)

Lemma closed_fds_app t u : closed_fds (t ++ u) = closed_fds t ++ closed_fds u.
Proof.
  induction t as [|[d|s|d x] t IH]; simpl; [done|..]; by rewrite IH.
Qed.

Lemma keeps_bind m k : keeps m -> keeps k -> keeps (m ;;; k).
Proof.
  intros Hm Hk p. unfold mbind.
  destruct (Hm p) as [Ha Hp]. destruct (m p) as [[[]|e] p']; simpl in *.
  - destruct (Hk p') as [Ha' Hp']. split; [congruence|auto].
  - done.
Qed.

Lemma keeps_try_except m sel h : keeps m -> keeps h -> keeps (try_except m sel h).
Proof.
  intros Hm Hh p. unfold try_except.
  destruct (Hm p) as [Ha Hp]. destruct (m p) as [[[]|e] p']; simpl in *; [done|].
  destruct (sel e); simpl; [|done].
  destruct (Hh p') as [Ha' Hp']. split; [congruence|auto].
Qed.

Lemma keeps_try_finally m f : keeps m -> keeps f -> keeps (try_finally m f).
Proof.
  intros Hm Hf p. unfold try_finally.
  destruct (Hm p) as [Ha Hp]. destruct (m p) as [r p']; simpl in *.
  destruct (Hf p') as [Ha' Hp']. destruct (f p') as [[[]|e] p'']; simpl in *;
    (split; [congruence|auto]).
Qed.

Lemma keeps_ret : keeps (ret tt).
Proof. by intros p. Qed.

Lemma keeps_raise e : keeps (raise e).
Proof. by intros p. Qed.

Lemma keeps_if (b : bool) m k : keeps m -> keeps k -> keeps (if b then m else k).
Proof. by destruct b. Qed.

Lemma keeps_signal s : keeps (modify (log_event (EvSignal s))).
Proof.
  intros p. unfold accounted, held_fds. simpl. rewrite closed_fds_app. simpl.
  by rewrite app_nil_r.
Qed.

Lemma keeps_reader_finally env : keeps (reader_finally env).
Proof.
  intros p. unfold reader_finally, guarded_close, try_except, mbind, modify, ret, raise.
  unfold accounted, held_fds.
  destruct (_master_fd p) as [d|] eqn:Hm.
  2:{ simpl. by rewrite ?Hm. }
  destruct (close_raises env); simpl; rewrite closed_fds_app; simpl;
    by rewrite <- app_assoc.
Qed.

Lemma keeps_set_task x : keeps (modify (set_reading_task x)).
Proof. by intros p. Qed.

Lemma keeps_reader_run env : keeps (reader_run_to_end env).
Proof.
  intros p. unfold reader_run_to_end.
  pose proof (keeps_bind _ _ (keeps_reader_finally env) (keeps_set_task (Some TaskDone)) p) as K.
  destruct (_reading_task p) as [[]|]; try done.
Qed.

Lemma keeps_cancel env : keeps (cancel_reading_task env).
Proof.
  intros p. unfold cancel_reading_task.
  pose proof (keeps_bind _ _ (keeps_reader_finally env) (keeps_set_task (Some TaskDone)) p) as K.
  destruct (_reading_task p) as [[]|]; try done.
Qed.

Lemma keeps_set_returncode c (m : M unit) : keeps m -> keeps (fun p => m (set_returncode c p)).
Proof.
  intros Hm p. destruct (Hm (set_returncode c p)) as [Ha Hp].
  assert (accounted (set_returncode c p) = accounted p) as E.
  { unfold set_returncode. by destruct (process p). }
  assert (is_Some (process p) -> is_Some (process (set_returncode c p))) as E'.
  { unfold set_returncode. destruct (process p) eqn:?; [simpl; eauto|]. by rewrite Heqo. }
  split; [congruence|auto].
Qed.

Lemma keeps_while_suspended env : keeps (while_suspended env).
Proof. apply keeps_if; [apply keeps_reader_run|apply keeps_ret]. Qed.

Lemma keeps_wait_for env : keeps (wait_for_exit env).
Proof.
  intros p. unfold wait_for_exit.
  destruct (exited p) eqn:E; [apply keeps_while_suspended|].
  destruct (exit_in_time env) as [c|]; [|done].
  exact (keeps_set_returncode c _ (keeps_while_suspended env) p).
Qed.

Lemma keeps_wait env : keeps (wait_exit env).
Proof.
  intros p. unfold wait_exit.
  destruct (exited p) eqn:E; [apply keeps_while_suspended|].
  exact (keeps_set_returncode (exit_after_kill env) _ (keeps_while_suspended env) p).
Qed.

Lemma keeps_body env : keeps (terminate_body env).
Proof.
  apply keeps_try_except; [|apply keeps_ret].
  apply keeps_bind.
  - unfold send_signal. apply keeps_if; [apply keeps_raise|apply keeps_signal].
  - apply keeps_try_except; [apply keeps_wait_for|].
    apply keeps_bind; [|apply keeps_wait].
    unfold kill. apply keeps_if; [apply keeps_raise|apply keeps_signal].
Qed.

Lemma catch_all_never_raises (m : M unit) :
  never_raises (try_except m any_exception (ret tt)).
Proof.
  intros p. unfold try_except. by destruct (m p) as [[[]|e] p'].
Qed.

Lemma body_never_raises env : never_raises (terminate_body env).
Proof. apply catch_all_never_raises. Qed.

Lemma guarded_close_eq env d p :
  guarded_close env d p = (Ok tt, log_event (EvClose d) p).
Proof.
  unfold guarded_close, try_except, mbind, modify, ret, raise.
  by destruct (close_raises env).
Qed.

Lemma reader_finally_ok env p : fst (reader_finally env p) = Ok tt.
Proof.
  unfold reader_finally, mbind. destruct (_master_fd p); [|done].
  by rewrite guarded_close_eq.
Qed.

Lemma cancel_ok env p : fst (cancel_reading_task env p) = Ok tt.
Proof.
  unfold cancel_reading_task, mbind.
  pose proof (reader_finally_ok env p) as K.
  destruct (_reading_task p) as [[]|]; try done.
  destruct (reader_finally env p) as [[[]|] ?]; simpl in *; done.
Qed.

Lemma cancel_fields env p :
  process (snd (cancel_reading_task env p)) = process p /\
  _slave_fd (snd (cancel_reading_task env p)) = _slave_fd p.
Proof.
  unfold cancel_reading_task, reader_finally, mbind.
  destruct (_reading_task p) as [[]|]; try done.
  destruct (_master_fd p); [|done].
  by rewrite guarded_close_eq.
Qed.

Lemma finally_spec env p :
  exists p', terminate_finally env p = (Ok tt, p') /\
    process p' = process p /\ _master_fd p' = None /\ _slave_fd p' = None /\
    closed_fds (os_trace p') = closed_fds (os_trace p) ++ held_fds p.
Proof.
  unfold terminate_finally, mbind.
  pose proof (cancel_ok env p) as K1.
  destruct (keeps_cancel env p) as [K2 _].
  destruct (cancel_fields env p) as [K3 K4].
  destruct (cancel_reading_task env p) as [[[]|] q]; simpl in *; [|done].
  unfold accounted in K2. rewrite <- K3, <- K2. clear K1 K2 K3 K4.
  destruct q as [sid pr tk [m|] [s|] tr]; unfold held_fds; simpl;
    rewrite ?guarded_close_eq; simpl; rewrite ?guarded_close_eq; simpl;
    eexists; (split; [reflexivity|]); simpl; repeat split;
    rewrite ?closed_fds_app; simpl; rewrite <- ?app_assoc, ?app_nil_r; done.
Qed.

Lemma terminate_spec env p :
  exists p', terminate env p = (Ok tt, p') /\
    (process p = None -> p' = p) /\
    (is_Some (process p) ->
       is_Some (process p') /\ _master_fd p' = None /\ _slave_fd p' = None /\
       closed_fds (os_trace p') = closed_fds (os_trace p) ++ held_fds p).
Proof.
  unfold terminate.
  destruct (process p) as [sp|] eqn:Hp.
  2:{ exists p. split; [done|]. split; [done|]. by intros []. }
  unfold try_finally.
  pose proof (body_never_raises env p) as B1.
  destruct (keeps_body env p) as [B2 B3].
  destruct (terminate_body env p) as [r q]; simpl in *. subst r.
  destruct (finally_spec env q) as (p' & F1 & F2 & F3 & F4 & F5).
  rewrite F1. exists p'. split; [done|]. split; [intros ?; congruence|].
  intros _. split; [rewrite F2; apply B3; rewrite Hp; eauto|].
  repeat split; try done.
  rewrite F5. exact B2.
Qed.

Lemma terminate_ok env p : exists p', terminate env p = (Ok tt, p').
Proof. destruct (terminate_spec env p) as (p' & E & _). eauto. Qed.

(** C5: calling [terminate] twice raises nothing; the second call closes no
    descriptor and leaves the descriptor fields as the first call left them;
    no descriptor is closed twice; and for an object whose subprocess was
    launched the first call leaves none held, each descriptor the object held
    being closed once.
    The hypothesis says the descriptors held are distinct and not yet
    closed, which [start] establishes ([start_accounted]). *)
Theorem terminate_idempotent env1 env2 p :
  NoDup (closed_fds (os_trace p) ++ held_fds p) ->
  exists p1 p2,
    terminate env1 p = (Ok tt, p1) /\
    terminate env2 p1 = (Ok tt, p2) /\
    closed_fds (os_trace p2) = closed_fds (os_trace p1) /\
    _master_fd p2 = _master_fd p1 /\ _slave_fd p2 = _slave_fd p1 /\
    NoDup (closed_fds (os_trace p2)) /\
    (is_Some (process p) ->
       held_fds p1 = [] /\
       closed_fds (os_trace p1) = closed_fds (os_trace p) ++ held_fds p).
Proof.
  intros Hwf.
  destruct (terminate_spec env1 p) as (p1 & E1 & N1 & S1).
  destruct (terminate_spec env2 p1) as (p2 & E2 & N2 & S2).
  exists p1, p2. split; [done|]. split; [done|].
  destruct (process p) as [sp|] eqn:Hp.
  - destruct S1 as (P1 & M1 & V1 & C1); [eauto|].
    destruct S2 as (P2 & M2 & V2 & C2); [done|].
    assert (held_fds p1 = []) as Hh by (unfold held_fds; by rewrite M1, V1).
    rewrite Hh, app_nil_r in C2.
    repeat split; congruence.
  - rewrite (N1 eq_refl) in *. rewrite (N2 Hp).
    repeat split; try done; try (by intros [? ?]).
    by apply NoDup_app in Hwf as [? _].
Qed.

(** [terminate] keeps the account of the descriptors: what the theorem asks
    of the object holds again afterwards. *)
Lemma terminate_accounted env p :
  NoDup (accounted p) -> NoDup (accounted (snd (terminate env p))).
Proof.
  intros Hwf. destruct (terminate_spec env p) as (p' & E & N & S).
  rewrite E. simpl. destruct (process p) as [sp|] eqn:Hp.
  - destruct S as (_ & M1 & V1 & C1); [eauto|].
    unfold accounted, held_fds in *. rewrite M1, V1, C1. simpl.
    by rewrite app_nil_r.
  - by rewrite (N eq_refl).
Qed.

(** [start] on a fresh object leaves every descriptor accounted for once,
    whether or not the launch succeeds. *)
Lemma start_accounted env sid :
  pty_master env <> pty_slave env ->
  NoDup (accounted (snd (start env (new_process sid)))).
Proof.
  intros Hne. unfold start, mbind, modify, raise, ret, accounted, held_fds. simpl.
  destruct (launched env); simpl; apply NoDup_cons;
    (split; [rewrite list_elem_of_singleton; congruence|apply NoDup_singleton]).
Qed.

Lemma terminate_idempotent_witness :
  let p := snd (start {| pty_master := 7%Z; pty_slave := 8%Z; launched := Some 4242%Z |}
                  (new_process "s1")) in
  let env := {| signal_raises := false; exit_in_time := None; kill_raises := false;
                exit_after_kill := (-9)%Z; reader_finishes := true;
                close_raises := false |} in
  exists p1 p2,
    terminate env p = (Ok tt, p1) /\
    terminate env p1 = (Ok tt, p2) /\
    closed_fds (os_trace p2) = closed_fds (os_trace p1) /\
    _master_fd p2 = _master_fd p1 /\ _slave_fd p2 = _slave_fd p1 /\
    NoDup (closed_fds (os_trace p2)) /\
    (is_Some (process p) ->
       held_fds p1 = [] /\
       closed_fds (os_trace p1) = closed_fds (os_trace p) ++ held_fds p).
Proof.
  intros p env. apply (terminate_idempotent env env p).
  vm_compute. apply NoDup_cons.
  split; [rewrite list_elem_of_singleton; discriminate|apply NoDup_singleton].
Defined.

(** A process object whose launch failed holds both ends of the
    pseudo-terminal, distinct and not yet closed; two calls of [terminate]
    raise nothing and close neither end, so no descriptor is released. *)
Lemma terminate_unlaunched_counterexample :
  let senv := {| pty_master := 7%Z; pty_slave := 8%Z; launched := None |} in
  let env := {| signal_raises := false; exit_in_time := Some 0%Z; kill_raises := false;
                exit_after_kill := (-9)%Z; reader_finishes := true;
                close_raises := false |} in
  let p := snd (start senv (new_process "s1")) in
  held_fds p = [7%Z; 8%Z] /\ closed_fds (os_trace p) = [] /\
  exists p1 p2,
    terminate env p = (Ok tt, p1) /\
    terminate env p1 = (Ok tt, p2) /\
    closed_fds (os_trace p2) = [] /\
    held_fds p2 = [7%Z; 8%Z].
Proof.
  vm_compute. split; [done|]. split; [done|].
  eexists _, _. split; [reflexivity|]. split; [reflexivity|]. by split.
Qed.

(** ** The session registry *)

Lemma py_del_insert `{Countable K} {V} (k : K) (v : V) (m : gmap K V) :
  py_del k (<[k := v]> m) = Ok (delete k m).
Proof.
  unfold py_del. rewrite lookup_insert_eq. by rewrite delete_insert_eq.
Qed.

(** The loop that clears the active selections never deletes a missing key:
    the items it walks have distinct keys, all present. *)
Lemma clear_active_spec items sid (cur : gmap Z string) :
  NoDup items.*1 ->
  (forall k v, (k, v) ∈ items -> cur !! k = Some v) ->
  exists cur',
    clear_active items sid cur = Ok cur' /\
    forall k, cur' !! k =
      match cur !! k with
      | Some v => if decide (v = sid /\ k ∈ items.*1) then None else Some v
      | None => None
      end.
Proof.
  revert cur. induction items as [|[u a] items IH]; intros cur Hnd Hin.
  - exists cur. split; [done|]. intros k. destruct (cur !! k); [|done].
    rewrite decide_False; [done|]. intros [_ X]. by apply elem_of_nil in X.
  - simpl in Hnd. apply NoDup_cons in Hnd as [Hu Hnd].
    assert (cur !! u = Some a) as Hua by (apply Hin; left).
    simpl. destruct (decide (a = sid)) as [->|Hne].
    + unfold py_del. rewrite Hua. simpl.
      destruct (IH (delete u cur) Hnd) as (cur' & E & L).
      { intros k v Hkv. rewrite lookup_delete_ne; [apply Hin; by right|].
        intros ->. apply Hu. apply list_elem_of_fmap. by exists (k, v). }
      exists cur'. split; [done|]. intros k. rewrite L.
      destruct (decide (k = u)) as [->|Hk].
      * rewrite lookup_delete_eq, Hua. rewrite decide_True; [done|].
        split; [done|]. simpl. left.
      * rewrite lookup_delete_ne by done. destruct (cur !! k) as [v|]; [|done].
        simpl. destruct (decide (v = sid ∧ k ∈ items.*1)) as [[? ?]|N].
        -- rewrite decide_True; [done|]. split; [done|]. by right.
        -- rewrite decide_False; [done|]. intros [? X].
           apply elem_of_cons in X as [?|?]; [done|]. by apply N.
    + destruct (IH cur Hnd) as (cur' & E & L).
      { intros k v Hkv. apply Hin. by right. }
      exists cur'. split; [done|]. intros k. rewrite L.
      destruct (cur !! k) as [v|] eqn:Hk; [|done].
      destruct (decide (v = sid ∧ k ∈ items.*1)) as [[? ?]|N].
      * rewrite decide_True; [done|]. split; [done|]. by right.
      * rewrite decide_False; [done|]. intros [? X].
        apply elem_of_cons in X as [->|?]; [|by apply N].
        simpl in *. congruence.
Qed.

Lemma clear_active_filter sid (active : gmap Z string) :
  clear_active (map_to_list active) sid active
  = Ok (filter (fun kv => kv.2 <> sid) active).
Proof.
  destruct (clear_active_spec (map_to_list active) sid active) as (cur' & E & L).
  - apply NoDup_fst_map_to_list.
  - intros k v. apply elem_of_map_to_list.
  - rewrite E. f_equal. apply map_eq. intros k. rewrite L.
    destruct (active !! k) as [v|] eqn:Hk.
    + destruct (decide (v = sid ∧ k ∈ (map_to_list active).*1)) as [[-> ?]|N].
      * symmetry. apply map_lookup_filter_None. right. intros v' Hv'. simpl.
        intros X. apply X. congruence.
      * symmetry. apply map_lookup_filter_Some. split; [done|]. simpl.
        intros ->. apply N. split; [done|].
        apply list_elem_of_fmap. exists (k, sid). split; [done|].
        by apply elem_of_map_to_list.
    + symmetry. apply map_lookup_filter_None. by left.
Qed.

(** What [terminate_session] does, as an equation. *)
Lemma terminate_session_effect env now sid m :
  terminate_session env now sid m =
  Ok (true,
      {| db := fst (update_session (db m) sid (Some Session.TERMINATED) None (Some now));
         sessions := delete sid (sessions m);
         active_sessions := filter (fun kv => kv.2 <> sid) (active_sessions m) |}).
Proof.
  unfold terminate_session.
  assert (match sessions m !! sid with
          | Some process =>
              match terminate env process with
              | (Ok _, process') => py_del sid (<[sid := process']> (sessions m))
              | (Raise e, _) => Raise e
              end
          | None => Ok (sessions m)
          end = Ok (delete sid (sessions m))) as ->.
  { destruct (sessions m !! sid) as [p|] eqn:Hp.
    - destruct (terminate_ok env p) as (p' & ->). by rewrite py_del_insert.
    - by rewrite delete_id. }
  destruct (update_session (db m) sid (Some Session.TERMINATED) None (Some now))
    as [db' b].
  simpl. by rewrite clear_active_filter.
Qed.

(** C9: [terminate_session] returns [True] for every identifier, known or
    not, and never raises: the live process, if any, is terminated and
    removed, the status update is attempted (it changes nothing without a
    record), and the identifier is cleared from every active selection. *)
Theorem terminate_session_returns_true env now sid m :
  exists m',
    terminate_session env now sid m = Ok (true, m') /\
    sessions m' = delete sid (sessions m) /\
    active_sessions m' = filter (fun kv => kv.2 <> sid) (active_sessions m) /\
    db m' = fst (update_session (db m) sid (Some Session.TERMINATED) None (Some now)).
Proof.
  unfold terminate_session.
  destruct (update_session (db m) sid (Some Session.TERMINATED) None (Some now))
    as [db' b] eqn:Hu.
  assert (exists live,
    match sessions m !! sid with
    | Some process =>
        match terminate env process with
        | (Ok _, process') => py_del sid (<[sid := process']> (sessions m))
        | (Raise e, _) => Raise e
        end
    | None => Ok (sessions m)
    end = Ok live /\ live = delete sid (sessions m)) as (live & -> & ->).
  { destruct (sessions m !! sid) as [p|] eqn:Hp.
    - destruct (terminate_ok env p) as (p' & ->).
      rewrite py_del_insert. eauto.
    - eexists. split; [done|]. symmetry. by apply delete_id. }
  simpl. rewrite clear_active_filter. simpl.
  eexists. split; [reflexivity|]. by simpl.
Qed.

(** For an identifier without a record and without a live process the
    registry is left as it was, up to the selections that named it. *)
Lemma terminate_session_unknown env now sid m :
  db m !! sid = None -> sessions m !! sid = None ->
  exists m',
    terminate_session env now sid m = Ok (true, m') /\
    db m' = db m /\ sessions m' = sessions m.
Proof.
  intros Hd Hs. rewrite terminate_session_effect.
  eexists. split; [reflexivity|]. cbn [db sessions]. split.
  - unfold update_session. by rewrite Hd.
  - by apply delete_id.
Qed.

(** C4: [send_message] for an identifier that is absent from the live map,
    or whose process is not alive, raises at once: nothing is yielded,
    nothing is written to the terminal, the registry is unchanged, and the
    failure is one of the two not-running failures, carrying the exit code
    the registry knows. *)
Theorem send_message_not_running env now sid message m :
  (sessions m !! sid = None \/
   exists p, sessions m !! sid = Some p /\ is_alive p = false) ->
  exists e,
    send_message env now sid message m = ([], Raise e, m) /\
    not_running e = true /\
    surfaced_exit_code e = last_known_exit_code m sid.
Proof.
  unfold send_message, last_known_exit_code.
  intros [Hs|(p & Hs & Ha)]; rewrite Hs; simpl.
  - by eexists.
  - rewrite Ha. simpl. by eexists.
Qed.

Lemma send_message_not_running_witness :
  let crashed :=
    {| session_id := "s1";
       process := Some {| pid := 4242%Z; returncode := Some 1%Z |};
       _reading_task := Some TaskDone; _master_fd := None; _slave_fd := None;
       os_trace := [EvClose 8%Z; EvClose 7%Z] |} in
  let m := {| db := ∅; sessions := {["s1" := crashed]}; active_sessions := ∅ |} in
  let env := {| write_raises := false; delivered := [lit "hello"] |} in
  exists e,
    send_message env 0%Z "s1" (lit "hi") m = ([], Raise e, m) /\
    not_running e = true /\
    surfaced_exit_code e = last_known_exit_code m "s1".
Proof.
  intros crashed m env.
  apply (send_message_not_running env 0%Z "s1" (lit "hi") m).
  right. exists crashed. split; [vm_compute; reflexivity|reflexivity].
Defined.

(** ** The classifier and the prompt parser *)

Section ClassifierProps.
Context `{UnicodeDB}.

(** C7 (amended): when the text is not empty after stripping and neither the
    numbered-option rule nor the confirmation rule fires, the class is ERROR
    exactly when the lower-cased text contains one of [error_indicators]:
    the nine keywords, the two symbol markers, and the word "warning". *)
Theorem error_rule t :
  let clean_text := strip (re_sub_empty esc_sequence t) in
  clean_text <> [] ->
  _has_numbered_options clean_text = false ->
  _is_confirmation clean_text = false ->
  classify_response t = ERROR <->
  exists indicator,
    indicator ∈ error_indicators /\
    contains indicator (str_lower clean_text) = true.
Proof.
  intros clean_text Hne Hp Hc. unfold classify_response. fold clean_text.
  destruct clean_text as [|c rest] eqn:E; [done|].
  rewrite Hp, Hc.
  assert (_is_error (c :: rest) = true <->
          exists indicator, indicator ∈ error_indicators /\
            contains indicator (str_lower (c :: rest)) = true) as X.
  { unfold _is_error. rewrite existsb_exists.
    split; intros (i & I & C); exists i; (split; [|done]); by apply list_elem_of_In. }
  rewrite <- X. destruct (_is_error (c :: rest)); [done|].
  split; [|done]. destruct (_is_working _); [done|]. by destruct (_is_complete _).
Qed.

Lemma collect_options_filter ms :
  collect_options ms = map option_of_match (List.filter long_enough ms).
Proof.
  induction ms as [|[t g] ms IH]; simpl; [done|].
  unfold long_enough at 1. simpl.
  destruct (length (strip (group 2 g)) <? 2)%nat; simpl; by rewrite IH.
Qed.

(** C6 (amended): duplicate labels are not rejected.  The parser returns
    nothing exactly when no indicator phrase is present or no matched option
    has a text of two characters or more; otherwise its options are all such
    matches, in order, whatever their labels. *)
Theorem parse_prompt_keeps_duplicates t :
  let clean_text := re_sub_empty esc_sequence t in
  let found := map option_of_match
                 (List.filter long_enough (finditer parser_option_pattern clean_text)) in
  (parse_prompt t = None <-> has_indicator clean_text = false \/ found = []) /\
  (forall p, parse_prompt t = Some p -> options p = found /\ raw_text p = t).
Proof.
  intros clean_text found. unfold parse_prompt. fold clean_text.
  rewrite collect_options_filter. fold found.
  destruct (has_indicator clean_text); simpl.
  - destruct found as [|o os]; simpl.
    + split; [tauto|done].
    + split; [|by intros p [= <-]].
      split; [done|]. by intros [|].
  - split; [tauto|done].
Qed.

End ClassifierProps.

(** "warning: low disk space": no higher rule fires, none of the
    specification's indicators occurs, and the class is ERROR. *)
Lemma warning_counterexample :
  let t := lit "warning: low disk space" in
  let clean_text := strip (@re_sub_empty basic_unicode esc_sequence t) in
  @_has_numbered_options basic_unicode clean_text = false /\
  @_is_confirmation basic_unicode clean_text = false /\
  @classify_response basic_unicode t = ERROR /\
  existsb (fun indicator => contains indicator (@str_lower basic_unicode clean_text))
          spec_error_indicators = false.
Proof. by vm_compute. Qed.

Lemma error_rule_witness :
  let t := lit "Error: file not found" in
  @classify_response basic_unicode t = ERROR <->
  exists indicator,
    indicator ∈ error_indicators /\
    contains indicator
      (@str_lower basic_unicode (strip (@re_sub_empty basic_unicode esc_sequence t))) = true.
Proof.
  apply (@error_rule basic_unicode (lit "Error: file not found")).
  - by vm_compute.
  - by vm_compute.
  - by vm_compute.
Defined.

(** Two options labelled 1: the parser returns both. *)
Lemma duplicate_labels_counterexample :
  let t := lit "Select an option" ++ [NL] ++ lit "1. Yes" ++ [NL] ++ lit "1. No" in
  @has_indicator basic_unicode (@re_sub_empty basic_unicode esc_sequence t) = true /\
  exists p,
    @parse_prompt basic_unicode t = Some p /\
    map number (options p) = [lit "1"; lit "1"] /\
    map text (options p) = [lit "Yes"; lit "No"].
Proof.
  split; [by vm_compute|]. eexists. split; [vm_compute; reflexivity|]. by vm_compute.
Qed.

(** Two numbered lines without an indicator phrase: PROMPT, and no parsed
    prompt. *)
Lemma prompt_without_indicator_counterexample :
  let t := lit "1. foo" ++ [NL] ++ lit "2. bar" in
  @classify_response basic_unicode t = PROMPT /\
  @parse_prompt basic_unicode t = None.
Proof. by vm_compute. Qed.

(** With an indicator phrase, a one-character option text is dropped and the
    prompt is left with one option. *)
Lemma prompt_short_options_counterexample :
  let t := lit "Choose:" ++ [NL] ++ lit "1. a" ++ [NL] ++ lit "2. bb" in
  @classify_response basic_unicode t = PROMPT /\
  exists p, @parse_prompt basic_unicode t = Some p /\ length (options p) = 1%nat.
Proof.
  split; [by vm_compute|]. eexists. split; [vm_compute; reflexivity|]. by vm_compute.
Qed.

(** C8: [test_trust_prompt] is classified PROMPT, and the parser returns the
    options 1 "Yes, proceed" and 2 "No, exit" in that order, with a question
    that is not the generic one and contains "trust". *)
Theorem trust_prompt_scenario :
  @classify_response basic_unicode test_trust_prompt = PROMPT /\
  exists p, @parse_prompt basic_unicode test_trust_prompt = Some p /\
    map (fun o => (number o, text o)) (options p)
      = [(lit "1", lit "Yes, proceed"); (lit "2", lit "No, exit")] /\
    question p <> lit "Please select an option:" /\
    contains (lit "trust") (question p) = true.
Proof.
  split; [vm_compute; reflexivity|].
  eexists; split; [vm_compute; reflexivity|].
  split; [vm_compute; reflexivity|].
  split; [vm_compute; discriminate|vm_compute; reflexivity].
Qed.


(** ** Scanning for matches *)

Section Scan.
Context `{UnicodeDB}.

Lemma drop_S_lookup (T : str) p c :
  T !! p = Some c -> drop p T = c :: drop (S p) T.
Proof. intros E. by apply drop_S. Qed.

Lemma exec_at_length r (T : str) p n g :
  exec_at r T p = Some (n, g) -> (n <= length T - p)%nat.
Proof.
  intros E. apply exec_length in E. by rewrite length_drop in E.
Qed.

Lemma finditer_skip r (T : str) k : forall p prev,
  (p + k <= length T)%nat -> (0 < k)%nat ->
  finditer_from r prev (drop p T) k = scan_from r T (p + k).
Proof.
  induction k as [|k IH]; intros p prev Hle Hk; [lia|].
  destruct (T !! p) as [c|] eqn:E.
  2:{ apply lookup_ge_None in E. lia. }
  rewrite (drop_S_lookup _ _ _ E). simpl.
  destruct k as [|k].
  - unfold scan_from. rewrite Nat.add_1_r. simpl. by rewrite E.
  - rewrite (IH (S p) (Some c)) by lia. f_equal. lia.
Qed.

Lemma scan_from_step r (T : str) p :
  exec_at r T p = None -> (p < length T)%nat ->
  scan_from r T p = scan_from r T (S p).
Proof.
  intros E Hp. unfold scan_from, exec_at in *.
  destruct (T !! p) as [c|] eqn:Ec.
  2:{ apply lookup_ge_None in Ec. lia. }
  rewrite (drop_S_lookup _ _ _ Ec) in *. simpl. rewrite E. simpl. by rewrite Ec.
Qed.

Lemma scan_from_match r (T : str) p n g :
  exec_at r T p = Some (S n, g) ->
  scan_from r T p = (take (S n) (drop p T), g) :: scan_from r T (p + S n).
Proof.
  intros E. pose proof (exec_at_length _ _ _ _ _ E) as L.
  unfold scan_from, exec_at in *.
  destruct (T !! p) as [c|] eqn:Ec.
  2:{ apply lookup_ge_None in Ec. lia. }
  rewrite (drop_S_lookup _ _ _ Ec) in *. simpl. rewrite E. f_equal.
  destruct n as [|n].
  - rewrite Nat.add_1_r. simpl. by rewrite Ec.
  - pose proof (finditer_skip r T (S n) (S p) (Some c)) as K.
    rewrite K by lia. unfold scan_from. f_equal; f_equal; lia.
Qed.

(** A match somewhere at or after [p] makes the scan find one: the first
    match it reports starts no later, and the scan goes on after it. *)
Lemma scan_first r (T : str) q : never_empty r -> forall p,
  (p <= q)%nat -> is_Some (exec_at r T q) ->
  exists p' n g,
    (p <= p' <= q)%nat /\ exec_at r T p' = Some (S n, g) /\
    scan_from r T p = (take (S n) (drop p' T), g) :: scan_from r T (p' + S n).
Proof.
  intros Hne p Hpq Hq. remember (q - p)%nat as m eqn:Hm.
  revert p Hpq Hm. induction m as [|m IH]; intros p Hpq Hm.
  - assert (p = q) as -> by lia. destruct Hq as [[n g] E].
    destruct n as [|n]; [by apply Hne in E|].
    exists q, n, g. split; [lia|]. split; [done|]. by apply scan_from_match.
  - destruct (exec_at r T p) as [[n g]|] eqn:E.
    + destruct n as [|n]; [by apply Hne in E|].
      exists p, n, g. split; [lia|]. split; [done|]. by apply scan_from_match.
    + destruct (IH (S p)) as (p' & n & g & Hp' & E' & F); [lia|lia|].
      exists p', n, g. split; [lia|]. split; [done|].
      rewrite scan_from_step; [done|done|].
      destruct Hq as [[n' g'] Eq]. pose proof (exec_at_length _ _ _ _ _ Eq) as L.
      destruct (decide (p < length T)%nat); [done|].
      assert (drop q T = drop p T) as X.
      { rewrite !drop_ge; [done|lia|lia]. }
      exfalso. unfold exec_at in *.
      assert (n' = 0%nat) as -> by lia. by apply Hne in Eq.
Qed.

(** A scan that reports a match has one at or after its starting point. *)
Lemma scan_nonempty_inv r (T : str) : forall m p,
  (length T - p = m)%nat -> (p <= length T)%nat ->
  scan_from r T p <> [] ->
  exists q, (p <= q <= length T)%nat /\ is_Some (exec_at r T q).
Proof.
  induction m as [|m IH]; intros p Hm Hp Hs.
  - assert (p = length T) as -> by lia.
    exists (length T). split; [lia|].
    unfold scan_from, exec_at in *. rewrite drop_all in *. simpl in Hs.
    destruct (exec r false (prev_at T (length T)) []) as [[n g]|]; [eauto|done].
  - destruct (exec_at r T p) as [[n g]|] eqn:E.
    + exists p. split; [lia|]. rewrite E. eauto.
    + rewrite scan_from_step in Hs by (done || lia).
      destruct (IH (S p)) as (q & Hq & Eq); [lia|lia|done|].
      exists q. split; [lia|done].
Qed.

(** Two reported matches: one somewhere, and another after its end. *)
Lemma scan_two r (T : str) :
  never_empty r -> (2 <= length (scan_from r T 0))%nat ->
  exists p1 n1 g1 p2,
    exec_at r T p1 = Some (S n1, g1) /\ (p1 + S n1 <= p2 <= length T)%nat /\
    is_Some (exec_at r T p2).
Proof.
  intros Hne Hl.
  destruct (scan_nonempty_inv r T (length T) 0) as (q & Hq & Eq); [lia|lia| |].
  { intros E. rewrite E in Hl. simpl in Hl. lia. }
  destruct (scan_first r T q Hne 0) as (p1 & n1 & g1 & Hp1 & E1 & F); [lia|done|].
  rewrite F in Hl. simpl in Hl.
  pose proof (exec_at_length _ _ _ _ _ E1) as L.
  destruct (scan_nonempty_inv r T (length T - (p1 + S n1)) (p1 + S n1))
    as (p2 & Hp2 & E2); [lia|lia| |].
  { intros E. rewrite E in Hl. simpl in Hl. lia. }
  by exists p1, n1, g1, p2.
Qed.

(** A first match that ends by [q], and a match at or after [q]: the scan
    reports two. *)
Lemma scan_two_intro r (T : str) p1 q :
  never_empty r ->
  is_Some (exec_at r T p1) ->
  (forall p n g, (p <= p1)%nat -> exec_at r T p = Some (n, g) ->
     exists q', (p + n <= q' <= q)%nat /\ is_Some (exec_at r T q')) ->
  (2 <= length (scan_from r T 0))%nat.
Proof.
  intros Hne E1 Hnext.
  destruct (scan_first r T p1 Hne 0) as (p & n & g & Hp & E & F); [lia|done|].
  destruct (Hnext p (S n) g) as (q' & Hq' & E'); [lia|done|].
  destruct (scan_first r T q' Hne (p + S n)) as (p' & n' & g' & _ & _ & F');
    [lia|done|].
  rewrite F, F'. simpl. lia.
Qed.

End Scan.

(** ** Segments of a text *)

Lemma seg_weaken (T : str) i j i' j' P :
  seg T i j P -> (i <= i')%nat -> (j' <= j)%nat -> seg T i' j' P.
Proof. intros Hs ? ? k Hk. apply Hs. lia. Qed.

Lemma seg_join (T : str) i j k P : seg T i j P -> seg T j k P -> seg T i k P.
Proof.
  intros H1 H2 m Hm. destruct (decide (m < j)%nat); [apply H1|apply H2]; lia.
Qed.

(** A prefix of the text from [p] on whose characters satisfy [P] is a
    segment, and the other way round. *)
Lemma seg_of_prefix (T : str) p u rest P :
  drop p T = u ++ rest -> Forall (fun c => P c = true) u ->
  seg T p (p + length u) P /\ drop (p + length u) T = rest.
Proof.
  intros E Hu. split.
  - intros k Hk. assert (T !! k = u !! (k - p)%nat) as ->.
    { transitivity (drop p T !! (k - p)%nat).
      - rewrite lookup_drop. f_equal. lia.
      - rewrite E. apply lookup_app_l. lia. }
    destruct (u !! (k - p)%nat) as [c|] eqn:Ec.
    + exists c. split; [done|]. rewrite Forall_lookup in Hu. by eapply Hu.
    + apply lookup_ge_None in Ec. lia.
  - rewrite <- drop_drop, E. by rewrite drop_app_length.
Qed.

Lemma prefix_of_seg (T : str) i j P :
  seg T i j P -> (i <= j)%nat ->
  exists u, drop i T = u ++ drop j T /\ length u = (j - i)%nat /\
            Forall (fun c => P c = true) u.
Proof.
  intros Hs Hij. exists (take (j - i) (drop i T)).
  split; [|split].
  - rewrite <- (take_drop (j - i) (drop i T)) at 1. f_equal.
    rewrite drop_drop. f_equal. lia.
  - rewrite length_take, length_drop.
    destruct (decide (i = j)) as [->|Hne]; [lia|].
    destruct (Hs (j - 1)%nat) as (c & E & _); [lia|].
    apply lookup_lt_Some in E. lia.
  - apply Forall_lookup. intros k c Ek.
    apply lookup_take_Some in Ek as [Ek Hk]. rewrite lookup_drop in Ek.
    destruct (Hs (i + k)%nat) as (c' & E' & Hc); [lia|].
    rewrite Ek in E'. by injection E' as <-.
Qed.

Lemma drop_cons_lookup (T : str) p c rest :
  drop p T = c :: rest -> T !! p = Some c /\ drop (S p) T = rest.
Proof.
  intros E. split.
  - rewrite <- (Nat.add_0_r p), <- lookup_drop, E. done.
  - rewrite <- Nat.add_1_r, <- drop_drop, E. done.
Qed.

Lemma at_eol_drop (T : str) p :
  at_eol (drop p T) = true -> (p < length T)%nat -> T !! p = Some NL.
Proof.
  intros A Hp. destruct (drop p T) as [|c rest] eqn:E.
  - apply (f_equal length) in E. rewrite length_drop in E. simpl in E. lia.
  - apply drop_cons_lookup in E as [E _]. simpl in A.
    apply Z.eqb_eq in A. by subst.
Qed.

Lemma line_start_after_NL (T : str) p : T !! p = Some NL -> line_start T (S p).
Proof. intros E. unfold line_start. simpl. by rewrite E. Qed.

Lemma line_start_at_bol (T : str) q : line_start T q <-> at_bol (prev_at T q) = true.
Proof.
  unfold line_start, at_bol. destruct (prev_at T q) as [c|]; [|done].
  by rewrite Z.eqb_eq.
Qed.

Lemma line_start_pos (T : str) q :
  line_start T q -> (0 < q)%nat -> (q <= length T)%nat -> T !! (q - 1)%nat = Some NL.
Proof.
  intros L Hq Hl. unfold line_start in L. destruct q as [|q]; [lia|]. simpl in *.
  rewrite Nat.sub_0_r. destruct (T !! q) as [c|] eqn:E; [by subst|].
  apply lookup_ge_None in E. lia.
Qed.

(** ** The two option patterns *)

Section OptionPatterns.
Context `{UnicodeDB}.

Lemma exec_at_sound r (T : str) p n g :
  exec_at r T p = Some (n, g) ->
  exists u, drop p T = u ++ drop (p + n) T /\ length u = n /\
            matches r (prev_at T p) u (drop (p + n) T).
Proof.
  intros E. apply exec_sound_any in E as [L M].
  exists (take n (drop p T)). rewrite drop_drop in M.
  split; [|split; [|done]].
  - by rewrite <- drop_drop, take_drop.
  - rewrite length_take. lia.
Qed.

Lemma class_space c : in_class [ISpace] c = true -> is_space c = true.
Proof. simpl. by rewrite orb_false_r. Qed.

Lemma class_digit c : in_class [IDigit] c = true -> uni_isdecimal c = true.
Proof. simpl. by rewrite orb_false_r. Qed.

Lemma class_word c : in_class [IWord] c = true -> is_word c = true.
Proof. simpl. by rewrite orb_false_r. Qed.

Lemma class_dot c : in_class [IDot] c = true -> is_dot c = true.
Proof. simpl. by rewrite orb_false_r. Qed.

Lemma class_char a c : in_class [IChar a] c = true -> c = a.
Proof. simpl. rewrite orb_false_r. apply Z.eqb_eq. Qed.

Lemma space_is_lead c : is_space c = true -> is_lead c = true.
Proof. unfold is_lead. simpl. intros ->. by rewrite !orb_true_r. Qed.

Lemma space_is_tail c : is_space c = true -> is_tail c = true.
Proof. unfold is_tail. by intros ->. Qed.

Lemma Forall_class (P : cp -> bool) cs (u : str) :
  (forall c, in_class cs c = true -> P c = true) ->
  Forall (fun c => in_class cs c = true) u -> Forall (fun c => P c = true) u.
Proof. intros HP Hu. eapply Forall_impl; [exact Hu|exact HP]. Qed.

(** The shape of a match of the classifier's pattern. *)
Lemma classifier_match_shape (T : str) p n g :
  exec_at classifier_option_pattern T p = Some (n, g) ->
  line_start T p /\ (p + n <= length T)%nat /\
  exists d e w,
    (p <= d)%nat /\ seg T p d is_lead /\ head_at T d e w /\ (w < p + n)%nat.
Proof.
  intros E. pose proof (exec_at_length _ _ _ _ _ E) as Ln.
  apply exec_at_sound in E as (u & ET & Lu & M).
  unfold classifier_option_pattern, rchar in M. cbn [matches] in M.
  destruct M as (u0 & v0 & -> & [-> Hbol] & u1 & v1 & -> & H1 & u2 & v2 & -> & H2
                 & u3 & v3 & -> & [N3 H3] & u4 & v4 & -> & (c4 & -> & H4)
                 & u5 & u6 & -> & [N5 H5] & [N6 H6]).
  assert (p + n <= length T)%nat as Hlen.
  { repeat first [rewrite length_app in Lu | progress (simpl in Lu)].
    destruct u3; [done|]. simpl in Lu. lia. }
  simpl in ET. repeat (rewrite <- app_assoc in ET || rewrite <- app_comm_cons in ET).
  split; [by apply line_start_at_bol|]. split; [done|].
  apply (Forall_class is_lead) in H1; [|intros c Hc; by apply space_is_lead, class_space].
  apply (Forall_class is_lead) in H2; [|done].
  apply (Forall_class uni_isdecimal) in H3; [|apply class_digit].
  apply class_char in H4. subst c4.
  apply (Forall_class is_space) in H5; [|apply class_space].
  apply (Forall_class is_word) in H6; [|apply class_word].
  destruct (seg_of_prefix T p u1 _ _ ET H1) as [S1 E1].
  destruct (seg_of_prefix T _ u2 _ _ E1 H2) as [S2 E2].
  destruct (seg_of_prefix T _ u3 _ _ E2 H3) as [S3 E3].
  simpl in E3. apply drop_cons_lookup in E3 as [L4 E4].
  destruct (seg_of_prefix T _ u5 _ _ E4 H5) as [S5 E5].
  destruct u6 as [|c6 u6]; [done|]. apply Forall_cons in H6 as [H6 _].
  simpl in E5. apply drop_cons_lookup in E5 as [L6 _].
  exists (p + length u1 + length u2)%nat, (p + length u1 + length u2 + length u3)%nat,
         (S (p + length u1 + length u2 + length u3) + length u5)%nat.
  split; [lia|]. split; [by eapply seg_join|].
  split.
  - split; [destruct u3; [done|simpl; lia]|]. split; [done|]. split; [done|].
    split; [destruct u5; [done|simpl; lia]|].
    split; [by rewrite Nat.add_1_r|]. by exists c6.
  - repeat first [rewrite length_app in Lu | progress (simpl in Lu)]. lia.
Qed.

(** The shape of a match of the parser's pattern. *)
Lemma parser_match_shape (T : str) p n g :
  exec_at parser_option_pattern T p = Some (n, g) ->
  line_start T p /\ (p + n <= length T)%nat /\
  at_eol (drop (p + n) T) = true /\
  exists d e w r,
    (p <= d)%nat /\ (d < e)%nat /\ seg T p d is_lead /\
    seg T d e uni_isdecimal /\ T !! e = Some 46%Z /\
    (e + 1 < w)%nat /\ seg T (e + 1) w is_space /\
    (w < r)%nat /\ seg T w r is_dot /\
    (r <= p + n)%nat /\ seg T r (p + n) is_tail.
Proof.
  intros E. pose proof (exec_at_length _ _ _ _ _ E) as Ln.
  apply exec_at_sound in E as (u & ET & Lu & M).
  unfold parser_option_pattern, rchar in M. cbn [matches] in M.
  destruct M as (u0 & v0 & -> & [-> Hbol] & u1 & v1 & -> & H1 & u2 & v2 & -> & H2
                 & u3 & v3 & -> & [N3 H3] & u4 & v4 & -> & (c4 & -> & H4)
                 & u5 & v5 & -> & [N5 H5] & u6 & v6 & -> & [N6 H6]
                 & u7 & v7 & -> & H7 & u8 & u9 & -> & H8 & [-> Heol]).
  assert (p + n <= length T)%nat as Hlen.
  { repeat first [rewrite length_app in Lu | progress (simpl in Lu)].
    destruct u3; [done|]. simpl in Lu. lia. }
  rewrite ?app_nil_r in *. simpl in ET.
  repeat (rewrite <- app_assoc in ET || rewrite <- app_comm_cons in ET).
  split; [by apply line_start_at_bol|]. split; [done|]. split; [done|].
  apply (Forall_class is_lead) in H1; [|intros c Hc; by apply space_is_lead, class_space].
  apply (Forall_class is_lead) in H2; [|done].
  apply (Forall_class uni_isdecimal) in H3; [|apply class_digit].
  apply class_char in H4. subst c4.
  apply (Forall_class is_space) in H5; [|apply class_space].
  apply (Forall_class is_dot) in H6; [|apply class_dot].
  apply (Forall_class is_tail) in H8; [|intros c Hc; by apply space_is_tail, class_space].
  assert (Forall (fun c => is_tail c = true) u7) as H7'.
  { destruct H7 as [->|(a & b & -> & Ha & (c & -> & Hc))]; [done|].
    apply Forall_app. split.
    - apply (Forall_class is_tail) in Ha; [done|].
      intros c' Hc'. by apply space_is_tail, class_space.
    - apply Forall_singleton. apply class_char in Hc. subst c.
      unfold is_tail. rewrite Z.eqb_refl. apply orb_true_r. }
  destruct (seg_of_prefix T p u1 _ _ ET H1) as [S1 E1].
  destruct (seg_of_prefix T _ u2 _ _ E1 H2) as [S2 E2].
  destruct (seg_of_prefix T _ u3 _ _ E2 H3) as [S3 E3].
  simpl in E3. apply drop_cons_lookup in E3 as [L4 E4].
  destruct (seg_of_prefix T _ u5 _ _ E4 H5) as [S5 E5].
  destruct (seg_of_prefix T _ u6 _ _ E5 H6) as [S6 E6].
  destruct (seg_of_prefix T _ u7 _ _ E6 H7') as [S7 E7].
  destruct (seg_of_prefix T _ u8 _ _ E7 H8) as [S8 E8].
  assert (n = length u1 + length u2 + length u3 + 1 + length u5 + length u6
              + length u7 + length u8)%nat as Hn.
  { repeat first [rewrite length_app in Lu | progress (simpl in Lu)]. lia. }
  exists (p + length u1 + length u2)%nat, (p + length u1 + length u2 + length u3)%nat,
         (S (p + length u1 + length u2 + length u3) + length u5)%nat,
         (S (p + length u1 + length u2 + length u3) + length u5 + length u6)%nat.
  split; [lia|]. split; [destruct u3; [done|simpl; lia]|].
  split; [by eapply seg_join|]. split; [done|]. split; [done|].
  split; [destruct u5; [done|simpl; lia]|].
  split; [by rewrite Nat.add_1_r|].
  split; [destruct u6; [done|simpl; lia]|].
  split; [done|]. split; [lia|].
  replace (p + n)%nat with
    (S (p + length u1 + length u2 + length u3) + length u5 + length u6
       + length u7 + length u8)%nat by lia.
  by eapply seg_join.
Qed.

Lemma line_split (s : str) :
  exists b rest, s = b ++ rest /\ Forall (fun c => is_dot c = true) b /\
                 at_eol rest = true.
Proof.
  induction s as [|c s (b & rest & -> & Hb & Hr)].
  - by exists [], [].
  - destruct (is_dot c) eqn:Hc.
    + exists (c :: b), rest. split; [done|]. split; [by constructor|done].
    + exists [], (c :: b ++ rest). split; [done|]. split; [done|].
      simpl. unfold is_dot in Hc. by apply negb_false_iff in Hc.
Qed.

(** At a line start followed by marker characters and a numbered option, the
    parser's pattern matches. *)
Lemma parser_matches_head (T : str) q d e w :
  plain_tables ->
  line_start T q -> (q <= d)%nat -> seg T q d is_lead -> head_at T d e w ->
  is_Some (exec_at parser_option_pattern T q).
Proof.
  intros [_ Hword] Hq Hqd Sq (Hde & Sd & Le & Hew & Sw & c & Lw & Hc).
  destruct (prefix_of_seg T q d _ Sq Hqd) as (lead & E1 & L1 & F1).
  destruct (prefix_of_seg T d e _ Sd) as (ds & E2 & L2 & F2); [lia|].
  pose proof (drop_S_lookup T e _ Le) as E3.
  destruct (prefix_of_seg T (e + 1) w _ Sw) as (ws & E4 & L4 & F4); [lia|].
  pose proof (drop_S_lookup T w _ Lw) as E5.
  destruct (line_split (drop (S w) T)) as (b & rest & E6 & F6 & Heol).
  rewrite Nat.add_1_r in E4.
  assert (drop q T = ([] ++ [] ++ lead ++ ds ++ [46%Z] ++ ws ++ (c :: b) ++ [] ++ [] ++ [])
                     ++ rest) as E.
  { rewrite E1, E2, E3, E4, E5, E6. simpl.
    rewrite ?app_nil_r. by repeat (rewrite <- app_assoc || rewrite <- app_comm_cons). }
  unfold exec_at. rewrite E. apply exec_complete.
  unfold parser_option_pattern, rchar. cbn [matches].
  exists [], ([] ++ lead ++ ds ++ [46%Z] ++ ws ++ (c :: b) ++ [] ++ [] ++ []).
  split; [done|]. split; [split; [done|by apply line_start_at_bol]|].
  exists [], (lead ++ ds ++ [46%Z] ++ ws ++ (c :: b) ++ [] ++ [] ++ []).
  split; [done|]. split; [done|].
  exists lead, (ds ++ [46%Z] ++ ws ++ (c :: b) ++ [] ++ [] ++ []).
  split; [done|]. split; [exact F1|].
  exists ds, ([46%Z] ++ ws ++ (c :: b) ++ [] ++ [] ++ []).
  split; [done|]. split.
  { split; [destruct ds; [simpl in L2; lia|done]|].
    eapply Forall_impl; [exact F2|]. intros x Hx. simpl. by rewrite Hx. }
  exists [46%Z], (ws ++ (c :: b) ++ [] ++ [] ++ []).
  split; [done|]. split; [by exists 46%Z|].
  exists ws, ((c :: b) ++ [] ++ [] ++ []).
  split; [done|]. split.
  { split; [destruct ws; [simpl in L4; lia|done]|].
    eapply Forall_impl; [exact F4|]. intros x Hx. simpl. by rewrite Hx. }
  exists (c :: b), ([] ++ [] ++ []).
  split; [done|]. split.
  { split; [done|]. constructor.
    - simpl. rewrite orb_false_r. apply negb_true_iff, Z.eqb_neq. intros ->.
      by specialize (Hword _ Hc).
    - eapply Forall_impl; [exact F6|]. intros x Hx. simpl. by rewrite orb_false_r. }
  exists [], ([] ++ []). split; [done|]. split; [by left|].
  exists [], []. split; [done|]. split; [done|]. by split.
Qed.

Lemma classifier_pattern_never_empty : never_empty classifier_option_pattern.
Proof.
  apply never_empty_of_matches. intros prev u rest M.
  unfold classifier_option_pattern in M. cbn [matches] in M.
  destruct M as (u0 & v0 & -> & _ & u1 & v1 & -> & _ & u2 & v2 & -> & _
                 & u3 & v3 & -> & [N3 _] & _).
  intros E. do 3 apply app_eq_nil in E as [_ E]. by apply app_eq_nil in E as [E _].
Qed.

Lemma parser_pattern_never_empty : never_empty parser_option_pattern.
Proof.
  apply never_empty_of_matches. intros prev u rest M.
  unfold parser_option_pattern in M. cbn [matches] in M.
  destruct M as (u0 & v0 & -> & _ & u1 & v1 & -> & _ & u2 & v2 & -> & _
                 & u3 & v3 & -> & [N3 _] & _).
  intros E. do 3 apply app_eq_nil in E as [_ E]. by apply app_eq_nil in E as [E _].
Qed.

Lemma seg_at (T : str) i j P k c :
  seg T i j P -> (i <= k < j)%nat -> T !! k = Some c -> P c = true.
Proof.
  intros Hs Hk E. destruct (Hs k Hk) as (c' & E' & Hc). rewrite E in E'.
  by injection E' as ->.
Qed.

Section Plain.
Hypothesis tables : plain_tables.

Lemma digit_not_lead c : uni_isdecimal c = true -> is_lead c = true -> False.
Proof.
  intros Hd Hl. destruct tables as [Hdig _].
  destruct (Hdig c Hd) as (Hs & H1 & H2 & _).
  unfold is_lead in Hl. simpl in Hl. rewrite Hs in Hl.
  apply Z.eqb_neq in H1, H2. by rewrite H1, H2 in Hl.
Qed.

Lemma digit_not_tail c : uni_isdecimal c = true -> is_tail c = true -> False.
Proof.
  intros Hd Hl. destruct tables as [Hdig _].
  destruct (Hdig c Hd) as (Hs & _ & H2 & _).
  unfold is_tail in Hl. rewrite Hs in Hl.
  apply Z.eqb_neq in H2. by rewrite H2 in Hl.
Qed.

Lemma digit_not_space c : uni_isdecimal c = true -> is_space c = true -> False.
Proof.
  intros Hd Hl. destruct tables as [Hdig _].
  destruct (Hdig c Hd) as (Hs & _). congruence.
Qed.

Lemma digit_not_period : uni_isdecimal 46%Z = true -> False.
Proof.
  intros Hd. destruct tables as [Hdig _]. by destruct (Hdig _ Hd) as (_ & _ & _ & ?).
Qed.

Lemma word_not_space c : is_word c = true -> is_space c = true -> False.
Proof.
  intros Hw Hs. destruct tables as [_ Hword]. specialize (Hword c Hw). congruence.
Qed.

(** A match of the parser's pattern that starts at or before the first of
    two numbered options ends before the number of the second. *)
Lemma parser_match_stops (T : str) q1 d1 e1 w1 q2 d2 e2 w2 p n g :
  (q1 <= d1)%nat -> head_at T d1 e1 w1 ->
  line_start T q2 -> (w1 < q2)%nat -> (q2 <= d2)%nat -> seg T q2 d2 is_lead ->
  head_at T d2 e2 w2 ->
  (p <= q1)%nat -> exec_at parser_option_pattern T p = Some (n, g) ->
  (p + n <= d2)%nat.
Proof.
  intros Hq1 (Hde1 & Sd1 & Le1 & Hew1 & Sw1 & c1 & Lw1 & Hc1)
         Hls2 Hw1q2 Hq2 Sq2 (Hde2 & Sd2 & Le2 & Hew2 & Sw2 & c2 & Lw2 & Hc2) Hp E.
  destruct (parser_match_shape T p n g E)
    as (Hls & Hlen & Heol & d & e & w & r & Hpd & Hde & Sp & Sd & Le & Hew & Sw
        & Hwr & Sb & Hr & St).
  destruct (decide (p + n <= d2)%nat) as [|Hin]; [done|]. exfalso.
  destruct (Sd1 d1) as (x1 & Lx1 & Hx1); [lia|].
  destruct (Sd2 d2) as (x2 & Lx2 & Hx2); [lia|].
  assert (T !! (q2 - 1)%nat = Some NL) as Lnl.
  { apply line_start_pos; [done|lia|]. apply lookup_lt_Some in Lx2. lia. }
  assert (is_space NL = true) as Hnl by reflexivity.
  destruct (decide (d2 < d)%nat).
  { eapply digit_not_lead; [exact Hx2|]. apply (seg_at T p d _ d2 _ Sp); [lia|done]. }
  destruct (decide (d2 = d)) as [->|].
  { eapply digit_not_lead; [exact Hx1|]. apply (seg_at T p d _ d1 _ Sp); [lia|done]. }
  destruct (decide (d2 < e)%nat).
  { destruct (Sd (d2 - 1)%nat) as (y & Ly & Hy); [lia|].
    destruct (decide (q2 = d2)) as [->|].
    - rewrite Lnl in Ly. injection Ly as <-. by eapply digit_not_space.
    - eapply digit_not_lead; [exact Hy|]. apply (seg_at T q2 d2 _ (d2 - 1)%nat _ Sq2); [lia|done]. }
  destruct (decide (d2 = e)) as [->|].
  { rewrite Le in Lx2. injection Lx2 as <-. by apply digit_not_period. }
  destruct (decide (d2 < w)%nat).
  { eapply digit_not_space; [exact Hx2|]. apply (seg_at T (e + 1) w _ d2 _ Sw); [lia|done]. }
  destruct (decide (r <= d2)%nat).
  { eapply digit_not_tail; [exact Hx2|]. apply (seg_at T r (p + n) _ d2 _ St); [lia|done]. }
  (* the number of the second option lies in the option text of the match *)
  destruct (decide (w <= q2 - 1)%nat).
  { assert (is_dot NL = true) as X by (apply (seg_at T w r _ (q2 - 1)%nat _ Sb); [lia|done]).
    done. }
  destruct (decide (d1 < d)%nat).
  { eapply digit_not_lead; [exact Hx1|]. apply (seg_at T p d _ d1 _ Sp); [lia|done]. }
  destruct (decide (d1 = e)) as [->|].
  { rewrite Le in Lx1. injection Lx1 as <-. by apply digit_not_period. }
  destruct (decide (e < d1)%nat).
  { eapply digit_not_space; [exact Hx1|]. apply (seg_at T (e + 1) w _ d1 _ Sw); [lia|done]. }
  destruct (decide (e1 < e)%nat).
  { apply digit_not_period. apply (seg_at T d e _ e1 _ Sd); [lia|done]. }
  destruct (decide (e < e1)%nat).
  { assert (is_space 46%Z = true) as X by (apply (seg_at T (e + 1) w _ e1 _ Sw); [lia|done]).
    done. }
  eapply word_not_space; [exact Hc1|]. apply (seg_at T (e + 1) w _ w1 _ Sw); [lia|done].
Qed.

(** Two numbered options, each after a line start and marker characters,
    the second line starting after the first option's text has begun: the
    parser's pattern matches twice. *)
Lemma two_heads_two_matches (T : str) q1 d1 e1 w1 q2 d2 e2 w2 :
  line_start T q1 -> (q1 <= d1)%nat -> seg T q1 d1 is_lead -> head_at T d1 e1 w1 ->
  line_start T q2 -> (w1 < q2)%nat -> (q2 <= d2)%nat -> seg T q2 d2 is_lead ->
  head_at T d2 e2 w2 ->
  (2 <= length (scan_from parser_option_pattern T 0))%nat.
Proof.
  intros Hls1 Hq1 Sq1 Hh1 Hls2 Hw1q2 Hq2 Sq2 Hh2.
  apply (scan_two_intro _ T q1 (length T) parser_pattern_never_empty).
  { by eapply parser_matches_head. }
  intros p n g Hp E.
  pose proof (parser_match_stops T q1 d1 e1 w1 q2 d2 e2 w2 p n g
                Hq1 Hh1 Hls2 Hw1q2 Hq2 Sq2 Hh2 Hp E) as Hstop.
  destruct (parser_match_shape T p n g E) as (_ & Hlen & Heol & _).
  destruct Hh2 as (Hde2 & Sd2 & Hrest2).
  destruct (Sd2 d2) as (x2 & Lx2 & Hx2); [lia|].
  pose proof (lookup_lt_Some _ _ _ Lx2) as Hd2.
  destruct (decide (p + n <= q2)%nat).
  - exists q2. split; [lia|]. by eapply (parser_matches_head T q2 d2 e2 w2).
  - assert (T !! (p + n)%nat = Some NL) as Lnl by (apply at_eol_drop; [done|lia]).
    assert (p + n <> d2) as Hne.
    { intros X. rewrite X in Lnl. rewrite Lnl in Lx2. injection Lx2 as <-.
      by eapply digit_not_space. }
    exists (S (p + n)). split; [lia|].
    eapply (parser_matches_head T (S (p + n)) d2 e2 w2); try done.
    + by apply line_start_after_NL.
    + lia.
    + eapply seg_weaken; [exact Sq2|lia|lia].
Qed.

End Plain.

End OptionPatterns.

Lemma lstrip_decompose (s : str) :
  exists pre, s = pre ++ lstrip s /\ Forall (fun c => is_space c = true) pre.
Proof.
  induction s as [|c s (pre & E & F)]; simpl.
  - by exists [].
  - destruct (is_space c) eqn:Hc.
    + exists (c :: pre). split; [simpl; by f_equal|by constructor].
    + by exists [].
Qed.

Lemma strip_decompose (s : str) :
  exists pre post, s = pre ++ strip s ++ post /\
                   Forall (fun c => is_space c = true) pre.
Proof.
  destruct (lstrip_decompose s) as (pre & E & F).
  destruct (lstrip_decompose (rev (lstrip s))) as (pre' & E' & _).
  exists pre, (rev pre'). split; [|done].
  unfold strip, rstrip. rewrite <- rev_app_distr, <- E', rev_involutive. exact E.
Qed.

Section Shift.
Context `{UnicodeDB}.
Variables (T pre u post : str).
Hypothesis ET : T = pre ++ u ++ post.

Lemma lookup_shift k c : u !! k = Some c -> T !! (length pre + k)%nat = Some c.
Proof.
  intros E. rewrite ET, lookup_app_r by lia.
  replace (length pre + k - length pre)%nat with k by lia.
  by apply lookup_app_l_Some.
Qed.

Lemma seg_shift i j P : seg u i j P -> seg T (length pre + i) (length pre + j) P.
Proof.
  intros Hs k Hk. destruct (Hs (k - length pre)%nat) as (c & E & Hc); [lia|].
  exists c. split; [|done]. apply lookup_shift in E.
  by replace (length pre + (k - length pre))%nat with k in E by lia.
Qed.

Lemma head_shift d e w :
  head_at u d e w -> head_at T (length pre + d) (length pre + e) (length pre + w).
Proof.
  intros (Hde & Sd & Le & Hew & Sw & c & Lw & Hc).
  split; [lia|]. split; [by apply seg_shift|]. split; [by apply lookup_shift|].
  split; [lia|]. split.
  - rewrite <- Nat.add_assoc. by apply seg_shift.
  - exists c. split; [by apply lookup_shift|done].
Qed.

Lemma line_start_shift p :
  line_start u p -> (0 < p <= length u)%nat -> line_start T (length pre + p).
Proof.
  intros L Hp. pose proof (line_start_pos u p L) as X.
  destruct p as [|p]; [lia|]. rewrite Nat.add_succ_r. apply line_start_after_NL.
  apply lookup_shift. simpl in X. rewrite Nat.sub_0_r in X. apply X; lia.
Qed.

Lemma seg_pre : Forall (fun c => is_space c = true) pre -> seg T 0 (length pre) is_lead.
Proof.
  intros F. destruct (seg_of_prefix T 0 pre (u ++ post) is_lead) as [S _].
  - by rewrite drop_0.
  - eapply Forall_impl; [exact F|]. apply space_is_lead.
  - exact S.
Qed.

End Shift.

Section PromptMatches.
Context `{UnicodeDB}.
Hypothesis tables : plain_tables.

(** Two matches of the classifier's pattern in the stripped text give two
    matches of the parser's pattern in the text. *)
Lemma classifier_two_parser_two (T : str) :
  (2 <= length (findall classifier_option_pattern (strip T)))%nat ->
  (2 <= length (finditer parser_option_pattern T))%nat.
Proof.
  intros H2. unfold findall in H2. rewrite length_map in H2.
  destruct (scan_two classifier_option_pattern (strip T)
              classifier_pattern_never_empty)
    as (p1 & n1 & g1 & p2 & E1 & Hp2 & [[n2 g2] E2]); [exact H2|].
  destruct (classifier_match_shape _ _ _ _ E1)
    as (L1 & Hl1 & d1 & e1 & w1 & Hd1 & S1 & Hh1 & Hw1).
  destruct (classifier_match_shape _ _ _ _ E2)
    as (L2 & Hl2 & d2 & e2 & w2 & Hd2 & S2 & Hh2 & Hw2).
  destruct (strip_decompose T) as (pre & post & ET & Fpre).
  set (o := length pre).
  apply (two_heads_two_matches tables T
           (if decide (p1 = 0)%nat then 0%nat else (o + p1)%nat)
           (o + d1)%nat (o + e1)%nat (o + w1)%nat
           (o + p2)%nat (o + d2)%nat (o + e2)%nat (o + w2)%nat).
  - destruct (decide (p1 = 0)%nat) as [->|Hne]; [done|].
    eapply line_start_shift; [exact ET|done|lia].
  - destruct (decide (p1 = 0)%nat); lia.
  - destruct (decide (p1 = 0)%nat) as [->|Hne].
    + eapply seg_join; [by eapply seg_pre|].
      replace (length pre) with (length pre + 0)%nat at 1 by lia.
      by eapply seg_shift.
    + by eapply seg_shift.
  - by eapply head_shift.
  - eapply line_start_shift; [exact ET|done|lia].
  - lia.
  - lia.
  - by eapply seg_shift.
  - by eapply head_shift.
Qed.

(** C1 (amended): for a text classified PROMPT the parser's option pattern
    matches at least twice; if the text also holds an indicator phrase and
    every matched option text has two characters or more, the parser returns
    a prompt with one option per match, so with at least two.  The tables
    are asked only that digits are neither whitespace, markers nor the
    period, and that word characters are not whitespace. *)
Theorem prompt_has_two_options t :
  classify_response t = PROMPT ->
  let clean_text := re_sub_empty esc_sequence t in
  let found := finditer parser_option_pattern clean_text in
  (2 <= length found)%nat /\
  (has_indicator clean_text = true ->
   Forall (fun m => long_enough m = true) found ->
   exists p, parse_prompt t = Some p /\
             options p = map option_of_match found /\
             (2 <= length (options p))%nat).
Proof.
  intros Hc clean_text found.
  assert (2 <= length found)%nat as H2.
  { apply classifier_two_parser_two. unfold classify_response in Hc.
    fold clean_text in Hc. destruct (strip clean_text) as [|c rest] eqn:E; [done|].
    unfold _has_numbered_options in Hc.
    destruct (2 <=? length (findall classifier_option_pattern (c :: rest)))%nat eqn:E2.
    - by apply Nat.leb_le.
    - destruct (_is_confirmation _); [done|]. destruct (_is_error _); [done|].
      destruct (_is_working _); [done|]. by destruct (_is_complete _). }
  split; [exact H2|]. intros Hi Hl.
  unfold parse_prompt. fold clean_text. rewrite Hi. simpl.
  rewrite collect_options_filter. fold found.
  assert (List.filter long_enough found = found) as ->.
  { clear H2. induction found as [|m ms IH]; [done|].
    apply Forall_cons in Hl as [Hm Hl]. simpl. rewrite Hm. by rewrite IH. }
  destruct found as [|m ms] eqn:Ef; [simpl in H2; lia|].
  simpl. eexists. split; [reflexivity|]. simpl. split; [done|].
  rewrite length_map. simpl in H2. lia.
Qed.

End PromptMatches.

(** The tables of the worked inputs are plain. *)
Lemma is_space_range c : is_space c = true -> (c <= 32 \/ 133 <= c)%Z.
Proof.
  unfold is_space.
  rewrite !orb_true_iff, !andb_true_iff, !Z.leb_le, !Z.eqb_eq. lia.
Qed.

Lemma basic_plain_tables : @plain_tables basic_unicode.
Proof.
  split; intros c Hc.
  - simpl in Hc. unfold ascii_isdecimal in Hc.
    apply andb_true_iff in Hc as [H1 H2]. apply Z.leb_le in H1, H2.
    unfold HEAVY_ANGLE, BOX_V. repeat split; try lia.
    destruct (is_space c) eqn:E; [|done]. apply is_space_range in E. lia.
  - unfold is_word in Hc. simpl in Hc. unfold ascii_isalnum in Hc.
    rewrite !orb_true_iff, !andb_true_iff, !Z.leb_le, Z.eqb_eq in Hc.
    destruct (is_space c) eqn:E; [|done]. apply is_space_range in E. lia.
Qed.

Lemma prompt_has_two_options_witness :
  let t := lit "Choose:" ++ [NL] ++ lit "1. yes" ++ [NL] ++ lit "2. no" in
  @classify_response basic_unicode t = PROMPT /\
  (2 <= length (@finditer basic_unicode parser_option_pattern
                  (@re_sub_empty basic_unicode esc_sequence t)))%nat /\
  exists p, @parse_prompt basic_unicode t = Some p /\ (2 <= length (options p))%nat.
Proof.
  intros t.
  assert (@classify_response basic_unicode t = PROMPT) as Hc by (by vm_compute).
  destruct (@prompt_has_two_options basic_unicode basic_plain_tables t Hc) as [H2 Hp].
  split; [exact Hc|]. split; [exact H2|].
  destruct Hp as (p & E & _ & L).
  - by vm_compute.
  - vm_compute. by repeat constructor.
  - by exists p.
Defined.

(** * Further properties *)

(** ** The sanitizer deletes and nothing else *)

Section SanitizerMore.
Context `{UnicodeDB}.

(** A substitution by the empty text only deletes characters. *)
Lemma sub_from_sublist r s : forall prev skip, sublist (sub_from r prev s skip) s.
Proof.
  induction s as [|c s IH]; intros prev skip; simpl; [constructor|].
  destruct skip as [|k]; [|by apply sublist_cons].
  destruct (exec r false prev (c :: s)) as [[[|k] g]|].
  - destruct (exec r true prev (c :: s)) as [[[|k] g']|];
      first [by apply sublist_skip | by apply sublist_cons].
  - by apply sublist_cons.
  - by apply sublist_skip.
Qed.

(** X1: the sanitizer only deletes characters: its result is a subsequence
    of the text; it returns the text unchanged exactly when the text holds no
    match of [ANSI_ESCAPE] and a shorter text when it holds one; a text with
    neither ESC nor '[' is returned unchanged. *)
Theorem sanitize_only_deletes t :
  sublist (sanitize t) t /\
  (sanitize t = t <-> re_search ANSI_ESCAPE t = false) /\
  (re_search ANSI_ESCAPE t = true -> (length (sanitize t) < length t)%nat) /\
  (Forall (fun c => c <> ESC /\ c <> LBRACKET) t -> sanitize t = t).
Proof.
  split; [apply sub_from_sublist|].
  assert ((sanitize t = t <-> re_search ANSI_ESCAPE t = false) /\
          (re_search ANSI_ESCAPE t = true -> (length (sanitize t) < length t)%nat))
    as [E1 E2].
  { unfold sanitize, re_search, re_sub_empty.
    destruct (search_from ANSI_ESCAPE None t) as [m|] eqn:E.
    - pose proof (sub_from_match _ _ ANSI_ESCAPE_never_empty _ _ E) as L.
      split; [|done]. split; [|done]. intros E'. rewrite E' in L. lia.
    - split; [|done]. split; [done|]. intros _. by apply sub_from_no_match. }
  split; [done|]. split; [done|]. intros Hplain. apply E1.
  unfold re_search. by rewrite search_ANSI_plain.
Qed.

End SanitizerMore.

(** ** The text that goes through the read loop *)

Section ReadLoopMore.
Context `{UnicodeDB}.

Lemma read_step_buffer st data now :
  buffer (read_step st data now) = buffer st ++ accepted data /\
  output_queue (read_step st data now) = output_queue st.
Proof.
  unfold read_step, accepted. destruct data as [[|b bs]|]; simpl;
    rewrite ?app_nil_r; try done.
  destruct (strip (sanitize (utf8_decode_ignore (b :: bs)))); simpl;
    by rewrite ?app_nil_r.
Qed.

Lemma flush_step_text st t :
  concat (output_queue (flush_step st t)) ++ buffer (flush_step st t)
  = concat (output_queue st) ++ buffer st.
Proof.
  unfold flush_step. destruct (flush_due _ _); [|done]. simpl.
  by rewrite concat_app, app_nil_r; simpl; rewrite app_nil_r.
Qed.

Lemma exit_buffer_text st remaining :
  exit_buffer st remaining = buffer st ++ accepted remaining.
Proof.
  unfold exit_buffer, accepted. destruct remaining as [[|b bs]|]; simpl;
    rewrite ?app_nil_r; try done.
  destruct (strip (sanitize (utf8_decode_ignore (b :: bs)))); simpl;
    by rewrite ?app_nil_r.
Qed.

Lemma exit_step_text st remaining :
  concat (output_queue (exit_step st remaining))
  = concat (output_queue st) ++ buffer st ++ accepted remaining /\
  buffer (exit_step st remaining) = [].
Proof.
  unfold exit_step. rewrite <- exit_buffer_text.
  destruct (exit_buffer st remaining) as [|c buf]; simpl.
  - by rewrite app_nil_r.
  - split; [|done]. rewrite concat_app. simpl. by rewrite app_nil_r.
Qed.

Lemma run_loop_text ticks : forall st,
  concat (output_queue (run_loop st ticks)) ++ buffer (run_loop st ticks)
  = concat (output_queue st) ++ buffer st ++ consumed ticks.
Proof.
  induction ticks as [|tk ticks IH]; intros st; simpl.
  - by rewrite app_nil_r.
  - unfold iteration.
    set (st1 := read_step st (tick_data tk) (tick_read_time tk)).
    set (st2 := flush_step st1 (tick_current_time tk)).
    assert (concat (output_queue st2) ++ buffer st2
            = concat (output_queue st) ++ buffer st ++ accepted (tick_data tk)) as E2.
    { unfold st2. rewrite flush_step_text. unfold st1.
      destruct (read_step_buffer st (tick_data tk) (tick_read_time tk)) as [-> ->].
      done. }
    destruct (tick_exited tk) as [remaining|].
    + destruct (exit_step_text st2 remaining) as [-> ->].
      rewrite app_nil_r, app_assoc, E2. by rewrite <- !app_assoc.
    + rewrite IH, app_assoc, E2. by rewrite <- !app_assoc.
Qed.

Lemma run_loop_exit_buffer ticks : forall st,
  saw_exit ticks -> buffer (run_loop st ticks) = [].
Proof.
  induction ticks as [|tk ticks IH]; intros st Hx.
  - by apply Exists_nil in Hx.
  - simpl. unfold iteration. destruct (tick_exited tk) as [remaining|] eqn:E.
    + apply exit_step_text.
    + apply IH. apply Exists_cons in Hx as [Hx|Hx]; [|done].
      rewrite E in Hx. by destruct Hx.
Qed.

(** X2: the read loop neither loses, duplicates nor reorders text: the units
    on the queue followed by the buffer are, concatenated, exactly the text
    the reads contributed, each read's sanitized text in order, the blank
    ones dropped whole; once the loop has seen the process exited the buffer
    is empty and the queue holds all of it. *)
Theorem read_loop_conserves_text now ticks :
  let st := run_loop (loop_start now) ticks in
  concat (output_queue st) ++ buffer st = consumed ticks /\
  (saw_exit ticks -> buffer st = [] /\ concat (output_queue st) = consumed ticks).
Proof.
  intros st. pose proof (run_loop_text ticks (loop_start now)) as E.
  fold st in E. simpl in E. split; [done|].
  intros Hx. pose proof (run_loop_exit_buffer ticks (loop_start now) Hx) as B.
  fold st in B. rewrite B, app_nil_r in E. done.
Qed.

End ReadLoopMore.

Section ReadLoopBound.
Context `{UnicodeDB}.
Hypothesis decoder : decoder_bounded.

Lemma sanitize_length t : (length (sanitize t) <= length t)%nat.
Proof. apply sub_from_length. Qed.

Lemma accepted_length bytes : (length (accepted (Some bytes)) <= length bytes)%nat.
Proof.
  unfold accepted. destruct bytes as [|b bs]; [done|].
  pose proof (sanitize_length (utf8_decode_ignore (b :: bs))) as L1.
  pose proof (decoder (b :: bs)) as L2.
  destruct (strip _); simpl in *; lia.
Qed.

Lemma accepted_bound data n :
  (forall bytes, data = Some bytes -> (length bytes <= n)%nat) ->
  (length (accepted data) <= n)%nat.
Proof.
  intros Hd. destruct data as [bytes|]; [|simpl; lia].
  pose proof (accepted_length bytes). specialize (Hd bytes eq_refl). lia.
Qed.


Lemma within_weaken b b' st : (b <= b')%nat -> within b st -> within b' st.
Proof.
  intros Hb [? Hq]. split; [done|]. eapply Forall_impl; [exact Hq|].
  simpl. intros. lia.
Qed.

Lemma flush_after_read st data now t :
  (forall bytes, data = Some bytes -> (length bytes <= 1024)%nat) ->
  within (4096 + 1024) st -> within (4096 + 1024) (flush_step (read_step st data now) t).
Proof.
  intros Hd [Hb Hq].
  destruct (read_step_buffer st data now) as [Eb Eq].
  pose proof (accepted_bound data 1024 Hd) as La.
  assert (length (buffer (read_step st data now)) <= 4096 + 1024)%nat as Lb.
  { rewrite Eb, length_app. lia. }
  unfold flush_step, flush_due. set (st1 := read_step st data now) in *.
  destruct (buffer st1) as [|c buf] eqn:E.
  - split; [rewrite E; simpl; lia|by rewrite Eq].
  - destruct (4096 <? length (c :: buf))%nat eqn:Hlong.
    + rewrite orb_true_r. split; [simpl; lia|]. simpl. rewrite Eq.
      apply Forall_app. split; [done|]. by apply Forall_singleton.
    + rewrite orb_false_r. apply Nat.ltb_ge in Hlong.
      destruct (Qltb _ _).
      * split; [simpl; lia|]. simpl. rewrite Eq.
        apply Forall_app. split; [done|]. by apply Forall_singleton.
      * split; [by rewrite E|by rewrite Eq].
Qed.

Lemma exit_step_within st remaining :
  (forall bytes, remaining = Some bytes -> (length bytes <= 4096)%nat) ->
  within (4096 + 1024) st -> within (4096 + 4096) (exit_step st remaining).
Proof.
  intros Hd [Hb Hq].
  pose proof (accepted_bound remaining 4096 Hd) as La.
  pose proof (exit_buffer_text st remaining) as E.
  assert (Forall (fun unit => (length unit <= (4096 + 4096))%nat) (output_queue st)) as Hq'.
  { eapply Forall_impl; [exact Hq|]. simpl. intros. lia. }
  unfold exit_step. destruct (exit_buffer st remaining) as [|c buf] eqn:Eb.
  - split; [simpl; lia|done].
  - split; [simpl; lia|]. simpl. apply Forall_app. split; [done|].
    apply Forall_singleton. rewrite E, length_app. lia.
Qed.

Lemma run_loop_within ticks : forall st,
  read_sizes_respected ticks -> within (4096 + 1024) st ->
  within (4096 + 4096) (run_loop st ticks) /\
  (~ saw_exit ticks -> within (4096 + 1024) (run_loop st ticks)).
Proof.
  induction ticks as [|tk ticks IH]; intros st Hr Hst.
  - cbn [run_loop]. split; [apply (within_weaken (4096 + 1024)); [lia|done]|done].
  - apply Forall_cons in Hr as [[Hd Hx] Hr]. cbn [run_loop]. unfold iteration.
    pose proof (flush_after_read st (tick_data tk) (tick_read_time tk)
                  (tick_current_time tk) Hd Hst) as H2.
    destruct (tick_exited tk) as [remaining|] eqn:E.
    + split.
      * apply exit_step_within; [|done]. intros bytes ->. by apply Hx.
      * intros N. destruct N. apply Exists_cons. left. rewrite E. eauto.
    + destruct (IH _ Hr H2) as [I1 I2]. split; [done|].
      intros N. apply I2. intros X. apply N. apply Exists_cons. by right.
Qed.

(** X3: with reads that return no more bytes than asked for and a decoder
    that yields at most one character per byte, the buffer holds at most 4096
    characters after every iteration, no unit exceeds 4096 + 4096
    characters, and none exceeds 4096 + 1024 before the loop sees the
    exit. *)
Theorem output_units_bounded now ticks :
  read_sizes_respected ticks ->
  let st := run_loop (loop_start now) ticks in
  (length (buffer st) <= 4096)%nat /\
  Forall (fun unit => (length unit <= (4096 + 4096))%nat) (output_queue st) /\
  (~ saw_exit ticks ->
   Forall (fun unit => (length unit <= (4096 + 1024))%nat) (output_queue st)).
Proof.
  intros Hr st.
  destruct (run_loop_within ticks (loop_start now) Hr) as [[B Q] N].
  { split; [simpl; lia|constructor]. }
  split; [done|]. split; [done|]. intros Hx. by apply N.
Qed.

End ReadLoopBound.

(** The decoder of the worked inputs yields at most one character per
    byte. *)
Lemma utf8_decode_length_aux n : forall bs,
  (length bs <= n)%nat -> (length (utf8_decode bs) <= length bs)%nat.
Proof.
  induction n as [|n IH]; intros bs Hn.
  - destruct bs; [done|simpl in Hn; lia].
  - destruct bs as [|b0 t0]; [done|]. simpl in Hn.
    assert (length (utf8_decode t0) <= length t0)%nat as L0 by (apply IH; lia).
    cbn [utf8_decode].
    destruct (byte_val b0 <? 128)%Z; [simpl; lia|].
    destruct t0 as [|b1 t1]; [simpl; lia|]. simpl in Hn.
    assert (length (utf8_decode t1) <= length t1)%nat as L1 by (apply IH; lia).
    destruct (_ && is_continuation (byte_val b1)); [simpl; lia|].
    destruct t1 as [|b2 t2]; [simpl in *; lia|]. simpl in Hn.
    assert (length (utf8_decode t2) <= length t2)%nat as L2 by (apply IH; lia).
    match goal with |- context [if ?c then _ else _] => destruct c end;
      [simpl; lia|].
    destruct t2 as [|b3 t3]; [simpl in *; lia|]. simpl in Hn.
    assert (length (utf8_decode t3) <= length t3)%nat as L3 by (apply IH; lia).
    match goal with |- context [if ?c then _ else _] => destruct c end;
      simpl in *; lia.
Qed.

Lemma basic_decoder_bounded : @decoder_bounded basic_unicode.
Proof. intros bytes. simpl. by apply (utf8_decode_length_aux (length bytes)). Qed.

Lemma output_units_bounded_witness :
  let hello := [Byte.x68; Byte.x69] in
  let ticks := [ {| tick_data := Some hello; tick_read_time := 1 # 1;
                    tick_current_time := 1 # 1; tick_exited := None |};
                 {| tick_data := None; tick_read_time := 2 # 1;
                    tick_current_time := 2 # 1; tick_exited := Some (Some hello) |} ] in
  let st := @run_loop basic_unicode (loop_start (0 # 1)) ticks in
  output_queue st = [lit "hi"; lit "hi"] /\
  (length (buffer st) <= 4096)%nat /\
  Forall (fun unit => (length unit <= (4096 + 4096))%nat) (output_queue st).
Proof.
  intros hello ticks st. split; [by vm_compute|].
  assert (read_sizes_respected ticks) as Hr.
  { unfold read_sizes_respected, ticks.
    repeat (apply Forall_cons; split; [|try apply Forall_nil]);
      (split; simpl; intros bytes E; try discriminate; injection E as <-; simpl; lia). }
  destruct (@output_units_bounded basic_unicode basic_decoder_bounded (0 # 1) ticks Hr)
    as (B & Q & _).
  by split.
Defined.

(** ** Signals, and the life of a process object *)

Lemma signals_app t u : signals (t ++ u) = signals t ++ signals u.
Proof.
  induction t as [|[d|s|d x] t IH]; simpl; [done|..]; by rewrite IH.
Qed.

Lemma steady_bind m k : steady m -> steady k -> steady (m ;;; k).
Proof.
  intros Hm Hk p. unfold mbind.
  destruct (Hm p) as (R & S & X & P). destruct (m p) as [[[]|e] p']; simpl in *; [|done].
  destruct (Hk p') as (R' & S' & X' & P'). repeat split; [done|congruence|auto|auto].
Qed.

Lemma steady_ret : steady (ret tt).
Proof. by intros p. Qed.

Lemma steady_close env d : steady (guarded_close env d).
Proof.
  intros p. rewrite guarded_close_eq. simpl. rewrite signals_app. simpl.
  by rewrite app_nil_r.
Qed.

Lemma steady_modify f :
  (forall p, os_trace (f p) = os_trace p /\ process (f p) = process p) ->
  steady (modify f).
Proof.
  intros Hf p. destruct (Hf p) as [T P]. unfold modify, exited. simpl.
  by rewrite T, P.
Qed.

Lemma steady_guard {A} (field : ClaudeCodeProcess -> option A) (k : A -> M unit) :
  (forall a, steady (k a)) ->
  steady (fun p => match field p with Some a => k a p | None => (Ok tt, p) end).
Proof. intros Hk p. destruct (field p); [apply Hk|done]. Qed.

Lemma steady_reader_finally env : steady (reader_finally env).
Proof.
  apply (steady_guard _master_fd (fun d => guarded_close env d ;;; modify (set_master_fd None))).
  intros d. apply steady_bind; [apply steady_close|by apply steady_modify].
Qed.

Lemma steady_reader_end env :
  steady (reader_finally env ;;; modify (set_reading_task (Some TaskDone))).
Proof. apply steady_bind; [apply steady_reader_finally|by apply steady_modify]. Qed.

Lemma steady_reader_run env : steady (reader_run_to_end env).
Proof.
  intros p. unfold reader_run_to_end. pose proof (steady_reader_end env p) as K.
  destruct (_reading_task p) as [[]|]; done.
Qed.

Lemma steady_while_suspended env : steady (while_suspended env).
Proof.
  unfold while_suspended. destruct (reader_finishes env);
    [apply steady_reader_run|apply steady_ret].
Qed.

Lemma steady_cancel env : steady (cancel_reading_task env).
Proof.
  intros p. unfold cancel_reading_task. pose proof (steady_reader_end env p) as K.
  destruct (_reading_task p) as [[]|]; done.
Qed.

Lemma steady_finally env : steady (terminate_finally env).
Proof.
  unfold terminate_finally.
  apply steady_bind; [apply steady_cancel|]. apply steady_bind.
  - apply (steady_guard _master_fd (fun d => guarded_close env d ;;; modify (set_master_fd None))).
    intros d. apply steady_bind; [apply steady_close|by apply steady_modify].
  - apply (steady_guard _slave_fd (fun d => guarded_close env d ;;; modify (set_slave_fd None))).
    intros d. apply steady_bind; [apply steady_close|by apply steady_modify].
Qed.

Lemma exited_set_returncode c p :
  is_Some (process p) -> exited (set_returncode c p) = true.
Proof. intros [sp E]. unfold set_returncode, exited. by rewrite E. Qed.

Lemma trace_set_returncode c p : os_trace (set_returncode c p) = os_trace p.
Proof. unfold set_returncode. by destruct (process p). Qed.


Lemma steady_run m p :
  steady m ->
  exists q, m p = (Ok tt, q) /\
    signals (os_trace q) = signals (os_trace p) /\
    (exited p = true -> exited q = true) /\
    (is_Some (process p) -> is_Some (process q)).
Proof.
  intros Hm. destruct (Hm p) as (R & S & X & P).
  destruct (m p) as [r q]; simpl in *. subst r. by exists q.
Qed.

Lemma process_set_returncode c p :
  is_Some (process p) -> is_Some (process (set_returncode c p)).
Proof. intros [sp E]. unfold set_returncode. rewrite E. simpl. eauto. Qed.

Lemma body_signals env p sp :
  process p = Some sp ->
  exists p',
    terminate_body env p = (Ok tt, p') /\
    signals (os_trace p') = signals (os_trace p) ++ signals_sent env sp /\
    is_Some (process p') /\
    (signal_raises env = false -> kill_raises env = false -> exited p' = true).
Proof.
  intros Hp. unfold terminate_body, try_except, mbind, send_signal, kill, signals_sent.
  destruct (signal_raises env).
  { simpl. exists p. split; [done|]. split; [by rewrite app_nil_r|]. split; [by rewrite Hp|done]. }
  unfold modify. simpl.
  set (p1 := log_event (EvSignal SIGTERM) p).
  assert (signals (os_trace p1) = signals (os_trace p) ++ [SIGTERM]) as S1.
  { unfold p1. simpl. by rewrite signals_app. }
  assert (process p1 = Some sp) as P1 by done.
  assert (exited p1 = bool_decide (is_Some (returncode sp))) as X1.
  { unfold exited. by rewrite P1. }
  unfold wait_for_exit. rewrite X1.
  destruct (bool_decide (is_Some (returncode sp))) eqn:Hrc.
  - destruct (steady_run _ p1 (steady_while_suspended env)) as (q & -> & S & X & P).
    exists q. split; [done|]. split; [by rewrite S|]. split; [apply P; eauto|].
    intros _ _. apply X. by rewrite X1.
  - destruct (exit_in_time env) as [c|].
    + destruct (steady_run _ (set_returncode c p1) (steady_while_suspended env))
        as (q & -> & S & X & P).
      exists q. split; [done|]. split; [by rewrite S, trace_set_returncode|].
      split.
      * apply P, process_set_returncode. eauto.
      * intros _ _. apply X, exited_set_returncode. eauto.
    + cbn [fst snd is_timeout]. destruct (kill_raises env).
      { exists p1. split; [done|]. split; [done|]. split; [eauto|done]. }
      set (p2 := log_event (EvSignal SIGKILL) p1).
      assert (process p2 = Some sp) as P2 by done.
      assert (signals (os_trace p2) = signals (os_trace p) ++ [SIGTERM; SIGKILL]) as S2.
      { unfold p2. cbn [log_event os_trace]. rewrite signals_app, S1. simpl.
        by rewrite <- app_assoc. }
      unfold wait_exit. assert (exited p2 = false) as -> by (unfold exited; by rewrite P2).
      destruct (steady_run _ (set_returncode (exit_after_kill env) p2)
                  (steady_while_suspended env)) as (q & -> & S & X & P).
      exists q. split; [done|]. split; [by rewrite S, trace_set_returncode|].
      split.
      * apply P, process_set_returncode. eauto.
      * intros _ _. apply X, exited_set_returncode. eauto.
Qed.

Lemma terminate_signals env p sp :
  process p = Some sp ->
  exists p',
    terminate env p = (Ok tt, p') /\
    signals (os_trace p') = signals (os_trace p) ++ signals_sent env sp /\
    (signal_raises env = false -> kill_raises env = false -> exited p' = true).
Proof.
  intros Hp. unfold terminate. rewrite Hp. unfold try_finally.
  destruct (body_signals env p sp Hp) as (q & -> & S & P & X).
  destruct (steady_run _ q (steady_finally env)) as (p' & -> & S' & X' & P').
  exists p'. split; [done|]. split; [congruence|auto].
Qed.

(** X6: [terminate] sends no signal without a process handle; otherwise it
    sends SIGTERM first, unless sending raises, and SIGKILL after it exactly
    when the process had no return code, did not exit within the grace
    period, and the kill did not raise. *)
Theorem terminate_signal_order env p :
  signals (os_trace (snd (terminate env p))) =
  signals (os_trace p) ++
  match process p with
  | None => []
  | Some sp => signals_sent env sp
  end /\
  forall sp, process p = Some sp ->
    (In SIGKILL (signals_sent env sp) <->
     signal_raises env = false /\ returncode sp = None /\
     exit_in_time env = None /\ kill_raises env = false) /\
    (In SIGTERM (signals_sent env sp) <-> signal_raises env = false).
Proof.
  split.
  - destruct (process p) as [sp|] eqn:Hp.
    + destruct (terminate_signals env p sp Hp) as (p' & -> & S & _). exact S.
    + unfold terminate. rewrite Hp. simpl. by rewrite app_nil_r.
  - intros sp Hp. unfold signals_sent.
    destruct (signal_raises env); [simpl; split; split; intros X; [done|by destruct X|done|done]|].
    destruct (returncode sp) as [c|].
    { rewrite bool_decide_eq_true_2 by eauto. simpl. split; split; intros X; try tauto.
      - destruct X as [X|[]]; discriminate.
      - by destruct X as (_ & ? & _). }
    rewrite bool_decide_eq_false_2 by (by intros [? ?]).
    destruct (exit_in_time env) as [c|].
    { simpl. split; split; intros X; try tauto.
      - destruct X as [X|[]]; discriminate.
      - by destruct X as (_ & _ & ? & _). }
    destruct (kill_raises env); simpl; split; split; intros X; try tauto.
    + destruct X as [X|[]]; discriminate.
    + by destruct X as (_ & _ & _ & ?).
Qed.

(** X4: a process object that was started and is then terminated holds no
    descriptor: the slave end, closed by [start], and the master end have
    each been closed once, in that order; the reading task is done; and the
    signals sent are those of [signals_sent], whatever the operating system
    decides. *)
Theorem start_then_terminate_releases senv env sid child :
  launched senv = Some child ->
  exists p1 p2,
    start senv (new_process sid) = (Ok child, p1) /\
    held_fds p1 = [pty_master senv] /\
    terminate env p1 = (Ok tt, p2) /\
    held_fds p2 = [] /\
    closed_fds (os_trace p2) = [pty_slave senv; pty_master senv] /\
    _reading_task p2 = Some TaskDone /\
    signals (os_trace p2) =
      signals_sent env {| pid := child; returncode := None |}.
Proof.
  intros L. unfold start, mbind, modify, ret. rewrite L. cbn [fst snd].
  set (p1 := {| session_id := sid;
                process := Some {| pid := child; returncode := None |};
                _reading_task := Some TaskCreated;
                _master_fd := Some (pty_master senv); _slave_fd := None;
                os_trace := [EvClose (pty_slave senv)] |}).
  exists p1, (snd (terminate env p1)). split; [reflexivity|]. split; [reflexivity|].
  destruct env as [[] [c|] [] k [] []]; cbv; repeat split.
Qed.

Lemma start_then_terminate_releases_witness :
  let senv := {| pty_master := 7%Z; pty_slave := 8%Z; launched := Some 4242%Z |} in
  let env := {| signal_raises := false; exit_in_time := Some 0%Z; kill_raises := false;
                exit_after_kill := (-9)%Z; reader_finishes := false;
                close_raises := true |} in
  exists p1 p2,
    start senv (new_process "s1") = (Ok 4242%Z, p1) /\
    held_fds p1 = [7%Z] /\
    terminate env p1 = (Ok tt, p2) /\
    held_fds p2 = [] /\
    closed_fds (os_trace p2) = [8%Z; 7%Z] /\
    _reading_task p2 = Some TaskDone /\
    signals (os_trace p2) = [SIGTERM].
Proof.
  intros senv env.
  exact (start_then_terminate_releases senv env "s1" 4242%Z eq_refl).
Defined.

(** X5: when the launch fails, [start] raises with both ends of the
    pseudo-terminal open and no process handle; [terminate] then returns at
    once, so neither end is ever closed. *)
Theorem failed_launch_leaks_pty senv sid :
  launched senv = None ->
  exists p1,
    start senv (new_process sid) = (Raise LaunchError, p1) /\
    held_fds p1 = [pty_master senv; pty_slave senv] /\
    closed_fds (os_trace p1) = [] /\
    is_alive p1 = false /\
    forall env, terminate env p1 = (Ok tt, p1).
Proof.
  intros L. unfold start, mbind, modify, raise. rewrite L. simpl.
  eexists. split; [reflexivity|]. by repeat split.
Qed.

Lemma failed_launch_leaks_pty_witness :
  let senv := {| pty_master := 7%Z; pty_slave := 8%Z; launched := None |} in
  exists p1,
    start senv (new_process "s1") = (Raise LaunchError, p1) /\
    held_fds p1 = [7%Z; 8%Z] /\
    closed_fds (os_trace p1) = [] /\
    is_alive p1 = false /\
    forall env, terminate env p1 = (Ok tt, p1).
Proof.
  intros senv. exact (failed_launch_leaks_pty senv "s1" eq_refl).
Defined.

(** X7: after [terminate], [send_input] raises "Process not started or PTY
    not available" and writes nothing; and if neither the signal nor the kill
    raised, [is_alive] is false. *)
Theorem terminated_process_refuses_input env write_fails message p :
  let p' := snd (terminate env p) in
  send_input write_fails message p' = (Raise PtyUnavailable, p') /\
  (signal_raises env = false -> kill_raises env = false -> is_alive p' = false).
Proof.
  intros p'. unfold p'. clear p'.
  destruct (process p) as [sp|] eqn:Hp.
  - destruct (terminate_spec env p) as (q & E & _ & S).
    destruct S as (Pq & Mq & _); [eauto|].
    destruct (terminate_signals env p sp Hp) as (q' & E' & _ & X).
    rewrite E in E'. injection E' as <-. rewrite E. simpl.
    split.
    + unfold send_input. rewrite Mq. by destruct (process q).
    + intros Hs Hk. specialize (X Hs Hk). unfold exited in X. unfold is_alive.
      destruct (process q) as [sq|]; [|done].
      apply bool_decide_eq_true in X as [c Hc]. rewrite Hc.
      by apply bool_decide_eq_false_2.
  - unfold terminate. rewrite Hp. simpl. unfold send_input, is_alive. by rewrite Hp.
Qed.

(** ** The registry: selection, termination, restart, creation, shutdown *)

Lemma update_terminated_lookup d sid now k :
  fst (update_session d sid (Some Session.TERMINATED) None (Some now)) !! k
  = if decide (k = sid) then mark_terminated now <$> d !! sid else d !! k.
Proof.
  unfold update_session. destruct (d !! sid) as [s|] eqn:E; simpl.
  - destruct (decide (k = sid)) as [->|Hne].
    + by rewrite lookup_insert_eq.
    + by rewrite lookup_insert_ne.
  - destruct (decide (k = sid)) as [->|Hne]; [by rewrite E|done].
Qed.

(** X8: [set_active_session] returns True exactly when the session has a
    record that belongs to the user; it then changes nothing but that user's
    selection, and [get_active_session] returns that record, the identifier
    not being the empty string; when it returns False the registry is
    unchanged. *)
Theorem set_active_session_round_trip user_id session_id m :
  let r := set_active_session user_id session_id m in
  (fst r = true <->
   exists s, get_session session_id m = Some s /\ Session.user_id s = user_id) /\
  (fst r = false -> snd r = m) /\
  (fst r = true ->
   db (snd r) = db m /\ sessions (snd r) = sessions m /\
   (session_id <> EmptyString ->
    get_active_session user_id (snd r) = get_session session_id m) /\
   (forall u, u <> user_id ->
    get_active_session u (snd r) = get_active_session u m)).
Proof.
  intros r. unfold r, set_active_session. clear r.
  destruct (get_session session_id m) as [s|] eqn:E.
  2:{ simpl. split; [|done]. split; [done|]. by intros (s & ? & _). }
  destruct (decide (Session.user_id s = user_id)) as [Hu|Hu]; simpl.
  - split; [split; [by eauto|done]|]. split; [done|]. intros _.
    split; [done|]. split; [done|]. split.
    + intros Hne. unfold get_active_session. simpl. rewrite lookup_insert_eq.
      by rewrite decide_False.
    + intros u Hne. unfold get_active_session. simpl.
      by rewrite lookup_insert_ne.
  - split; [|done]. split; [done|]. intros (s' & [= <-] & ?). done.
Qed.

(** X9: after [terminate_session], [send_message] for the identifier raises
    "not found or not running" with no effect, no user has it as active
    session, the other selections, sessions and records are untouched, and
    its record, if any, is marked TERMINATED at the time of the call. *)
Theorem terminated_session_unreachable env now sid m :
  exists m',
    terminate_session env now sid m = Ok (true, m') /\
    (forall senv now' message,
       send_message senv now' sid message m'
       = ([], Raise (SessionNotRunning sid), m')) /\
    (forall u, active_sessions m' !! u <> Some sid) /\
    (forall u a, a <> sid -> active_sessions m !! u = Some a ->
       active_sessions m' !! u = Some a) /\
    (forall k, k <> sid ->
       sessions m' !! k = sessions m !! k /\ db m' !! k = db m !! k) /\
    db m' !! sid = mark_terminated now <$> db m !! sid.
Proof.
  rewrite terminate_session_effect. eexists. split; [reflexivity|].
  cbn [db sessions active_sessions].
  split; [|split; [|split; [|split]]].
  - intros senv now' message. unfold send_message. cbn [db sessions active_sessions].
    by rewrite lookup_delete_eq.
  - intros u E. apply map_lookup_filter_Some in E as [_ N]. by apply N.
  - intros u a Hne E. by apply map_lookup_filter_Some.
  - intros k Hne. rewrite lookup_delete_ne by done. split; [done|].
    rewrite update_terminated_lookup. by rewrite decide_False.
  - rewrite update_terminated_lookup. by rewrite decide_True.
Qed.

(** X10: a second [terminate_session] returns True again and changes neither
    the live map nor the selections; in the table it only refreshes the time
    of the record; called with the same time it leaves the registry as it
    was. *)
Theorem terminate_session_twice env1 env2 now1 now2 sid m :
  exists m1 m2,
    terminate_session env1 now1 sid m = Ok (true, m1) /\
    terminate_session env2 now2 sid m1 = Ok (true, m2) /\
    sessions m2 = sessions m1 /\
    active_sessions m2 = active_sessions m1 /\
    (forall k, db m2 !! k =
       if decide (k = sid) then mark_terminated now2 <$> db m !! sid
       else db m1 !! k) /\
    (now2 = now1 -> m2 = m1).
Proof.
  rewrite terminate_session_effect. eexists. eexists. split; [reflexivity|].
  rewrite terminate_session_effect. split; [reflexivity|].
  cbn [db sessions active_sessions].
  assert (delete sid (delete sid (sessions m)) = delete sid (sessions m)) as Es.
  { apply delete_id, lookup_delete_eq. }
  assert (filter (fun kv : Z * string => kv.2 <> sid)
            (filter (fun kv : Z * string => kv.2 <> sid) (active_sessions m))
          = filter (fun kv : Z * string => kv.2 <> sid) (active_sessions m)) as Ea.
  { apply map_eq. intros u. apply option_eq. intros a.
    rewrite !map_lookup_filter_Some. tauto. }
  assert (forall k,
    fst (update_session
           (fst (update_session (db m) sid (Some Session.TERMINATED) None (Some now1)))
           sid (Some Session.TERMINATED) None (Some now2)) !! k
    = if decide (k = sid) then mark_terminated now2 <$> db m !! sid
      else fst (update_session (db m) sid (Some Session.TERMINATED) None (Some now1)) !! k)
    as Ed.
  { intros k. rewrite !update_terminated_lookup.
    destruct (decide (k = sid)) as [->|Hne]; [|done].
    rewrite decide_True by done. by destruct (db m !! sid). }
  split; [done|]. split; [done|]. split; [done|].
  intros ->. f_equal; [|done|done].
  apply map_eq. intros k. rewrite Ed, update_terminated_lookup.
  by destruct (decide (k = sid)).
Qed.

Lemma update_restarted_lookup d sid now pid k :
  fst (update_session d sid (Some Session.ACTIVE) (Some pid) (Some now)) !! k
  = if decide (k = sid) then mark_restarted now pid <$> d !! sid else d !! k.
Proof.
  unfold update_session. destruct (d !! sid) as [s|] eqn:E; simpl.
  - destruct (decide (k = sid)) as [->|Hne].
    + by rewrite lookup_insert_eq.
    + by rewrite lookup_insert_ne.
  - destruct (decide (k = sid)) as [->|Hne]; [by rewrite E|done].
Qed.

(** The process object a successful [start] leaves. *)
Lemma start_launched senv sid child :
  launched senv = Some child ->
  exists p, start senv (new_process sid) = (Ok child, p) /\
    is_alive p = true /\ held_fds p = [pty_master senv] /\
    process p = Some {| pid := child; returncode := None |} /\
    _master_fd p = Some (pty_master senv).
Proof.
  intros L. unfold start, mbind, modify, ret. rewrite L. simpl.
  eexists. split; [reflexivity|]. by repeat split.
Qed.

Lemma start_not_launched senv sid :
  launched senv = None ->
  exists p, start senv (new_process sid) = (Raise LaunchError, p).
Proof.
  intros L. unfold start, mbind, modify, raise. rewrite L. simpl. by eexists.
Qed.

(** A message sent to a live process whose terminal takes the write. *)
Lemma send_message_live senv now sid message m p d :
  sessions m !! sid = Some p -> is_alive p = true -> _master_fd p = Some d ->
  write_raises senv = false ->
  exists chunks m',
    send_message senv now sid message m = (chunks, Ok tt, m') /\
    chunks <> [] /\
    sessions m' !! sid = Some (log_event (EvWrite d (message ++ [NL])) p).
Proof.
  intros Hs Ha Hm Hw. unfold send_message. rewrite Hs, Ha. simpl.
  unfold send_input. rewrite Hm, Hw.
  unfold is_alive in Ha. destruct (process p) as [sp|]; [|done].
  destruct (delivered senv) as [|c cs]; eexists; eexists;
    (split; [reflexivity|]); (split; [done|]); simpl; by rewrite lookup_insert_eq.
Qed.

(** X11: [restart_session] returns False and changes nothing for an
    identifier without a record; with a record and a successful launch it
    returns True, the live map holds a fresh live process with the master end
    open, the record is ACTIVE with the new pid and time, the selections and
    all other sessions are untouched, and a message then sent is delivered
    to the process. *)
Theorem restart_session_revives tenv senv now sid m :
  (get_session sid m = None ->
   restart_session tenv senv now sid m = (Ok false, m)) /\
  (forall s pid,
     get_session sid m = Some s -> launched senv = Some pid ->
     exists m' p,
       restart_session tenv senv now sid m = (Ok true, m') /\
       sessions m' !! sid = Some p /\ is_alive p = true /\
       held_fds p = [pty_master senv] /\
       db m' !! sid = Some (mark_restarted now pid s) /\
       active_sessions m' = active_sessions m /\
       (forall k, k <> sid ->
          sessions m' !! k = sessions m !! k /\ db m' !! k = db m !! k) /\
       (forall env now' message, write_raises env = false ->
          exists chunks m'',
            send_message env now' sid message m' = (chunks, Ok tt, m'') /\
            chunks <> [])).
Proof.
  unfold restart_session. split; [by intros ->|].
  intros s pid Hs L. rewrite Hs.
  destruct (start_launched senv sid pid L) as (p & Ep & Ha & Hh & Hp & Hm).
  assert (exists live,
    match sessions m !! sid with
    | Some process =>
        let '(r, process') := terminate tenv process in
        (r, <[sid := process']> (sessions m))
    | None => (Ok tt, sessions m)
    end = (Ok tt, live) /\
    forall k, k <> sid -> live !! k = sessions m !! k) as (live & -> & Hlive).
  { destruct (sessions m !! sid) as [q|] eqn:Hq.
    - destruct (terminate_ok tenv q) as (q' & ->). eexists. split; [reflexivity|].
      intros k Hne. by rewrite lookup_insert_ne.
    - by eexists. }
  rewrite Ep.
  set (m' := {| db := fst (update_session (db m) sid (Some Session.ACTIVE)
                             (Some pid) (Some now));
                sessions := <[sid := p]> live;
                active_sessions := active_sessions m |}).
  exists m', p. split; [reflexivity|]. cbn [m' db sessions active_sessions].
  split; [by rewrite lookup_insert_eq|]. split; [done|]. split; [done|].
  split; [rewrite update_restarted_lookup, decide_True by done; unfold get_session in Hs;
          by rewrite Hs|].
  split; [done|]. split.
  - intros k Hne. rewrite lookup_insert_ne by done. split; [by apply Hlive|].
    rewrite update_restarted_lookup. by rewrite decide_False.
  - intros env now' message Hw.
    destruct (send_message_live env now' sid message m' p (pty_master senv))
      as (chunks & m'' & E & N & _); [apply lookup_insert_eq|done|done|done|].
    by exists chunks, m''.
Qed.

(** X12: when the launch fails, [restart_session] raises after the old
    process has been terminated: the live map keeps the old process object,
    which holds no descriptor, the table and the selections are unchanged,
    and every later [send_message] for the identifier raises. *)
Theorem restart_session_failed_launch tenv senv now sid m s :
  get_session sid m = Some s -> launched senv = None ->
  exists m1,
    restart_session tenv senv now sid m = (Raise LaunchError, m1) /\
    db m1 = db m /\ active_sessions m1 = active_sessions m /\
    sessions m1 !! sid = (fun p => snd (terminate tenv p)) <$> sessions m !! sid /\
    (forall p, sessions m1 !! sid = Some p -> is_Some (process p) -> held_fds p = []) /\
    (forall env now' message,
       exists e, send_message env now' sid message m1 = ([], Raise e, m1)).
Proof.
  intros Hs L. unfold restart_session. rewrite Hs.
  destruct (start_not_launched senv sid L) as (pn & Ep).
  destruct (sessions m !! sid) as [q|] eqn:Hq.
  - destruct (terminate_spec tenv q) as (q' & E & N & S). rewrite E, Ep.
    eexists. split; [reflexivity|]. cbn [db sessions active_sessions].
    split; [done|]. split; [done|]. rewrite lookup_insert_eq.
    split; [simpl; by rewrite E|]. split.
    + intros p [= <-] Hp. destruct (process q) as [sq|] eqn:Hpq.
      * destruct S as (_ & Mq & Sq & _); [eauto|]. unfold held_fds. by rewrite Mq, Sq.
      * rewrite (N eq_refl) in Hp. rewrite Hpq in Hp. by destruct Hp.
    + intros env now' message. unfold send_message. cbn [sessions].
      rewrite lookup_insert_eq. destruct (is_alive q') eqn:Ha; simpl; [|by eexists].
      assert (_master_fd q' = None) as Mq.
      { unfold is_alive in Ha. destruct (process q) as [sq|] eqn:Hpq.
        - by destruct S as (_ & Mq & _); [eauto|].
        - rewrite (N eq_refl), Hpq in Ha. done. }
      unfold send_input. rewrite Mq. destruct (process q'); by eexists.
  - rewrite Ep. eexists. split; [reflexivity|]. cbn [db sessions active_sessions].
    split; [done|]. split; [done|]. rewrite Hq. simpl. split; [done|].
    split; [done|]. intros env now' message. unfold send_message. cbn [sessions].
    rewrite Hq. by eexists.
Qed.

Lemma update_pid_lookup d sid pid s :
  d !! sid = Some s ->
  fst (update_session d sid None (Some pid) None)
  = <[sid := {| Session.id := Session.id s; Session.user_id := Session.user_id s;
                Session.workspace_path := Session.workspace_path s;
                Session.status := Session.status s; Session.pid := Some pid;
                Session.last_activity := Session.last_activity s |}]> d.
Proof. intros E. unfold update_session. by rewrite E. Qed.

(** X13: with a fresh identifier and a successful launch, [create_session]
    returns the ACTIVE session with its pid, stores it in the table, makes it
    the user's active session, registers a live process, leaves every other
    entry alone, and a message then sent is written, a newline added, to the
    master end and yields at least one chunk. *)
Theorem create_session_registers env now user_id m pid :
  get_session (new_uuid env) m = None ->
  launched (launch env) = Some pid ->
  new_uuid env <> EmptyString ->
  exists s m' p,
    create_session env now user_id m = (inr s, m') /\
    Session.id s = new_uuid env /\ Session.user_id s = user_id /\
    Session.status s = Session.ACTIVE /\ Session.pid s = Some pid /\
    get_session (new_uuid env) m' = Some s /\
    get_active_session user_id m' = Some s /\
    sessions m' !! new_uuid env = Some p /\ is_alive p = true /\
    (forall k, k <> new_uuid env ->
       sessions m' !! k = sessions m !! k /\ db m' !! k = db m !! k) /\
    (forall u, u <> user_id -> active_sessions m' !! u = active_sessions m !! u) /\
    (forall senv now' message, write_raises senv = false ->
       exists chunks m'',
         send_message senv now' (new_uuid env) message m' = (chunks, Ok tt, m'') /\
         chunks <> [] /\
         sessions m'' !! new_uuid env
         = Some (log_event (EvWrite (pty_master (launch env)) (message ++ [NL])) p)).
Proof.
  intros Hfresh L Hne. unfold create_session, db_create_session. cbn [Session.id].
  unfold get_session in Hfresh. rewrite Hfresh.
  destruct (start_launched (launch env) (new_uuid env) pid L)
    as (p & Ep & Ha & Hh & Hp & Hm).
  rewrite Ep.
  erewrite update_pid_lookup by apply lookup_insert_eq. cbn [Session.id Session.user_id
    Session.workspace_path Session.status Session.last_activity].
  rewrite insert_insert_eq.
  eexists. eexists. exists p. split; [reflexivity|].
  cbn [Session.id Session.user_id Session.status Session.pid db sessions active_sessions].
  split; [done|]. split; [done|]. split; [done|]. split; [done|].
  split; [unfold get_session; cbn [db]; by rewrite lookup_insert_eq|].
  split.
  { unfold get_active_session, get_session. cbn [db active_sessions].
    rewrite lookup_insert_eq, decide_False by done. by rewrite lookup_insert_eq. }
  split; [by rewrite lookup_insert_eq|]. split; [done|].
  split; [intros k Hk; by rewrite !lookup_insert_ne|].
  split; [intros u Hu; by rewrite lookup_insert_ne|].
  intros senv now' message Hw.
  eapply send_message_live; [|exact Ha|exact Hm|exact Hw].
  cbn [sessions]. apply lookup_insert_eq.
Qed.

(** X14: [create_session] changes nothing when the identifier is taken;
    when the launch fails it leaves the record in the table, ACTIVE and
    without a pid, registers no process and selects nothing, so that
    [send_message] for it raises "not found or not running". *)
Theorem create_session_failures env now user_id m :
  (is_Some (get_session (new_uuid env) m) ->
   create_session env now user_id m = (inl IntegrityError, m)) /\
  (get_session (new_uuid env) m = None -> launched (launch env) = None ->
   exists m',
     create_session env now user_id m = (inl (StartError LaunchError), m') /\
     sessions m' = sessions m /\ active_sessions m' = active_sessions m /\
     (exists s, get_session (new_uuid env) m' = Some s /\
                Session.status s = Session.ACTIVE /\ Session.pid s = None) /\
     (forall k, k <> new_uuid env -> db m' !! k = db m !! k) /\
     (sessions m !! new_uuid env = None ->
      forall senv now' message,
        send_message senv now' (new_uuid env) message m'
        = ([], Raise (SessionNotRunning (new_uuid env)), m'))).
Proof.
  unfold create_session, db_create_session, get_session. cbn [Session.id]. split.
  - intros [s ->]. done.
  - intros -> L. destruct (start_not_launched (launch env) (new_uuid env) L) as (p & ->).
    eexists. split; [reflexivity|]. cbn [db sessions active_sessions].
    split; [done|]. split; [done|]. split.
    + eexists. rewrite lookup_insert_eq. by split.
    + split; [intros k Hk; by rewrite lookup_insert_ne|].
      intros Hs senv now' message. unfold send_message. cbn [sessions]. by rewrite Hs.
Qed.

(** ** Shutdown *)

Lemma shutdown_sessions_spec env now ids : NoDup ids -> forall m,
  let m' := shutdown_sessions env now ids m in
  (forall k, sessions m' !! k = if decide (k ∈ ids) then None else sessions m !! k) /\
  (forall u, active_sessions m' !! u =
     a ← active_sessions m !! u; if decide (a ∈ ids) then None else Some a) /\
  (forall k, db m' !! k =
     if decide (k ∈ ids) then mark_terminated (now k) <$> db m !! k else db m !! k).
Proof.
  induction ids as [|sid ids IH]; intros Hnd m.
  - simpl. split; [|split]; intros k; try done.
    + destruct (active_sessions m !! k); [|done]. simpl.
      first [done | by rewrite decide_False by apply not_elem_of_nil].
  - apply NoDup_cons in Hnd as [Hsid Hnd]. cbn [shutdown_sessions].
    rewrite terminate_session_effect.
    set (m1 := {| db := _; sessions := _; active_sessions := _ |}).
    destruct (IH Hnd m1) as (S1 & A1 & D1). cbn zeta.
    split; [|split].
    + intros k. rewrite S1. cbn [m1 sessions].
      destruct (decide (k ∈ ids)) as [I|N].
      * rewrite decide_True; [done|by right].
      * destruct (decide (k = sid)) as [->|Hk].
        -- rewrite decide_True by left. apply lookup_delete_eq.
        -- rewrite decide_False; [by rewrite lookup_delete_ne|].
           intros X. by apply elem_of_cons in X as [?|?].
    + intros u. rewrite A1. cbn [m1 active_sessions].
      destruct (active_sessions m !! u) as [a|] eqn:Ea; simpl.
      * destruct (decide (a = sid)) as [->|Ha].
        -- rewrite decide_True by left.
           assert (filter (fun kv : Z * string => kv.2 <> sid) (active_sessions m) !! u = None) as ->; [|done].
           apply map_lookup_filter_None. right. intros a Ea'. simpl.
           rewrite Ea in Ea'. injection Ea' as <-. tauto.
        -- assert (filter (fun kv : Z * string => kv.2 <> sid) (active_sessions m) !! u = Some a) as ->.
           { by apply map_lookup_filter_Some. }
           simpl. destruct (decide (a ∈ ids)) as [I|N].
           ++ rewrite decide_True; [done|by right].
           ++ rewrite decide_False; [done|].
              intros X. by apply elem_of_cons in X as [?|?].
      * assert (filter (fun kv : Z * string => kv.2 <> sid) (active_sessions m) !! u = None) as ->; [|done].
        apply map_lookup_filter_None. by left.
    + intros k. rewrite D1. cbn [m1 db]. rewrite update_terminated_lookup.
      destruct (decide (k = sid)) as [->|Hk].
      * rewrite decide_False by done. by rewrite decide_True by left.
      * destruct (decide (k ∈ ids)) as [I|N].
        -- rewrite decide_True; [done|by right].
        -- rewrite decide_False; [done|].
           intros X. by apply elem_of_cons in X as [?|?].
Qed.

(** X15: after [shutdown] the live map is empty, the selections left are
    those that named no live session, and the records marked TERMINATED are
    exactly those of the sessions that were live. *)
Theorem shutdown_terminates_all env now m :
  let m' := shutdown env now m in
  sessions m' = ∅ /\
  (forall u a, active_sessions m' !! u = Some a <->
     active_sessions m !! u = Some a /\ sessions m !! a = None) /\
  (forall k, db m' !! k =
     if decide (is_Some (sessions m !! k))
     then mark_terminated (now k) <$> db m !! k else db m !! k).
Proof.
  intros m'. unfold m', shutdown. clear m'.
  assert (forall k, k ∈ (map_to_list (sessions m)).*1 <-> is_Some (sessions m !! k)) as Hk.
  { intros k. rewrite list_elem_of_fmap. split.
    - intros ([k' p] & -> & I). apply elem_of_map_to_list in I. simpl. eauto.
    - intros [p E]. exists (k, p). split; [done|]. by apply elem_of_map_to_list. }
  destruct (shutdown_sessions_spec env now (map_to_list (sessions m)).*1
              (NoDup_fst_map_to_list _) m) as (S1 & A1 & D1).
  split; [|split].
  - apply map_eq. intros k. rewrite S1, lookup_empty.
    destruct (decide (k ∈ _)) as [I|N]; [done|].
    destruct (sessions m !! k) eqn:E; [|done]. destruct N. apply Hk. eauto.
  - intros u a. rewrite A1. destruct (active_sessions m !! u) as [a'|]; simpl.
    + destruct (decide (a' ∈ _)) as [I|N].
      * apply Hk in I. split; [done|]. intros [[= ->] E]. rewrite E in I. by destruct I.
      * split.
        -- intros [= ->]. split; [done|]. destruct (sessions m !! a) eqn:E; [|done].
           destruct N. apply Hk. eauto.
        -- by intros [[= ->] _].
    + split; [done|]. by intros [? _].
  - intros k. rewrite D1. destruct (decide (k ∈ _)) as [I|N].
    + rewrite decide_True; [done|by apply Hk].
    + rewrite decide_False; [done|]. intros X. by apply N, Hk.
Qed.

Lemma create_session_registers_witness :
  let env := {| new_uuid := "s1"; new_workspace := "/workspace/s1";
                launch := {| pty_master := 7%Z; pty_slave := 8%Z;
                             launched := Some 4242%Z |} |} in
  let m := {| db := ∅; sessions := ∅; active_sessions := ∅ |} in
  exists s m',
    create_session env 100%Z 1%Z m = (inr s, m') /\
    Session.pid s = Some 4242%Z /\
    get_active_session 1%Z m' = Some s /\
    exists chunks m'',
      send_message {| write_raises := false; delivered := [lit "ok"] |}
        101%Z "s1" (lit "hi") m' = (chunks, Ok tt, m'') /\ chunks <> [].
Proof.
  intros env m.
  destruct (create_session_registers env 100%Z 1%Z m 4242%Z)
    as (s & m' & p & E & _ & _ & _ & Hpid & _ & Ha & _ & _ & _ & _ & Hsend);
    [reflexivity|reflexivity|discriminate|].
  exists s, m'. split; [exact E|]. split; [exact Hpid|]. split; [exact Ha|].
  destruct (Hsend {| write_raises := false; delivered := [lit "ok"] |} 101%Z (lit "hi")
              eq_refl) as (chunks & m'' & Es & N & _).
  by exists chunks, m''.
Defined.

Lemma restart_session_failed_launch_witness :
  let s := {| Session.id := "s1"; Session.user_id := 1%Z;
              Session.workspace_path := "/workspace/s1";
              Session.status := Session.ACTIVE; Session.pid := Some 4242%Z;
              Session.last_activity := 100%Z |} in
  let p := snd (start {| pty_master := 7%Z; pty_slave := 8%Z; launched := Some 4242%Z |}
                  (new_process "s1")) in
  let m := {| db := {["s1" := s]}; sessions := {["s1" := p]}; active_sessions := ∅ |} in
  let tenv := {| signal_raises := false; exit_in_time := Some 0%Z; kill_raises := false;
                 exit_after_kill := (-9)%Z; reader_finishes := true;
                 close_raises := false |} in
  let senv := {| pty_master := 9%Z; pty_slave := 10%Z; launched := None |} in
  exists m1,
    restart_session tenv senv 200%Z "s1" m = (Raise LaunchError, m1) /\
    db m1 = db m /\
    exists e, send_message {| write_raises := false; delivered := [] |}
                201%Z "s1" (lit "hi") m1 = ([], Raise e, m1).
Proof.
  intros s p m tenv senv.
  destruct (restart_session_failed_launch tenv senv 200%Z "s1" m s)
    as (m1 & E & Hd & _ & _ & _ & Hsend); [by vm_compute|reflexivity|].
  exists m1. split; [exact E|]. split; [exact Hd|]. apply Hsend.
Defined.

(** ** What a match records, and the options of a parsed prompt *)

Section Captures.
Context `{UnicodeDB}.

Lemma captures_matches r : forall prev u rest g g',
  captures r prev u rest g g' -> matches r prev u rest.
Proof.
  induction r as [cs|a IHa b IHb|a IHa b IHb|cs|cs|cs|a IHa|i a IHa| | | | |];
    intros prev u rest g g'; simpl; try tauto.
  - intros (u1 & u2 & g1 & -> & Ha & Hb). exists u1, u2. eauto.
  - intros [Ha|Hb]; eauto.
  - intros [[-> _]|Ha]; eauto.
  - intros (g1 & Ha & _). eauto.
Qed.

Lemma star_greedy_groups {R} cs (k : cont R) s : forall prev n g x,
  star_greedy cs prev s n g k = Some x ->
  exists u rest, s = u ++ rest /\ Forall (fun c => in_class cs c = true) u /\
                 k (last_seen prev u) rest (n + length u)%nat g = Some x.
Proof.
  induction s as [|c s IH]; intros prev n g x; simpl.
  - intros E. exists [], []. simpl. rewrite Nat.add_0_r. by repeat split.
  - assert (k prev (c :: s) n g = Some x ->
            exists u rest, c :: s = u ++ rest /\
              Forall (fun c => in_class cs c = true) u /\
              k (last_seen prev u) rest (n + length u)%nat g = Some x) as Hk.
    { intros E. exists [], (c :: s). simpl. rewrite Nat.add_0_r. by repeat split. }
    destruct (in_class cs c) eqn:Hc; [|done].
    destruct (star_greedy cs (Some c) s (S n) g k) eqn:E; [|done].
    intros [= ->]. apply IH in E. destruct E as (u & rest & -> & Hu & E).
    exists (c :: u), rest. split; [done|]. split; [by constructor|].
    rewrite last_seen_cons. simpl. by rewrite <- Nat.add_succ_comm.
Qed.

Lemma star_lazy_groups {R} cs (k : cont R) s : forall prev n g x,
  star_lazy cs prev s n g k = Some x ->
  exists u rest, s = u ++ rest /\ Forall (fun c => in_class cs c = true) u /\
                 k (last_seen prev u) rest (n + length u)%nat g = Some x.
Proof.
  induction s as [|c s IH]; intros prev n g x; simpl.
  - destruct (k prev [] n g) eqn:E; [|done]. intros [= ->].
    exists [], []. simpl. rewrite Nat.add_0_r. by repeat split.
  - destruct (k prev (c :: s) n g) eqn:E.
    + intros [= ->]. exists [], (c :: s). simpl. rewrite Nat.add_0_r. by repeat split.
    + destruct (in_class cs c) eqn:Hc; [|done]. intros E'.
      apply IH in E'. destruct E' as (u & rest & -> & Hu & E').
      exists (c :: u), rest. split; [done|]. split; [by constructor|].
      rewrite last_seen_cons. simpl. by rewrite <- Nat.add_succ_comm.
Qed.

(** The matcher hands its continuation the groups the match records. *)
Lemma rmatch_captures {R} r : forall (k : cont R) prev s n g x,
  rmatch r prev s n g k = Some x ->
  exists u rest g', s = u ++ rest /\ captures r prev u rest g g' /\
                    k (last_seen prev u) rest (n + length u)%nat g' = Some x.
Proof.
  induction r as [cs|a IHa b IHb|a IHa b IHb|cs|cs|cs|a IHa|i a IHa| | | | |];
    intros k prev s n g x; simpl.
  - destruct s as [|c s]; [done|]. destruct (in_class cs c) eqn:Hc; [|done].
    intros E. exists [c], s, g. split; [done|]. split; [split; [by exists c|done]|].
    by rewrite Nat.add_1_r.
  - intros E. apply IHa in E. destruct E as (u1 & rest1 & g1 & -> & H1 & E).
    apply IHb in E. destruct E as (u2 & rest & g2 & -> & H2 & E).
    exists (u1 ++ u2), rest, g2. split; [by rewrite app_assoc|].
    split; [by exists u1, u2, g1|].
    by rewrite last_seen_app, length_app, Nat.add_assoc.
  - destruct (rmatch a prev s n g k) eqn:E.
    + intros [= ->]. apply IHa in E. destruct E as (u & rest & g' & -> & Hu & E).
      exists u, rest, g'. repeat split; [by left|done].
    + intros E'. apply IHb in E'. destruct E' as (u & rest & g' & -> & Hu & E').
      exists u, rest, g'. repeat split; [by right|done].
  - intros E. apply star_greedy_groups in E as (u & rest & -> & Hu & E).
    by exists u, rest, g.
  - destruct s as [|c s]; [done|]. destruct (in_class cs c) eqn:Hc; [|done].
    intros E. apply star_greedy_groups in E as (u & rest & -> & Hu & E).
    exists (c :: u), rest, g. split; [done|].
    split; [split; [split; [done|by constructor]|done]|].
    rewrite last_seen_cons. simpl. by rewrite <- Nat.add_succ_comm.
  - destruct s as [|c s]; [done|]. destruct (in_class cs c) eqn:Hc; [|done].
    intros E. apply star_lazy_groups in E as (u & rest & -> & Hu & E).
    exists (c :: u), rest, g. split; [done|].
    split; [split; [split; [done|by constructor]|done]|].
    rewrite last_seen_cons. simpl. by rewrite <- Nat.add_succ_comm.
  - destruct (rmatch a prev s n g k) eqn:E.
    + intros [= ->]. apply IHa in E. destruct E as (u & rest & g' & -> & Hu & E).
      exists u, rest, g'. repeat split; [by right|done].
    + intros E'. exists [], s, g. simpl. rewrite Nat.add_0_r. repeat split; [by left|done].
  - intros E. apply IHa in E. destruct E as (u & rest & g' & -> & Hu & E).
    exists u, rest, ((i, u) :: g'). split; [done|]. split; [by exists g'|].
    replace (n + length u - n)%nat with (length u) in E by lia.
    by rewrite take_app_length in E.
  - destruct (at_bol prev) eqn:A; [|done]. intros E.
    exists [], s, g. simpl. rewrite Nat.add_0_r. by repeat split.
  - destruct (at_eol s) eqn:A; [|done]. intros E.
    exists [], s, g. simpl. rewrite Nat.add_0_r. by repeat split.
  - destruct prev; [done|]. intros E.
    exists [], s, g. simpl. rewrite Nat.add_0_r. by repeat split.
  - destruct (at_eos s) eqn:A; [|done]. intros E.
    exists [], s, g. simpl. rewrite Nat.add_0_r. by repeat split.
  - destruct (at_wordb prev s) eqn:A; [|done]. intros E.
    exists [], s, g. simpl. rewrite Nat.add_0_r. by repeat split.
Qed.

Lemma exec_captures r adv prev s n g :
  exec r adv prev s = Some (n, g) ->
  exists u rest, s = u ++ rest /\ n = length u /\ captures r prev u rest [] g.
Proof.
  intros E. apply rmatch_captures in E. destruct E as (u & rest & g' & -> & Hu & E).
  simpl in E. destruct (adv && _); [done|]. injection E as <- <-.
  by exists u, rest.
Qed.

(** Every match [finditer] reports comes from a match attempt. *)
Lemma finditer_from_elem r s : forall prev skip m,
  m ∈ finditer_from r prev s skip ->
  exists adv prev' s' n, exec r adv prev' s' = Some (n, snd m).
Proof.
  induction s as [|c s IH]; intros prev skip m; simpl.
  - destruct skip; [|by intros ?%elem_of_nil].
    destruct (exec r false prev []) as [[n g]|] eqn:E; [|by intros ?%elem_of_nil].
    intros ->%list_elem_of_singleton. by exists false, prev, [], n.
  - destruct skip as [|k]; [|apply IH].
    destruct (exec r false prev (c :: s)) as [[[|n] g]|] eqn:E; [| |apply IH].
    + intros [->|I]%elem_of_cons; [by exists false, prev, (c :: s), 0%nat|].
      destruct (exec r true prev (c :: s)) as [[[|n'] g']|] eqn:E'; try by eapply IH.
      apply elem_of_cons in I as [->|I]; [|by eapply IH].
      by exists true, prev, (c :: s), (S n').
    + intros [->|I]%elem_of_cons; [|by eapply IH].
      by exists false, prev, (c :: s), (S n).
Qed.

(** The groups of a match of the parser's pattern: the label is a run of
    decimal digits, the option text a run of characters other than the
    newline, neither empty. *)
Lemma parser_groups adv prev s n g :
  exec parser_option_pattern adv prev s = Some (n, g) ->
  group 1 g <> [] /\ Forall (fun c => uni_isdecimal c = true) (group 1 g) /\
  group 2 g <> [] /\ Forall (fun c => c <> NL) (group 2 g).
Proof.
  intros E. apply exec_captures in E as (u & rest & -> & -> & C).
  unfold parser_option_pattern, rchar in C. cbn [captures matches] in C.
  destruct C as (u0 & v0 & g0 & -> & [_ ->] & u1 & v1 & g1 & -> & [_ ->]
                 & u2 & v2 & g2 & -> & [_ ->]
                 & u3 & v3 & g3 & -> & (g3' & [[N3 H3] ->] & ->)
                 & u4 & v4 & g4 & -> & [_ ->]
                 & u5 & v5 & g5 & -> & [_ ->]
                 & u6 & v6 & g6 & -> & (g6' & [[N6 H6] ->] & ->)
                 & u7 & v7 & g7 & -> & H7 & u8 & u9 & g8 & -> & [_ ->] & [_ ->]).
  assert (g7 = [(2%nat, u6); (1%nat, u3)]) as ->.
  { destruct H7 as [[_ ->]|(a & b & ga & -> & [_ ->] & [_ ->])]; done. }
  simpl. split; [done|]. split.
  - eapply Forall_impl; [exact H3|]. intros c Hc. simpl in Hc. by rewrite orb_false_r in Hc.
  - split; [done|]. eapply Forall_impl; [exact H6|]. intros c Hc. simpl in Hc.
    rewrite orb_false_r in Hc. apply negb_true_iff, Z.eqb_neq in Hc. done.
Qed.

End Captures.

(** ** Stripping *)

Lemma lstrip_head s :
  lstrip s = [] \/ exists c s', lstrip s = c :: s' /\ is_space c = false.
Proof.
  induction s as [|c s IH]; simpl; [by left|].
  destruct (is_space c) eqn:E; [done|]. right. by exists c, s.
Qed.

Lemma lstrip_fixed c s : is_space c = false -> lstrip (c :: s) = c :: s.
Proof. intros E. simpl. by rewrite E. Qed.

Lemma lstrip_idemp s : lstrip (lstrip s) = lstrip s.
Proof.
  destruct (lstrip_head s) as [->|(c & s' & -> & E)]; [done|]. by apply lstrip_fixed.
Qed.

Lemma lstrip_snoc a c : is_space c = false -> lstrip (a ++ [c]) = lstrip a ++ [c].
Proof.
  intros E. induction a as [|b a IH]; simpl; [by rewrite E|].
  by destruct (is_space b).
Qed.

Lemma rstrip_cons c s : is_space c = false -> rstrip (c :: s) = c :: rstrip s.
Proof.
  intros E. unfold rstrip. simpl. rewrite lstrip_snoc by done.
  by rewrite rev_app_distr.
Qed.

Lemma rstrip_idemp s : rstrip (rstrip s) = rstrip s.
Proof. unfold rstrip. by rewrite rev_involutive, lstrip_idemp. Qed.

(** The stripped text is empty or begins with a character that is not
    whitespace. *)
Lemma strip_head s :
  strip s = [] \/ exists c s', strip s = c :: s' /\ is_space c = false.
Proof.
  unfold strip. destruct (lstrip_head s) as [->|(c & s' & -> & E)]; [by left|].
  right. rewrite rstrip_cons by done. by exists c, (rstrip s').
Qed.

Lemma strip_idemp s : strip (strip s) = strip s.
Proof.
  destruct (lstrip_head s) as [E|(c & s' & E & Hc)].
  - assert (strip s = []) as -> by (unfold strip; by rewrite E). done.
  - assert (strip s = c :: rstrip s') as ->.
    { unfold strip. rewrite E. by apply rstrip_cons. }
    unfold strip. rewrite lstrip_fixed by done. by rewrite rstrip_cons, rstrip_idemp.
Qed.

Lemma Forall_strip (P : cp -> Prop) s : Forall P s -> Forall P (strip s).
Proof.
  intros Hs. destruct (strip_decompose s) as (pre & post & E & _).
  rewrite E in Hs. apply Forall_app in Hs as [_ Hs]. by apply Forall_app in Hs as [Hs _].
Qed.

Lemma strip_length s : (length (strip s) <= length s)%nat.
Proof.
  destruct (strip_decompose s) as (pre & post & E & _).
  rewrite E at 2. rewrite !length_app. lia.
Qed.

(** A text that begins and ends with characters that are not whitespace is
    its own stripped text. *)
Lemma strip_fixed s :
  (forall c, head s = Some c -> is_space c = false) ->
  (forall c, last s = Some c -> is_space c = false) ->
  strip s = s.
Proof.
  intros Hh Hl. destruct s as [|c s]; [done|].
  unfold strip. rewrite lstrip_fixed by (by apply Hh).
  unfold rstrip.
  destruct (rev (c :: s)) as [|d r] eqn:Er.
  { apply (f_equal (@rev Z)) in Er. rewrite rev_involutive in Er. done. }
  assert (last (c :: s) = Some d) as Ld.
  { rewrite <- (rev_involutive (c :: s)), Er. simpl. by rewrite last_snoc. }
  rewrite lstrip_fixed by (by apply Hl). by rewrite <- Er, rev_involutive.
Qed.

Lemma strip_last s c : last (strip s) = Some c -> is_space c = false.
Proof.
  unfold strip, rstrip. intros L.
  destruct (lstrip_head (rev (lstrip s))) as [E|(d & r & E & Hd)]; rewrite E in L.
  - done.
  - simpl in L. rewrite last_snoc in L. by injection L as <-.
Qed.

Section ParserOptions.
Context `{UnicodeDB}.


Lemma option_of_match_well_formed r s m :
  r = parser_option_pattern ->
  m ∈ finditer r s -> long_enough m = true ->
  well_formed_option (option_of_match m).
Proof.
  intros -> I L. apply finditer_from_elem in I as (adv & prev & s' & n & E).
  apply parser_groups in E as (N1 & D1 & N2 & D2).
  unfold well_formed_option, option_of_match. simpl.
  split; [done|]. split; [done|]. split; [done|]. split.
  - unfold long_enough in L. apply negb_true_iff, Nat.ltb_ge in L. exact L.
  - split; [apply strip_idemp|by apply Forall_strip].
Qed.

(** X16: a parsed prompt has at least one option, and every option has a
    label of one or more decimal digits, the callback data "opt_" followed by
    the label, and a text of two characters or more without a newline and
    without whitespace at either end. *)
Theorem parsed_options_well_formed t p :
  parse_prompt t = Some p ->
  options p <> [] /\ Forall well_formed_option (options p).
Proof.
  intros E. unfold parse_prompt in E.
  destruct (negb (has_indicator _)); [done|].
  destruct (collect_options _) as [|o os] eqn:Eo; [done|].
  injection E as <-. simpl. split; [done|]. rewrite <- Eo.
  rewrite collect_options_filter. apply Forall_forall. intros o' I.
  apply list_elem_of_fmap in I as (m & -> & I).
  apply list_elem_of_In, filter_In in I as [I L]. apply list_elem_of_In in I.
  by eapply option_of_match_well_formed.
Qed.

End ParserOptions.

Lemma parsed_options_well_formed_witness :
  let t := lit "Choose:" ++ [NL] ++ lit "  1. yes  " ++ [NL] ++ lit "2) no" in
  exists p, @parse_prompt basic_unicode t = Some p /\
    map (fun o => (number o, text o)) (options p) = [(lit "1", lit "yes")] /\
    Forall (@well_formed_option basic_unicode) (options p).
Proof.
  intros t.
  destruct (@parse_prompt basic_unicode t) as [p|] eqn:E; [|by vm_compute in E].
  exists p. split; [done|].
  split; [vm_compute in E; injection E as <-; reflexivity|].
  exact (proj2 (@parsed_options_well_formed basic_unicode t p E)).
Defined.

(** ** The question of a parsed prompt *)

Section ClassSub.
Context `{UnicodeDB}.

(** Substituting a one-character class away filters its characters out. *)
Lemma sub_class cs s : forall prev,
  sub_from (RCls cs) prev s 0 = List.filter (fun c => negb (in_class cs c)) s.
Proof.
  induction s as [|c s IH]; intros prev; [done|].
  cbn [sub_from List.filter]. unfold exec. cbn [rmatch].
  destruct (in_class cs c); cbn; by rewrite IH.
Qed.

Lemma search_class cs s : forall prev,
  Forall (fun c => in_class cs c = false) s -> search_from (RCls cs) prev s = None.
Proof.
  induction s as [|c s IH]; intros prev Hs; [done|].
  apply Forall_cons in Hs as [Hc Hs]. cbn [search_from]. unfold exec. cbn [rmatch].
  rewrite Hc. by apply IH.
Qed.

End ClassSub.

Lemma Forall_list_filter {A} (P : A -> Prop) f (l : list A) :
  Forall P l -> Forall P (List.filter f l).
Proof.
  rewrite !Forall_forall. intros Hl x I.
  apply list_elem_of_In, filter_In in I as [I _]. by apply Hl, list_elem_of_In.
Qed.

(** ** Lines *)

Lemma split_lines_aux_plain l : forall cur s,
  Forall (fun c => c <> NL) l ->
  split_lines_aux cur (l ++ s) = split_lines_aux (rev l ++ cur) s.
Proof.
  induction l as [|c l IH]; intros cur s Hl; [done|].
  apply Forall_cons in Hl as [Hc Hl]. simpl.
  apply Z.eqb_neq in Hc. rewrite Hc. rewrite IH by done.
  by rewrite <- app_assoc.
Qed.

Lemma split_lines_aux_lines s : forall cur,
  Forall (fun c => c <> NL) cur ->
  Forall (Forall (fun c => c <> NL)) (split_lines_aux cur s).
Proof.
  induction s as [|c s IH]; intros cur Hc; simpl.
  - apply Forall_singleton. by apply Forall_rev.
  - destruct (c =? NL)%Z eqn:E.
    + apply Forall_cons. split; [by apply Forall_rev|]. by apply IH.
    + apply IH. apply Forall_cons. split; [by apply Z.eqb_neq|done].
Qed.

Lemma split_lines_plain s : Forall (Forall (fun c => c <> NL)) (split_lines s).
Proof. by apply split_lines_aux_lines. Qed.

(** Splitting what was joined gives the lines back. *)
Lemma split_join_lines ls :
  ls <> [] -> Forall (Forall (fun c => c <> NL)) ls ->
  split_lines (join_lines ls) = ls.
Proof.
  induction ls as [|l ls IH]; intros Hne Hls; [done|].
  apply Forall_cons in Hls as [Hl Hls]. unfold split_lines in *.
  destruct ls as [|l' ls].
  - simpl. rewrite <- (app_nil_r l) at 1. rewrite split_lines_aux_plain by done.
    simpl. by rewrite app_nil_r, rev_involutive.
  - change (join_lines (l :: l' :: ls)) with (l ++ NL :: join_lines (l' :: ls)).
    rewrite split_lines_aux_plain by done. cbn [split_lines_aux].
    rewrite Z.eqb_refl, app_nil_r, rev_involutive. f_equal. by apply IH.
Qed.

Lemma join_lines_Forall (P : cp -> Prop) ls :
  P NL -> Forall (Forall P) ls -> Forall P (join_lines ls).
Proof.
  intros HP. induction ls as [|l ls IH]; intros Hls; [done|].
  apply Forall_cons in Hls as [Hl Hls]. destruct ls as [|l' ls]; [done|].
  change (join_lines (l :: l' :: ls)) with (l ++ NL :: join_lines (l' :: ls)).
  apply Forall_app. split; [done|]. apply Forall_cons. split; [done|]. by apply IH.
Qed.

Lemma join_lines_head l ls c : head l = Some c -> head (join_lines (l :: ls)) = Some c.
Proof. destruct l as [|d l]; [done|]. intros [= ->]. by destruct ls. Qed.

Lemma join_lines_last ls l c :
  last ls = Some l -> last l = Some c -> last (join_lines ls) = Some c.
Proof.
  induction ls as [|l0 ls IH]; intros Hl Hc; [done|].
  destruct ls as [|l1 ls].
  - simpl in Hl. by injection Hl as ->.
  - change (join_lines (l0 :: l1 :: ls)) with (l0 ++ NL :: join_lines (l1 :: ls)).
    change (last (l0 :: l1 :: ls)) with (last (l1 :: ls)) in Hl.
    specialize (IH Hl Hc). rewrite last_app, last_cons, IH. done.
Qed.

Section ParserQuestion.
Context `{UnicodeDB}.

Lemma collect_question_lines_kept lines :
  Forall (Forall (fun c => c <> NL)) lines ->
  Forall kept_line (collect_question_lines lines).
Proof.
  induction lines as [|line lines IH]; intros Hl; [done|].
  apply Forall_cons in Hl as [Hline Hl]. specialize (IH Hl).
  cbn [collect_question_lines].
  destruct (strip (re_sub_empty box_drawing line)) as [|c l] eqn:E; [done|].
  destruct (negb (bool_decide (is_Some (re_match option_line_pattern (c :: l))))) eqn:E1;
    [|done].
  destruct (negb (contains (lit "Enter to confirm") (c :: l))) eqn:E2; [|done].
  destruct (negb (contains (lit "Esc to exit") (c :: l))) eqn:E3; [|done].
  destruct (3 <? length (c :: l))%nat eqn:E4; [|done].
  cbn [andb]. apply Forall_cons. split; [|done].
  unfold re_sub_empty, box_drawing in E. rewrite sub_class in E.
  split; [done|]. split; [rewrite <- E; apply strip_idemp|].
  split; [rewrite <- E; apply Forall_strip; by apply Forall_list_filter|].
  split.
  - rewrite <- E. apply Forall_strip. apply Forall_forall. intros x I.
    apply list_elem_of_In, filter_In in I as [_ I]. by apply negb_true_iff in I.
  - split; [by apply Nat.ltb_lt|]. split.
    + apply negb_true_iff, bool_decide_eq_false in E1.
      destruct (re_match option_line_pattern (c :: l)); [|done]. destruct E1. eauto.
    + split; by apply negb_true_iff.
Qed.

Lemma kept_lines_joined ls :
  ls <> [] -> Forall kept_line ls ->
  strip (join_lines ls) = join_lines ls /\
  split_lines (join_lines ls) = ls /\
  re_search box_drawing (join_lines ls) = false.
Proof.
  intros Hne Hls. split; [|split].
  - apply strip_fixed.
    + destruct ls as [|l ls]; [done|]. apply Forall_cons in Hls as [(N & S & _) _].
      destruct l as [|c l]; [done|]. intros d Hd.
      rewrite (join_lines_head (c :: l) ls c) in Hd by done. injection Hd as <-.
      destruct (strip_head (c :: l)) as [E|(c' & l' & E & Hc)]; rewrite S in E; [done|].
      by injection E as <- _.
    + intros d Hd. destruct (last ls) as [l|] eqn:El.
      2:{ by apply last_None in El. }
      assert (kept_line l) as (N & S & _).
      { rewrite Forall_forall in Hls. apply Hls. by apply last_Some_elem_of. }
      destruct (last l) as [e|] eqn:Ee.
      2:{ by apply last_None in Ee. }
      rewrite (join_lines_last ls l e El Ee) in Hd. injection Hd as <-.
      rewrite <- S in Ee. by apply strip_last in Ee.
  - apply split_join_lines; [done|]. eapply Forall_impl; [exact Hls|].
    by intros l (_ & _ & ? & _).
  - unfold re_search, box_drawing. rewrite search_class; [done|].
    apply join_lines_Forall; [done|]. eapply Forall_impl; [exact Hls|].
    by intros l (_ & _ & _ & ? & _).
Qed.

(** X17: the question of a parsed prompt has ten characters or more, no
    whitespace at either end, none of the eleven frame characters of
    [box_drawing] that line 83 removes (any other character, the double
    frame U+2551 for one, stays) and at most six lines; it is the generic
    question, or each of its lines is longer than three characters, is no
    option line and holds neither "Enter to confirm" nor "Esc to exit". *)
Theorem parsed_question_well_formed t p :
  parse_prompt t = Some p ->
  (10 <= length (question p))%nat /\
  strip (question p) = question p /\
  re_search box_drawing (question p) = false /\
  (length (split_lines (question p)) <= 6)%nat /\
  (question p = generic_question \/ Forall question_line (split_lines (question p))).
Proof.
  intros E. unfold parse_prompt in E.
  destruct (negb (has_indicator _)); [done|].
  destruct (collect_options _) as [|o os]; [done|].
  injection E as <-. cbn [question].
  set (ls := firstn 6 (collect_question_lines (split_lines (re_sub_empty esc_sequence t)))).
  destruct (length (strip (join_lines ls)) <? 10)%nat eqn:Hshort.
  { split; [vm_compute; lia|]. split; [by vm_compute|]. split; [by vm_compute|].
    split; [vm_compute; lia|by left]. }
  apply Nat.ltb_ge in Hshort.
  assert (Forall kept_line ls) as Hls.
  { apply Forall_take, collect_question_lines_kept, split_lines_plain. }
  assert (ls <> []) as Hne.
  { intros X. rewrite X in Hshort. simpl in Hshort. lia. }
  destruct (kept_lines_joined ls Hne Hls) as (S & J & B).
  rewrite S. split; [by rewrite S in Hshort|]. split; [done|]. split; [done|].
  rewrite J. split.
  - unfold ls. rewrite length_take. lia.
  - right. eapply Forall_impl; [exact Hls|]. by intros l (_ & _ & _ & _ & ?).
Qed.

End ParserQuestion.

Lemma parsed_question_well_formed_witness :
  let t := [BOX_V] ++ lit " Do you trust this folder? " ++ [BOX_V; NL]
           ++ lit "1. Yes, proceed" ++ [NL] ++ lit "2. No, exit" ++ [NL]
           ++ lit "Enter to confirm" in
  exists p, @parse_prompt basic_unicode t = Some p /\
    question p = lit "Do you trust this folder?" /\
    (10 <= length (question p))%nat /\
    @re_search basic_unicode box_drawing (question p) = false /\
    Forall (@question_line basic_unicode) (split_lines (question p)).
Proof.
  intros t.
  destruct (@parse_prompt basic_unicode t) as [p|] eqn:E; [|by vm_compute in E].
  exists p. split; [done|].
  assert (question p = lit "Do you trust this folder?") as Q.
  { vm_compute in E. injection E as <-. reflexivity. }
  split; [exact Q|].
  destruct (@parsed_question_well_formed basic_unicode t p E) as (L & _ & B & _ & [G|F]).
  - rewrite Q in G. by vm_compute in G.
  - by repeat split.
Defined.

(** The double frame U+2551 is not in the class of line 83: it stays in the
    question. *)
Example double_frame_question :
  let t := [9553%Z] ++ lit " Do you trust this folder? " ++ [9553%Z; NL]
           ++ lit "1. Yes, proceed" ++ [NL] ++ lit "2. No, exit" in
  exists p, @parse_prompt basic_unicode t = Some p /\
    question p = [9553%Z] ++ lit " Do you trust this folder? " ++ [9553%Z].
Proof. eexists. split; [vm_compute; reflexivity|]. by vm_compute. Qed.

(** ** The summary of a response *)

Lemma strip_blank s : Forall (fun c => is_space c = true) s -> strip s = [].
Proof.
  intros Hs. destruct (strip s) as [|c r] eqn:E; [done|].
  assert (nonblank s) as N by (apply strip_nonblank; by rewrite E).
  apply Exists_exists in N as (x & I & Hx). rewrite Forall_forall in Hs.
  specialize (Hs x I). congruence.
Qed.

Lemma split_lines_aux_nonblank s : forall cur,
  nonblank cur \/ nonblank s -> Exists nonblank (split_lines_aux cur s).
Proof.
  induction s as [|c s IH]; intros cur Hn; simpl.
  - apply Exists_cons. left. apply nonblank_rev.
    destruct Hn as [?|Hn]; [done|]. by apply Exists_nil in Hn.
  - destruct (c =? NL)%Z eqn:E.
    + apply Z.eqb_eq in E. subst c. destruct Hn as [Hn|Hn].
      * apply Exists_cons. left. by apply nonblank_rev.
      * apply Exists_cons. right. apply IH. right.
        by apply (nonblank_cons_space NL s eq_refl).
    + apply IH. destruct Hn as [Hn|Hn].
      * left. apply Exists_cons. by right.
      * apply Exists_cons in Hn as [Hc|Hn]; [|by right].
        left. apply Exists_cons. by left.
Qed.

Section SummaryProps.
Context `{UnicodeDB}.

Lemma exec_esc_other adv prev c s :
  c <> ESC -> exec esc_sequence adv prev (c :: s) = None.
Proof.
  intros Hc. unfold exec, esc_sequence, rchar. cbn [rmatch]. simpl.
  apply Z.eqb_neq in Hc. by rewrite Hc.
Qed.

(** Text without ESC holds no escape sequence. *)
Lemma clean_plain s :
  Forall (fun c => c <> ESC) s -> re_sub_empty esc_sequence s = s.
Proof.
  intros Hs. apply sub_from_no_match. generalize (@None cp).
  induction s as [|c s IH]; intros prev; [done|].
  apply Forall_cons in Hs as [Hc Hs]. cbn [search_from].
  rewrite exec_esc_other by done. by apply IH.
Qed.

Lemma meaningful_lines_spec s :
  Forall (fun l => l <> [] /\ strip l = l /\ Forall (fun c => c <> NL) l)
         (meaningful_lines s) /\
  (nonblank s -> meaningful_lines s <> []).
Proof.
  unfold meaningful_lines. split.
  - apply Forall_forall. intros l I. apply list_elem_of_fmap in I as (line & -> & I).
    apply list_elem_of_In, filter_In in I as [I Hl]. apply list_elem_of_In in I.
    split; [by destruct (strip line)|]. split; [apply strip_idemp|].
    apply Forall_strip. pose proof (split_lines_plain s) as P.
    rewrite Forall_forall in P. by apply P.
  - intros N. pose proof (split_lines_aux_nonblank s [] (or_intror N)) as X.
    apply Exists_exists in X as (line & I & Hl).
    apply strip_nonblank in Hl.
    assert (line ∈ List.filter
              (fun line => match strip line with [] => false | _ => true end)
              (split_lines s)) as I'.
    { apply list_elem_of_In, filter_In. split; [by apply list_elem_of_In|].
      by destruct (strip line). }
    intros E. apply fmap_nil_inv in E. rewrite E in I'. by apply elem_of_nil in I'.
Qed.

(** X18: a text of whitespace only, the empty text included, is classified
    INFO and summarised as "(empty response)" whatever type is passed. *)
Theorem blank_response_summary t :
  Forall (fun c => is_space c = true) t ->
  classify_response t = INFO /\
  forall response_type, get_response_summary t response_type = lit "(empty response)".
Proof.
  intros Hs.
  assert (strip (re_sub_empty esc_sequence t) = []) as E.
  { rewrite clean_plain; [by apply strip_blank|].
    eapply Forall_impl; [exact Hs|]. intros c Hc ->. done. }
  unfold classify_response, get_response_summary. rewrite E. by split.
Qed.

End SummaryProps.

Lemma blank_response_summary_witness :
  let t := [32; 9; 10; 32]%Z in
  @classify_response basic_unicode t = INFO /\
  @get_response_summary basic_unicode t ERROR = lit "(empty response)".
Proof.
  intros t.
  destruct (@blank_response_summary basic_unicode t) as [C S].
  - by repeat constructor.
  - split; [exact C|apply S].
Defined.

(** ** Decimal rendering *)

Lemma lit_cons a x : lit (String a x) = Z.of_N (N_of_ascii a) :: lit x.
Proof. reflexivity. Qed.

Lemma string_of_uint_digits d :
  Forall (fun c => (48 <= c <= 57)%Z) (lit (NilEmpty.string_of_uint d)).
Proof.
  induction d; cbn [NilEmpty.string_of_uint]; [constructor|..];
    rewrite lit_cons; (apply Forall_cons; split; [by vm_compute|done]).
Qed.

(** A count is written with decimal digits, at least one. *)
Lemma str_of_nat_digits n :
  str_of_nat n <> [] /\ Forall (fun c => (48 <= c <= 57)%Z) (str_of_nat n).
Proof.
  unfold str_of_nat, NilZero.string_of_uint.
  destruct (Nat.to_uint n) as [|d|d|d|d|d|d|d|d|d|d] eqn:E;
    (split; [done|]);
    try (rewrite <- E; apply string_of_uint_digits).
  repeat constructor; by vm_compute.
Qed.

Lemma forallb_Forall {A} (f : A -> bool) (P : A -> Prop) l :
  (forall x, f x = true -> P x) -> forallb f l = true -> Forall P l.
Proof.
  intros HP E. apply Forall_forall. intros x I. apply HP.
  rewrite forallb_forall in E. by apply E, list_elem_of_In.
Qed.

Lemma plain_text s :
  forallb (fun c => negb (c =? NL)%Z) s = true -> Forall (fun c => c <> NL) s.
Proof.
  apply forallb_Forall. intros c Hc. by apply negb_true_iff, Z.eqb_neq in Hc.
Qed.

Section SummaryLine.
Context `{UnicodeDB}.

(** X19: a summary is never empty and never holds a newline; for a type
    other than PROMPT it has at most 111 characters. *)
Theorem response_summary_one_line t response_type :
  let summary := get_response_summary t response_type in
  summary <> [] /\ Forall (fun c => c <> NL) summary /\
  (response_type <> PROMPT -> (length summary <= 111)%nat).
Proof.
  intros summary. unfold summary, get_response_summary. clear summary.
  set (clean_text := strip (re_sub_empty esc_sequence t)).
  destruct (meaningful_lines_spec clean_text) as [Hl _].
  destruct (meaningful_lines clean_text) as [|line lines].
  { split; [done|]. split; [by apply plain_text|]. intros _. vm_compute. lia. }
  apply Forall_cons in Hl as [(Hne & _ & Hplain) _].
  assert (firstn 100 line <> []) as F1 by (by destruct line).
  assert (Forall (fun c => c <> NL) (firstn 100 line)) as F2 by (by apply Forall_take).
  assert (length (firstn 100 line) <= 100)%nat as F3 by (rewrite length_take; lia).
  destruct response_type.
  - destruct (str_of_nat_digits (length (findall summary_option_pattern clean_text)))
      as [_ D].
    split; [done|]. split; [|done].
    apply Forall_app. split; [by apply plain_text|].
    apply Forall_app. split; [|by apply plain_text].
    eapply Forall_impl; [exact D|]. intros c Hc ->. unfold NL in Hc. lia.
  - split; [done|]. split; [done|]. intros _. lia.
  - split; [done|]. split; [done|]. intros _. lia.
  - split; [done|]. split.
    + apply Forall_app. split; [by apply plain_text|done].
    + intros _. rewrite length_app. change (length (lit "Error: ")) with 7%nat. lia.
  - split; [done|]. split; [done|]. intros _. lia.
  - split; [done|]. split.
    + apply Forall_app. split; [by apply plain_text|done].
    + intros _. rewrite length_app. change (length (lit "Completed: ")) with 11%nat. lia.
Qed.

End SummaryLine.

Section SummaryCount.
Context `{UnicodeDB}.

Lemma summary_pattern_never_empty : never_empty summary_option_pattern.
Proof.
  apply never_empty_of_matches. intros prev u rest M.
  unfold summary_option_pattern in M. cbn [matches] in M.
  destruct M as (u0 & v0 & -> & _ & u1 & v1 & -> & _ & u2 & v2 & -> & _
                 & u3 & v3 & -> & [N3 _] & _).
  intros E. do 3 apply app_eq_nil in E as [_ E]. by apply app_eq_nil in E as [E _].
Qed.

(** The shape of a match of the counting pattern: marker characters, then
    digits, then the period that ends it. *)
Lemma summary_match_shape (T : str) p n g :
  exec_at summary_option_pattern T p = Some (n, g) ->
  exists d e,
    (p <= d)%nat /\ (d < e)%nat /\ seg T p d is_lead /\
    seg T d e uni_isdecimal /\ T !! e = Some 46%Z /\ (p + n = e + 1)%nat.
Proof.
  intros E. apply exec_at_sound in E as (u & ET & Lu & M).
  unfold summary_option_pattern, rchar in M. cbn [matches] in M.
  destruct M as (u0 & v0 & -> & [-> Hbol] & u1 & v1 & -> & H1 & u2 & v2 & -> & H2
                 & u3 & u4 & -> & [N3 H3] & (c4 & -> & H4)).
  simpl in ET. repeat (rewrite <- app_assoc in ET || rewrite <- app_comm_cons in ET).
  apply (Forall_class is_lead) in H1; [|intros c Hc; by apply space_is_lead, class_space].
  apply (Forall_class is_lead) in H2; [|done].
  apply (Forall_class uni_isdecimal) in H3; [|apply class_digit].
  apply class_char in H4. subst c4.
  destruct (seg_of_prefix T p u1 _ _ ET H1) as [S1 E1].
  destruct (seg_of_prefix T _ u2 _ _ E1 H2) as [S2 E2].
  destruct (seg_of_prefix T _ u3 _ _ E2 H3) as [S3 E3].
  simpl in E3. apply drop_cons_lookup in E3 as [L4 _].
  exists (p + length u1 + length u2)%nat, (p + length u1 + length u2 + length u3)%nat.
  split; [lia|]. split; [destruct u3; [done|simpl; lia]|].
  split; [by eapply seg_join|]. split; [done|]. split; [done|].
  repeat first [rewrite length_app in Lu | progress (simpl in Lu)]. lia.
Qed.

(** At a line start followed by marker characters, digits and a period, the
    counting pattern matches. *)
Lemma summary_matches_head (T : str) q d e w :
  line_start T q -> (q <= d)%nat -> seg T q d is_lead -> head_at T d e w ->
  is_Some (exec_at summary_option_pattern T q).
Proof.
  intros Hq Hqd Sq (Hde & Sd & Le & _).
  destruct (prefix_of_seg T q d _ Sq Hqd) as (lead & E1 & L1 & F1).
  destruct (prefix_of_seg T d e _ Sd) as (ds & E2 & L2 & F2); [lia|].
  pose proof (drop_S_lookup T e _ Le) as E3.
  assert (drop q T = ([] ++ [] ++ lead ++ ds ++ [46%Z]) ++ drop (S e) T) as E.
  { rewrite E1, E2, E3. simpl.
    by repeat (rewrite <- app_assoc || rewrite <- app_comm_cons). }
  unfold exec_at. rewrite E. apply exec_complete.
  unfold summary_option_pattern, rchar. cbn [matches].
  exists [], ([] ++ lead ++ ds ++ [46%Z]).
  split; [done|]. split; [split; [done|by apply line_start_at_bol]|].
  exists [], (lead ++ ds ++ [46%Z]). split; [done|]. split; [done|].
  exists lead, (ds ++ [46%Z]). split; [done|]. split; [exact F1|].
  exists ds, [46%Z]. split; [done|]. split.
  { split; [destruct ds; [simpl in L2; lia|done]|].
    eapply Forall_impl; [exact F2|]. intros x Hx. simpl. by rewrite Hx. }
  by exists 46%Z.
Qed.

Hypothesis tables : plain_tables.

(** A match of the counting pattern that starts at or before a numbered
    option ends with that option's period at the latest. *)
Lemma summary_match_stops (T : str) q1 d1 e1 w1 p n g :
  (q1 <= d1)%nat -> head_at T d1 e1 w1 -> (p <= q1)%nat ->
  exec_at summary_option_pattern T p = Some (n, g) ->
  (p + n <= e1 + 1)%nat.
Proof.
  intros Hq1 (Hde1 & Sd1 & Le1 & _) Hp E.
  destruct (summary_match_shape T p n g E) as (d & e & Hpd & Hde & Sp & Sd & Le & Hn).
  destruct (Sd1 d1) as (x1 & Lx1 & Hx1); [lia|].
  destruct (decide (p + n <= e1 + 1)%nat) as [|Hin]; [done|]. exfalso.
  destruct (decide (d1 < d)%nat).
  { eapply (digit_not_lead tables); [exact Hx1|].
    apply (seg_at T p d _ d1 _ Sp); [lia|done]. }
  destruct (decide (d1 = e)) as [->|].
  { rewrite Le in Lx1. injection Lx1 as <-. by apply (digit_not_period tables). }
  destruct (decide (e < d1)%nat); [lia|].
  (* the first digit of the option lies among the digits of the match *)
  apply (digit_not_period tables). apply (seg_at T d e _ e1 _ Sd); [lia|done].
Qed.

(** Two matches of the classifier's pattern give two of the counting
    pattern, in the same text. *)
Lemma classifier_two_summary_two (T : str) :
  (2 <= length (findall classifier_option_pattern T))%nat ->
  (2 <= length (findall summary_option_pattern T))%nat.
Proof.
  intros H2. unfold findall in *. rewrite length_map in *.
  destruct (scan_two classifier_option_pattern T classifier_pattern_never_empty)
    as (p1 & n1 & g1 & p2 & E1 & Hp2 & [[n2 g2] E2]); [exact H2|].
  destruct (classifier_match_shape _ _ _ _ E1)
    as (L1 & Hl1 & d1 & e1 & w1 & Hd1 & S1 & Hh1 & Hw1).
  destruct (classifier_match_shape _ _ _ _ E2)
    as (L2 & Hl2 & d2 & e2 & w2 & Hd2 & S2 & Hh2 & Hw2).
  apply (scan_two_intro _ T p1 (length T) summary_pattern_never_empty).
  { by eapply summary_matches_head. }
  intros p n g Hp E.
  pose proof (summary_match_stops T p1 d1 e1 w1 p n g Hd1 Hh1 Hp E) as Hstop.
  exists p2. split.
  - destruct Hh1 as (_ & _ & _ & Hew & _). lia.
  - by eapply summary_matches_head.
Qed.

(** X20: for a text classified PROMPT the summary reads "Interactive prompt
    with n options" with n at least 2; the tables are asked what C1 asks of
    them. *)
Theorem prompt_summary_counts_options t :
  classify_response t = PROMPT ->
  exists option_count,
    (2 <= option_count)%nat /\
    get_response_summary t PROMPT =
      lit "Interactive prompt with " ++ str_of_nat option_count ++ lit " options".
Proof.
  intros Hc. unfold classify_response in Hc. unfold get_response_summary.
  set (clean_text := strip (re_sub_empty esc_sequence t)) in *.
  destruct clean_text as [|c rest] eqn:E; [done|].
  assert (2 <= length (findall classifier_option_pattern (c :: rest)))%nat as H2.
  { unfold _has_numbered_options in Hc.
    destruct (2 <=? length (findall classifier_option_pattern (c :: rest)))%nat eqn:E2.
    - by apply Nat.leb_le.
    - destruct (_is_confirmation _); [done|]. destruct (_is_error _); [done|].
      destruct (_is_working _); [done|]. by destruct (_is_complete _). }
  apply classifier_two_summary_two in H2.
  destruct (meaningful_lines_spec (c :: rest)) as [_ Hne].
  destruct (meaningful_lines (c :: rest)) as [|line lines].
  { destruct Hne; [|done]. apply strip_nonblank.
    unfold clean_text in E. rewrite <- E, strip_idemp, E. done. }
  by eexists.
Qed.

End SummaryCount.

Lemma prompt_summary_counts_options_witness :
  let t := lit "Pick one" ++ [NL] ++ lit "1. yes" ++ [NL] ++ lit "2. no"
           ++ [NL] ++ lit "3." in
  @classify_response basic_unicode t = PROMPT /\
  @get_response_summary basic_unicode t PROMPT = lit "Interactive prompt with 3 options" /\
  exists option_count,
    (2 <= option_count)%nat /\
    @get_response_summary basic_unicode t PROMPT =
      lit "Interactive prompt with " ++ str_of_nat option_count ++ lit " options".
Proof.
  intros t.
  assert (@classify_response basic_unicode t = PROMPT) as Hc by (by vm_compute).
  split; [exact Hc|]. split; [by vm_compute|].
  exact (@prompt_summary_counts_options basic_unicode basic_plain_tables t Hc).
Defined.

(** ** The handlers: splitting at a separator *)

Lemma split_on_aux_plain sep l : forall cur s,
  Forall (fun c => c <> sep) l ->
  split_on_aux sep cur (l ++ s) = split_on_aux sep (rev l ++ cur) s.
Proof.
  induction l as [|c l IH]; intros cur s Hl; [done|].
  apply Forall_cons in Hl as [Hc Hl]. simpl.
  apply Z.eqb_neq in Hc. rewrite Hc. rewrite IH by done.
  by rewrite <- app_assoc.
Qed.

Lemma split_on_plain sep l :
  Forall (fun c => c <> sep) l -> split_on sep l = [l].
Proof.
  intros Hl. unfold split_on. rewrite <- (app_nil_r l) at 1.
  rewrite split_on_aux_plain by done. simpl. by rewrite app_nil_r, rev_involutive.
Qed.

Lemma split_on_cons sep l s :
  Forall (fun c => c <> sep) l ->
  split_on sep (l ++ sep :: s) = l :: split_on sep s.
Proof.
  intros Hl. unfold split_on. rewrite split_on_aux_plain by done. simpl.
  by rewrite Z.eqb_refl, app_nil_r, rev_involutive.
Qed.

Lemma split_on_aux_length sep s : forall cur,
  length (split_on_aux sep cur s)
  = S (length (List.filter (fun c => (c =? sep)%Z) s)).
Proof.
  induction s as [|c s IH]; intros cur; [done|]. simpl.
  destruct (c =? sep)%Z; simpl; by rewrite IH.
Qed.

Lemma forallb_ne sep (s : str) :
  forallb (fun c => negb (c =? sep)%Z) s = true -> Forall (fun c => c <> sep) s.
Proof.
  intros E. apply Forall_forall. intros c I. rewrite forallb_forall in E.
  apply list_elem_of_In, E in I. by apply negb_true_iff, Z.eqb_neq in I.
Qed.

Section Buttons.
Context `{UnicodeDB}.

(** X22: the keyboard has one button per option, in order, and
    [button_callback_handler] reads back from a button's data the session
    identifier and the option's label when the identifier holds no colon; it
    refuses the data when the identifier holds one.  The colon is taken not
    to be a decimal digit. *)
Theorem button_data_round_trip t p session_id :
  parse_prompt t = Some p ->
  uni_isdecimal COLON = false ->
  length (prompt_keyboard session_id p) = length (options p) /\
  forall i b, prompt_keyboard session_id p !! i = Some b ->
    exists opt,
      options p !! i = Some opt /\
      (Forall (fun c => c <> COLON) session_id ->
       parse_button_data (button_data b) = Some (session_id, number opt)) /\
      (Exists (fun c => c = COLON) session_id ->
       parse_button_data (button_data b) = None).
Proof.
  intros E Hcolon. destruct (parsed_options_well_formed t p E) as [_ Hw].
  unfold prompt_keyboard. split; [by rewrite length_map|].
  intros i b Hb. rewrite list_lookup_fmap in Hb.
  destruct (options p !! i) as [o|] eqn:Ho; [|done]. injection Hb as <-.
  exists o. split; [done|].
  rewrite Forall_lookup in Hw. destruct (Hw i o Ho) as (_ & Hd & _).
  assert (Forall (fun c => c <> COLON) (number o)) as Hnum.
  { eapply Forall_impl; [exact Hd|]. intros c Hc ->. congruence. }
  change (button_data _)
    with (lit "prompt" ++ COLON :: (session_id ++ COLON :: number o)).
  unfold parse_button_data. split.
  - intros Hsid. rewrite split_on_cons by (by apply forallb_ne).
    rewrite split_on_cons by done. by rewrite split_on_plain.
  - intros Hsid. rewrite split_on_cons by (by apply forallb_ne).
    pose proof (split_on_aux_length COLON (session_id ++ COLON :: number o) []) as L.
    fold (split_on COLON (session_id ++ COLON :: number o)) in L.
    rewrite List.filter_app, length_app in L. cbn [List.filter] in L.
    rewrite Z.eqb_refl in L. cbn [length] in L.
    assert (0 < length (List.filter (fun c => (c =? COLON)%Z) session_id))%nat as L1.
    { apply Exists_exists in Hsid as (c & I & ->).
      assert (COLON ∈ List.filter (fun c => (c =? COLON)%Z) session_id) as I'.
      { apply list_elem_of_In, filter_In. split; [by apply list_elem_of_In|done]. }
      destruct (List.filter _ session_id); [by apply elem_of_nil in I'|simpl; lia]. }
    destruct (split_on COLON (session_id ++ COLON :: number o)) as [|x [|y [|z r]]];
      simpl in L; try lia; done.
Qed.

End Buttons.

Lemma button_data_round_trip_witness :
  let t := lit "Choose:" ++ [NL] ++ lit "1. yes" ++ [NL] ++ lit "2. no" in
  let session_id := lit "8afdab13-0fce" in
  exists p,
    @parse_prompt basic_unicode t = Some p /\
    map button_text (prompt_keyboard session_id p) = [lit "1. yes"; lit "2. no"] /\
    forall i b, prompt_keyboard session_id p !! i = Some b ->
      exists opt,
        options p !! i = Some opt /\
        parse_button_data (button_data b) = Some (session_id, number opt).
Proof.
  intros t session_id.
  destruct (@parse_prompt basic_unicode t) as [p|] eqn:E; [|by vm_compute in E].
  exists p. split; [done|].
  split; [vm_compute in E; injection E as <-; reflexivity|].
  intros i b Hb.
  destruct (proj2 (@button_data_round_trip basic_unicode t p session_id E eq_refl) i b Hb)
    as (o & Ho & Hok & _).
  exists o. split; [done|]. apply Hok. by apply forallb_ne.
Defined.

(** ** The reply of the message handler *)

Lemma streamed_display_text_bounds buffer :
  buffer <> [] ->
  (1 <= length (streamed_display_text buffer))%nat /\
  (length (streamed_display_text buffer) <= 4017)%nat.
Proof.
  intros Hne. unfold streamed_display_text.
  destruct (4000 <? length buffer)%nat eqn:E.
  - rewrite length_app, length_take.
    change (length truncation_mark) with 17%nat. lia.
  - rewrite length_take. destruct buffer as [|c b]; [done|]. cbn [length]. lia.
Qed.

Lemma final_display_text_streamed buffer :
  buffer <> [] -> final_display_text buffer = streamed_display_text buffer.
Proof.
  intros Hne. unfold final_display_text, streamed_display_text.
  by destruct buffer.
Qed.

Lemma final_display_text_bounds buffer :
  (1 <= length (final_display_text buffer))%nat /\
  (length (final_display_text buffer) <= 4017)%nat.
Proof.
  destruct buffer as [|c b]; [vm_compute; lia|].
  rewrite final_display_text_streamed by done.
  by apply streamed_display_text_bounds.
Qed.

Lemma on_chunk_buffer st tk :
  reply_buffer (on_chunk st tk) = reply_buffer st ++ tick_chunk tk.
Proof.
  unfold on_chunk.
  destruct (Qltb _ _ && _); [|done].
  destruct (bool_decide _); [|done].
  by destruct (tick_edit_raises tk).
Qed.

Lemma on_chunk_keeps st tk :
  Forall plain_call_bounded (edit_calls st) -> shows_last_content st ->
  Forall plain_call_bounded (edit_calls (on_chunk st tk)) /\
  shows_last_content (on_chunk st tk) /\
  pending_prompt (on_chunk st tk) = pending_prompt st /\
  saved_reply (on_chunk st tk) = saved_reply st.
Proof.
  intros Hb Hs. unfold on_chunk.
  destruct (Qltb _ _ && _) eqn:E; [|done].
  apply andb_true_iff in E as [_ E]. apply Nat.ltb_lt in E.
  assert (reply_buffer st ++ tick_chunk tk <> []) as Hne.
  { intros X. rewrite X in E. simpl in E. lia. }
  pose proof (streamed_display_text_bounds _ Hne) as B.
  destruct (bool_decide _); [|done].
  destruct (tick_edit_raises tk); cbn.
  - split; [|done]. apply Forall_app. split; [done|]. by apply Forall_singleton.
  - split; [apply Forall_app; split; [done|by apply Forall_singleton]|].
    split; [|done]. right. split; [|done].
    cbn. intros X. rewrite X in B. simpl in B. lia.
Qed.

Lemma stream_keeps ticks : forall st,
  Forall plain_call_bounded (edit_calls st) -> shows_last_content st ->
  let st' := fold_left on_chunk ticks st in
  reply_buffer st' = reply_buffer st ++ concat (map tick_chunk ticks) /\
  Forall plain_call_bounded (edit_calls st') /\
  shows_last_content st' /\
  pending_prompt st' = pending_prompt st /\
  saved_reply st' = saved_reply st.
Proof.
  induction ticks as [|tk ticks IH]; intros st Hb Hs; cbn.
  - by rewrite app_nil_r.
  - destruct (on_chunk_keeps st tk Hb Hs) as (Hb' & Hs' & Hp & Hv).
    destruct (IH _ Hb' Hs') as (E & ? & ? & ? & ?).
    rewrite E, on_chunk_buffer, <- app_assoc. repeat split; congruence.
Qed.

Lemma stream_spec ticks :
  let st := fold_left on_chunk ticks reply_start in
  reply_buffer st = concat (map tick_chunk ticks) /\
  Forall plain_call_bounded (edit_calls st) /\
  shows_last_content st /\
  pending_prompt st = None /\ saved_reply st = None.
Proof.
  apply (stream_keeps ticks reply_start); [constructor|by left].
Qed.

Ltac reply_fields :=
  cbn [reply_buffer last_edit last_content edit_calls shown pending_prompt
       saved_reply prompt_edit_raises fallback_edit_raises final_edit_raises
       save_raises error_edit_raises fst snd];
  rewrite <- ?app_assoc; cbn [app].

Section Reply.
Context `{UnicodeDB}.

(** No option line is found in the empty text. *)
Lemma parse_prompt_empty : parse_prompt [] = None.
Proof. unfold parse_prompt. by destruct (negb (has_indicator _)). Qed.

Lemma parsed_prompt_guard buffer :
  match buffer with
  | [] => None
  | _ => parse_prompt buffer
  end = parse_prompt buffer.
Proof. destruct buffer; [by rewrite parse_prompt_empty|done]. Qed.

(** The calls after the loop, for a state the loop can leave. *)
Lemma finish_spec env session_id st :
  shows_last_content st -> pending_prompt st = None ->
  let buffer := reply_buffer st in
  let st' := finish env session_id st in
  reply_buffer st' = buffer /\
  (exists calls, edit_calls st' = edit_calls st ++ calls /\
                 Forall plain_call_bounded calls) /\
  (save_raises env = false ->
   match parse_prompt buffer with
   | Some p =>
       if prompt_edit_raises env then
         fallback_edit_raises env = false ->
         shown st' = Some (EditText (final_display_text buffer)) /\
         pending_prompt st' = None /\ saved_reply st' = Some buffer
       else
         shown st' = Some (EditPrompt (format_prompt_message p)
                                      (prompt_keyboard session_id p)) /\
         pending_prompt st' = Some session_id /\ saved_reply st' = Some buffer
   | None =>
       final_edit_raises env = false ->
       shown st' = Some (EditText (final_display_text buffer)) /\
       pending_prompt st' = None /\ saved_reply st' = Some buffer
   end).
Proof.
  intros Hs Hp buffer st'. unfold st', finish. clear st'.
  rewrite parsed_prompt_guard. fold buffer.
  pose proof (final_display_text_bounds buffer) as B.
  set (shown_text := EditText (final_display_text buffer)) in *.
  assert (plain_call_bounded shown_text) as B1 by done.
  destruct (parse_prompt buffer) as [p|].
  - set (shown_prompt := EditPrompt (format_prompt_message p)
                                    (prompt_keyboard session_id p)).
    assert (plain_call_bounded shown_prompt) as B2 by done.
    destruct env as [[] [] fe [] ee]; unfold on_exception, call_edit; reply_fields;
      (split; [done|]); (split; [eexists; split; [reflexivity|]|done]);
      repeat (apply Forall_cons; split; [done|]); constructor.
  - destruct (bool_decide (final_display_text buffer <> last_content st)) eqn:D.
    + destruct env as [pe fb [] [] ee]; unfold on_exception, call_edit; reply_fields;
        (split; [done|]); (split; [eexists; split; [reflexivity|]|done]);
        repeat (apply Forall_cons; split; [done|]); constructor.
    + apply bool_decide_eq_false in D.
      assert (final_display_text buffer = last_content st) as D'.
      { destruct (decide (final_display_text buffer = last_content st)); [done|].
        by destruct D. }
      assert (shown st = Some shown_text) as S.
      { unfold shown_text.
        destruct Hs as [[_ Hs]|[_ Hs]]; [|by rewrite D'].
        rewrite <- D' in Hs. rewrite Hs in B. simpl in B. lia. }
      destruct env as [pe fb fe [] ee]; unfold on_exception, call_edit; reply_fields;
        (split; [done|]);
        (split; [first [by exists []; rewrite app_nil_r
                       |eexists; split; [reflexivity|by repeat constructor]]|done]).
Qed.

(** What the whole block leaves when the generator ends. *)
Lemma reply_spec env session_id ticks :
  let buffer := concat (map tick_chunk ticks) in
  let st := reply env session_id ticks None in
  reply_buffer st = buffer /\
  Forall plain_call_bounded (edit_calls st) /\
  (save_raises env = false ->
   match parse_prompt buffer with
   | Some p =>
       if prompt_edit_raises env then
         fallback_edit_raises env = false ->
         shown st = Some (EditText (final_display_text buffer)) /\
         pending_prompt st = None /\ saved_reply st = Some buffer
       else
         shown st = Some (EditPrompt (format_prompt_message p)
                                     (prompt_keyboard session_id p)) /\
         pending_prompt st = Some session_id /\ saved_reply st = Some buffer
   | None =>
       final_edit_raises env = false ->
       shown st = Some (EditText (final_display_text buffer)) /\
       pending_prompt st = None /\ saved_reply st = Some buffer
   end).
Proof.
  intros buffer st. unfold st, reply. clear st.
  destruct (stream_spec ticks) as (Eb & Hb & Hs & Hp & _).
  destruct (finish_spec env session_id _ Hs Hp) as (Eb' & (calls & Ec & Hc) & F).
  rewrite Eb in Eb', F. fold buffer in Eb', F.
  split; [done|]. split; [|done].
  rewrite Ec. apply Forall_app. by split.
Qed.

(** X21: when the generator ends, the buffer is the chunks joined and
    every plain text passed to [edit_text], while streaming or afterwards,
    has between 1 and 4017 characters.  If saving the reply does not raise,
    the message ends up showing: for a response in which [parse_prompt] finds
    no prompt, the plain text of the response, provided the final edit does
    not raise, and also when that edit is skipped because the text equals
    the last one streamed; for a response with a prompt, the formatted prompt
    with one button per option, or, when that edit raises and the fall-back
    does not, the plain text.  The plain text is "Done (no output)" for an
    empty response, the response itself up to 4000 characters, and else its
    first 4000 characters followed by the truncation mark.  Edits that raise
    while streaming change none of this. *)
Theorem final_reply_shown env session_id ticks :
  let buffer := concat (map tick_chunk ticks) in
  let st := reply env session_id ticks None in
  let plain_text := final_display_text buffer in
  reply_buffer st = buffer /\
  Forall plain_call_bounded (edit_calls st) /\
  (parse_prompt buffer = None ->
   final_edit_raises env = false -> save_raises env = false ->
   shown st = Some (EditText plain_text) /\
   pending_prompt st = None /\ saved_reply st = Some buffer) /\
  (forall p, parse_prompt buffer = Some p ->
   prompt_edit_raises env = false -> save_raises env = false ->
   shown st = Some (EditPrompt (format_prompt_message p)
                               (prompt_keyboard session_id p)) /\
   pending_prompt st = Some session_id /\ saved_reply st = Some buffer) /\
  (forall p, parse_prompt buffer = Some p ->
   prompt_edit_raises env = true -> fallback_edit_raises env = false ->
   save_raises env = false ->
   shown st = Some (EditText plain_text) /\
   pending_prompt st = None /\ saved_reply st = Some buffer) /\
  (buffer = [] -> plain_text = done_notice) /\
  (buffer <> [] -> (length buffer <= 4000)%nat -> plain_text = buffer) /\
  ((4000 < length buffer)%nat ->
   plain_text = firstn 4000 buffer ++ truncation_mark).
Proof.
  intros buffer st plain_text.
  destruct (reply_spec env session_id ticks) as (Eb & Hb & F).
  fold buffer st in Eb, Hb, F.
  split; [done|]. split; [done|].
  split; [|split; [|split]].
  - intros Hn Hf Hs. rewrite Hn in F. by apply F.
  - intros p Hp He Hs. rewrite Hp, He in F. by apply F.
  - intros p Hp He Hf Hs. rewrite Hp, He in F. by apply F.
  - unfold plain_text, final_display_text. split; [by intros ->|]. split.
    + intros Hne Hl. apply Nat.ltb_ge in Hl. rewrite Hl.
      destruct buffer; [done|]. apply firstn_all2. by apply Nat.ltb_ge.
    + intros Hl. apply Nat.ltb_lt in Hl. by rewrite Hl.
Qed.

Lemma nonblank_concat chunks :
  chunks <> [] -> Forall nonblank chunks -> nonblank (concat chunks).
Proof.
  intros Hne Hc. destruct chunks as [|c cs]; [done|].
  apply Forall_cons in Hc as [Hc _]. simpl. apply Exists_app. by left.
Qed.

(** X23: when [send_message] completes and no unit delivered is blank, the
    chunks are not empty and none is blank, so the text [message_handler]
    accumulates from them is not blank; whatever the times of arrival and
    the fate of the edits made while streaming, if the calls after the loop
    do not raise the reply is saved and the message ends up showing the
    formatted prompt with its buttons when [parse_prompt] finds a prompt in
    the response, and otherwise the first 4000 characters of the response,
    followed by the truncation mark if there are more: the "Done (no
    output)" branch is not taken. *)
Theorem completed_response_not_blank senv now sid message m chunks m'
    env ticks :
  send_message senv now sid message m = (chunks, Ok tt, m') ->
  Forall nonblank (delivered senv) ->
  map tick_chunk ticks = chunks ->
  let buffer := concat chunks in
  let st := reply env (lit sid) ticks None in
  chunks <> [] /\ Forall nonblank chunks /\ nonblank buffer /\
  reply_buffer st = buffer /\
  (prompt_edit_raises env = false -> final_edit_raises env = false ->
   save_raises env = false ->
   saved_reply st = Some buffer /\
   shown st =
     Some match parse_prompt buffer with
          | Some p => EditPrompt (format_prompt_message p)
                                 (prompt_keyboard (lit sid) p)
          | None => EditText (firstn 4000 buffer ++
                              if (4000 <? length buffer)%nat
                              then truncation_mark else [])
          end).
Proof.
  intros E Hd Et buffer st.
  assert (chunks <> [] /\ Forall nonblank chunks) as [Hne Hc].
  { unfold send_message in E. destruct (sessions m !! sid) as [p|]; [|done].
    destruct (negb (is_alive p)); [done|].
    destruct (send_input (write_raises senv) message p) as [[[]|e] p']; [|done].
    destruct (delivered senv) as [|c cs] eqn:Ed; injection E as <- _.
    - split; [done|]. apply Forall_singleton. apply strip_nonblank. by vm_compute.
    - by split. }
  pose proof (nonblank_concat chunks Hne Hc) as Hb. fold buffer in Hb.
  destruct (reply_spec env (lit sid) ticks) as (Eb & _ & F).
  rewrite Et in Eb, F. fold buffer st in Eb, F.
  split; [done|]. split; [done|]. split; [done|]. split; [done|].
  intros He Hf Hs. specialize (F Hs). rewrite He in F.
  assert (final_display_text buffer =
          firstn 4000 buffer ++
          (if (4000 <? length buffer)%nat then truncation_mark else [])) as D.
  { unfold final_display_text. destruct buffer as [|x xs]; [by apply Exists_nil in Hb|].
    destruct (4000 <? length (x :: xs))%nat; [done|]. by rewrite app_nil_r. }
  destruct (parse_prompt buffer) as [p|].
  - by destruct F as (-> & _ & ->).
  - destruct (F Hf) as (-> & _ & ->). by rewrite D.
Qed.

End Reply.

Lemma final_reply_shown_witness :
  let ticks :=
    [ {| tick_chunk := lit "Hello"; tick_now := 100 # 1; tick_edit_raises := false |};
      {| tick_chunk := lit " world"; tick_now := 1003 # 10; tick_edit_raises := false |} ] in
  let st := @reply basic_unicode quiet_finish (lit "s1") ticks None in
  let st1 := @reply basic_unicode quiet_finish (lit "s1") (firstn 1 ticks) None in
  (edit_calls st = [EditText (lit "Hello"); EditText (lit "Hello world")] /\
   shown st = Some (EditText (lit "Hello world")) /\
   saved_reply st = Some (lit "Hello world")) /\
  (edit_calls st1 = [EditText (lit "Hello")] /\
   shown st1 = Some (EditText (lit "Hello")) /\
   saved_reply st1 = Some (lit "Hello")).
Proof.
  intros ticks st st1. split.
  - split; [by vm_compute|].
    destruct (@final_reply_shown basic_unicode quiet_finish (lit "s1") ticks)
      as (_ & _ & N & _).
    destruct N as (S & _ & V); [by vm_compute|done|done|].
    split; [exact S|exact V].
  - split; [by vm_compute|].
    destruct (@final_reply_shown basic_unicode quiet_finish (lit "s1") (firstn 1 ticks))
      as (_ & _ & N & _).
    destruct N as (S & _ & V); [by vm_compute|done|done|].
    split; [exact S|exact V].
Defined.

Lemma completed_response_not_blank_witness :
  let p := snd (start {| pty_master := 7%Z; pty_slave := 8%Z; launched := Some 4242%Z |}
                  (new_process "s1")) in
  let m := {| db := ∅; sessions := {["s1" := p]}; active_sessions := ∅ |} in
  let senv := {| write_raises := false;
                 delivered := [lit "Choose:" ++ [NL] ++ lit "1. yes" ++ [NL];
                               lit "2. no"] |} in
  let ticks :=
    [ {| tick_chunk := lit "Choose:" ++ [NL] ++ lit "1. yes" ++ [NL];
         tick_now := 100 # 1; tick_edit_raises := false |};
      {| tick_chunk := lit "2. no"; tick_now := 101 # 1; tick_edit_raises := true |} ] in
  let st := @reply basic_unicode quiet_finish (lit "s1") ticks None in
  exists m',
    send_message senv 0%Z "s1" (lit "hi") m = (map tick_chunk ticks, Ok tt, m') /\
    saved_reply st =
      Some (lit "Choose:" ++ [NL] ++ lit "1. yes" ++ [NL] ++ lit "2. no") /\
    shown st =
      Some (EditPrompt
              (lit "**Please select an option:**" ++ [NL; NL] ++
               lit "_Select an option below:_")
              [ {| button_text := lit "1. yes"; button_data := lit "prompt:s1:1" |};
                {| button_text := lit "2. no"; button_data := lit "prompt:s1:2" |} ]).
Proof.
  intros p m senv ticks st.
  destruct (send_message senv 0%Z "s1" (lit "hi") m) as [[chunks r] m'] eqn:E.
  assert (chunks = map tick_chunk ticks /\ r = Ok tt) as [-> ->].
  { vm_compute in E. by injection E as <- <- _. }
  exists m'. split; [done|].
  destruct (@completed_response_not_blank basic_unicode senv 0%Z "s1" (lit "hi") m _ m'
              quiet_finish ticks E) as (_ & _ & _ & _ & F).
  - apply Forall_cons. split; [|apply Forall_singleton]; apply strip_nonblank; by vm_compute.
  - reflexivity.
  - destruct F as (V & S); [done|done|done|].
    split; [exact V|]. etrans; [exact S|]. by vm_compute.
Defined.
